(** * Scheduling policies for the tasks of an autonomous vehicle

    A shallow embedding of [base_escalonador.py]: the task record
    [TarefaCAV], the scheduler base class [EscalonadorCAV] and its twelve
    subclasses, each with its own [escalonar] loop.

    Conventions of the embedding.

    - Numbers.  Python's ints and floats are read as exact rationals ([Q]);
      [0.3] is the rational 3/10.  Rounding of binary floating point is not
      modelled: a sum, a difference or a quotient in a definition stands
      for the one operation that the source performs at that place.  The
      theorems of the parts [The claims] and [Further properties of the
      code] are stated accordingly: with the operations of the source, in
      the order of the source, and with comparisons, not with what exact
      arithmetic would make of them; and where exactness matters (a loop
      ends because the remaining times decrease), for whole numbers of
      magnitude at most 2^53, on which the additions and subtractions of
      the source are exact.  The lemmas that hold in exact arithmetic only
      (the sum of the bursts of a task, the measures of the termination
      proofs) support those theorems.  Statements about numeric fields use
      [==] ([Qeq]).
    - Objects.  Task objects live in a heap [Heap := nat -> TarefaCAV]; the
      lists [self.tarefas] and [fila] hold references (addresses).  Mutating
      a task is an update of the heap at its address, so every holder of the
      reference sees the change.
    - Loops.  [while fila:] is iterated with fuel; a run either returns,
      aborts with a Python exception, or exhausts its fuel.
    - History.  [finalizacoes] records, in order, the references whose
      [tempo_final] attribute has been assigned.  It is a history variable:
      no source statement reads it. *)

From Stdlib Require Import String DecimalString QArith Qround Lqa Lia ZArith
  Arith Bool List Sorted.
Import ListNotations.
Local Open Scope Q_scope.

(** ** Numbers *)

(** Python's [a < b] on numbers. *)
Definition Qlt_bool (a b : Q) : bool := negb (Qle_bool b a).

(** Python's [min(a, b)]: the first argument unless the second is smaller. *)
Definition min_py (a b : Q) : Q := if Qlt_bool b a then b else a.

(** Python's [max(a, b)]: the first argument unless the second is larger. *)
Definition max_py (a b : Q) : Q := if Qlt_bool a b then b else a.

(** [math.ceil(x)], an int. *)
Definition teto (x : Q) : Q := inject_Z (Qceiling x).

(** [x // 2] on numbers: floor of the quotient. *)
Definition div_piso_2 (x : Q) : Q := inject_Z (Qfloor (x / 2)).

(** The fixed cost charged for each preemption, the literal [0.3]. *)
Definition sobrecarga_preempcao : Q := 3 # 10.

(** ** Exceptions *)

Inductive Excecao : Type :=
| TypeError          (* a comparison with [None] *)
| IndexError         (* [l[0]] on an empty list *)
| UnboundLocalError. (* a local variable read before assignment *)

Inductive Resultado (A : Type) : Type :=
| Ok (a : A)
| Erro (e : Excecao).
Arguments Ok {A} a.
Arguments Erro {A} e.

(** ** class TarefaCAV *)

Record TarefaCAV : Type := MkTarefa {
  nome : string;
  duracao : Q;
  prioridade : Z;
  tempo_restante : Q;
  tempo_inicio : option Q;
  tempo_final : option Q;
  tempo_chegada : Q;
  tempo_em_espera : Q;
  tempo_de_resposta : option Q;
  tempo_inicio_execucao_atual : option Q;
  tempo_final_execucao_atual : option Q;
  deadline : option Q;
  possivelmente_catastrofico : bool;
  tempos_execucao : list (Q * Q)
}.

(** [TarefaCAV.__init__]. *)
Definition TarefaCAV_init (nome : string) (duracao tempo_chegada : Q)
    (possivelmente_catastrofico : bool) (prioridade : Z) (deadline : option Q)
    : TarefaCAV :=
  {| nome := nome;
     duracao := duracao;
     prioridade := prioridade;
     tempo_restante := duracao;
     tempo_inicio := None;
     tempo_final := None;
     tempo_chegada := tempo_chegada;
     tempo_em_espera := 0;
     tempo_de_resposta := None;
     tempo_inicio_execucao_atual := None;
     tempo_final_execucao_atual := None;
     deadline := deadline;
     possivelmente_catastrofico := possivelmente_catastrofico;
     tempos_execucao := [] |}.

(** Attribute assignments. *)

Definition set_tempo_restante (v : Q) (t : TarefaCAV) : TarefaCAV :=
  MkTarefa (nome t) (duracao t) (prioridade t) v (tempo_inicio t)
    (tempo_final t) (tempo_chegada t) (tempo_em_espera t) (tempo_de_resposta t)
    (tempo_inicio_execucao_atual t) (tempo_final_execucao_atual t) (deadline t)
    (possivelmente_catastrofico t) (tempos_execucao t).

Definition set_tempo_inicio (v : option Q) (t : TarefaCAV) : TarefaCAV :=
  MkTarefa (nome t) (duracao t) (prioridade t) (tempo_restante t) v
    (tempo_final t) (tempo_chegada t) (tempo_em_espera t) (tempo_de_resposta t)
    (tempo_inicio_execucao_atual t) (tempo_final_execucao_atual t) (deadline t)
    (possivelmente_catastrofico t) (tempos_execucao t).

Definition set_tempo_final (v : option Q) (t : TarefaCAV) : TarefaCAV :=
  MkTarefa (nome t) (duracao t) (prioridade t) (tempo_restante t)
    (tempo_inicio t) v (tempo_chegada t) (tempo_em_espera t)
    (tempo_de_resposta t) (tempo_inicio_execucao_atual t)
    (tempo_final_execucao_atual t) (deadline t) (possivelmente_catastrofico t)
    (tempos_execucao t).

Definition set_tempo_em_espera (v : Q) (t : TarefaCAV) : TarefaCAV :=
  MkTarefa (nome t) (duracao t) (prioridade t) (tempo_restante t)
    (tempo_inicio t) (tempo_final t) (tempo_chegada t) v (tempo_de_resposta t)
    (tempo_inicio_execucao_atual t) (tempo_final_execucao_atual t) (deadline t)
    (possivelmente_catastrofico t) (tempos_execucao t).

Definition set_tempo_de_resposta (v : option Q) (t : TarefaCAV) : TarefaCAV :=
  MkTarefa (nome t) (duracao t) (prioridade t) (tempo_restante t)
    (tempo_inicio t) (tempo_final t) (tempo_chegada t) (tempo_em_espera t) v
    (tempo_inicio_execucao_atual t) (tempo_final_execucao_atual t) (deadline t)
    (possivelmente_catastrofico t) (tempos_execucao t).

Definition set_tempo_inicio_execucao_atual (v : option Q) (t : TarefaCAV)
    : TarefaCAV :=
  MkTarefa (nome t) (duracao t) (prioridade t) (tempo_restante t)
    (tempo_inicio t) (tempo_final t) (tempo_chegada t) (tempo_em_espera t)
    (tempo_de_resposta t) v (tempo_final_execucao_atual t) (deadline t)
    (possivelmente_catastrofico t) (tempos_execucao t).

Definition set_tempo_final_execucao_atual (v : option Q) (t : TarefaCAV)
    : TarefaCAV :=
  MkTarefa (nome t) (duracao t) (prioridade t) (tempo_restante t)
    (tempo_inicio t) (tempo_final t) (tempo_chegada t) (tempo_em_espera t)
    (tempo_de_resposta t) (tempo_inicio_execucao_atual t) v (deadline t)
    (possivelmente_catastrofico t) (tempos_execucao t).

(** [tarefa.tempos_execucao.append(b)]. *)
Definition anexar_execucao (b : Q * Q) (t : TarefaCAV) : TarefaCAV :=
  MkTarefa (nome t) (duracao t) (prioridade t) (tempo_restante t)
    (tempo_inicio t) (tempo_final t) (tempo_chegada t) (tempo_em_espera t)
    (tempo_de_resposta t) (tempo_inicio_execucao_atual t)
    (tempo_final_execucao_atual t) (deadline t) (possivelmente_catastrofico t)
    (tempos_execucao t ++ [b]).

(** [TarefaCAV.executar]: the updated task and the returned [tempo_exec]. *)
Definition executar (t : TarefaCAV) (quantum : Q) : TarefaCAV * Q :=
  let tempo_exec := min_py (tempo_restante t) quantum in
  (set_tempo_restante (tempo_restante t - tempo_exec) t, tempo_exec).

(** The sum of the lengths of the recorded bursts. *)
Definition soma_execucoes (t : TarefaCAV) : Q :=
  fold_right (fun b acc => (snd b - fst b) + acc) 0 (tempos_execucao t).

(** ** The heap of task objects *)

Definition Heap : Type := nat -> TarefaCAV.

Definition gravar_obj (h : Heap) (a : nat) (t : TarefaCAV) : Heap :=
  fun b => if Nat.eqb b a then t else h b.

(** ** class EscalonadorCAV

    One record holds the heap, the attributes of the scheduler object
    ([tarefas], [menor_tarefa], [sobrecarga_total], [tempo_atual], and
    [quantum], [quantum_atual] for the subclasses that have them), the
    locals of [escalonar] that survive an iteration ([fila], [tarefa]) and
    the history variable [finalizacoes]. *)

Record Estado : Type := MkEstado {
  objetos : Heap;
  tarefas : list nat;
  menor_tarefa : option nat;
  sobrecarga_total : Q;
  tempo_atual : Q;
  quantum : Q;
  quantum_atual : Q;
  fila : list nat;
  tarefa : option nat;
  finalizacoes : list nat
}.

Definition set_objetos (h : Heap) (s : Estado) : Estado :=
  MkEstado h (tarefas s) (menor_tarefa s) (sobrecarga_total s) (tempo_atual s)
    (quantum s) (quantum_atual s) (fila s) (tarefa s) (finalizacoes s).

Definition set_tarefas (l : list nat) (s : Estado) : Estado :=
  MkEstado (objetos s) l (menor_tarefa s) (sobrecarga_total s) (tempo_atual s)
    (quantum s) (quantum_atual s) (fila s) (tarefa s) (finalizacoes s).

Definition set_menor_tarefa (m : option nat) (s : Estado) : Estado :=
  MkEstado (objetos s) (tarefas s) m (sobrecarga_total s) (tempo_atual s)
    (quantum s) (quantum_atual s) (fila s) (tarefa s) (finalizacoes s).

Definition set_sobrecarga_total (v : Q) (s : Estado) : Estado :=
  MkEstado (objetos s) (tarefas s) (menor_tarefa s) v (tempo_atual s)
    (quantum s) (quantum_atual s) (fila s) (tarefa s) (finalizacoes s).

Definition set_tempo_atual (v : Q) (s : Estado) : Estado :=
  MkEstado (objetos s) (tarefas s) (menor_tarefa s) (sobrecarga_total s) v
    (quantum s) (quantum_atual s) (fila s) (tarefa s) (finalizacoes s).

Definition set_quantum_atual (v : Q) (s : Estado) : Estado :=
  MkEstado (objetos s) (tarefas s) (menor_tarefa s) (sobrecarga_total s)
    (tempo_atual s) (quantum s) v (fila s) (tarefa s) (finalizacoes s).

Definition set_fila (l : list nat) (s : Estado) : Estado :=
  MkEstado (objetos s) (tarefas s) (menor_tarefa s) (sobrecarga_total s)
    (tempo_atual s) (quantum s) (quantum_atual s) l (tarefa s)
    (finalizacoes s).

Definition set_tarefa (a : option nat) (s : Estado) : Estado :=
  MkEstado (objetos s) (tarefas s) (menor_tarefa s) (sobrecarga_total s)
    (tempo_atual s) (quantum s) (quantum_atual s) (fila s) a (finalizacoes s).

(** A mutation of the task object at address [a]. *)
Definition gravar (a : nat) (t : TarefaCAV) (s : Estado) : Estado :=
  set_objetos (gravar_obj (objetos s) a t) s.

(** [tarefa.tempo_final = v] for the task at address [a]; the assignment
    is also entered in the history. *)
Definition atribuir_tempo_final (a : nat) (v : Q) (s : Estado) : Estado :=
  MkEstado (gravar_obj (objetos s) a (set_tempo_final (Some v) (objetos s a)))
    (tarefas s) (menor_tarefa s) (sobrecarga_total s) (tempo_atual s)
    (quantum s) (quantum_atual s) (fila s) (tarefa s)
    (finalizacoes s ++ [a]).

(** [EscalonadorCAV.__init__], over a heap of already constructed tasks.
    The subclasses with a quantum store it unchecked (and [EscalonadorUG]
    also as [quantum_atual]); the others are built with quantum 0, which
    they never read. *)
Definition EscalonadorCAV_init (h : Heap) : Estado :=
  {| objetos := h;
     tarefas := [];
     menor_tarefa := None;
     sobrecarga_total := 0;
     tempo_atual := 0;
     quantum := 0;
     quantum_atual := 0;
     fila := [];
     tarefa := None;
     finalizacoes := [] |}.

(** [__init__(self, quantum)] of the subclasses that take a quantum. *)
Definition Escalonador_init_quantum (h : Heap) (q : Q) : Estado :=
  {| objetos := h;
     tarefas := [];
     menor_tarefa := None;
     sobrecarga_total := 0;
     tempo_atual := 0;
     quantum := q;
     quantum_atual := q;
     fila := [];
     tarefa := None;
     finalizacoes := [] |}.

(** [EscalonadorCAV.adicionar_tarefa]: no check is made on the task. *)
Definition adicionar_tarefa (s : Estado) (a : nat) : Estado :=
  let s1 := set_tarefas (tarefas s ++ [a]) s in
  match menor_tarefa s1 with
  | None => set_menor_tarefa (Some a) s1
  | Some m =>
      if Qlt_bool (duracao (objetos s1 a)) (duracao (objetos s1 m))
      then set_menor_tarefa (Some a) s1
      else s1
  end.

(** [EscalonadorCAV.registrar_sobrecarga]. *)
Definition registrar_sobrecarga (tempo : Q) (s : Estado) : Estado :=
  set_sobrecarga_total (sobrecarga_total s + tempo) s.

(** ** Lists of references *)

(** [l.sort(key=chave)]: a stable ascending sort. *)
Fixpoint inserir (chave : nat -> Q) (x : nat) (l : list nat) : list nat :=
  match l with
  | [] => [x]
  | y :: r =>
      if Qle_bool (chave x) (chave y) then x :: y :: r
      else y :: inserir chave x r
  end.

Definition ordenar (chave : nat -> Q) (l : list nat) : list nat :=
  fold_right (inserir chave) [] l.

(** [l.sort(key=chave, reverse=True)]: descending, and still stable (equal
    keys keep their original order). *)
Fixpoint inserir_rev (chave : nat -> Q) (x : nat) (l : list nat) : list nat :=
  match l with
  | [] => [x]
  | y :: r =>
      if Qle_bool (chave y) (chave x) then x :: y :: r
      else y :: inserir_rev chave x r
  end.

Definition ordenar_rev (chave : nat -> Q) (l : list nat) : list nat :=
  fold_right (inserir_rev chave) [] l.

(** [fila.remove(a)]: the first occurrence. *)
Fixpoint remover (a : nat) (l : list nat) : list nat :=
  match l with
  | [] => []
  | b :: r => if Nat.eqb b a then r else b :: remover a r
  end.

(** [l[0]]. *)
Definition primeiro (l : list nat) : Resultado nat :=
  match l with
  | a :: _ => Ok a
  | [] => Erro IndexError
  end.

(** [l[len(l)-1]]. *)
Fixpoint ultimo (l : list nat) : Resultado nat :=
  match l with
  | [] => Erro IndexError
  | [a] => Ok a
  | _ :: r => ultimo r
  end.

(** [[tarefa for tarefa in fila if tarefa.tempo_chegada <= self.tempo_atual]]. *)
Definition tarefas_que_chegaram (s : Estado) : list nat :=
  filter (fun a => Qle_bool (tempo_chegada (objetos s a)) (tempo_atual s))
    (fila s).

(** The reinsertion of a preempted task: before the first queued task whose
    arrival is later than the clock, at the end when there is none (also
    when the queue is empty). *)
Fixpoint reinserir (h : Heap) (agora : Q) (a : nat) (l : list nat)
    : list nat :=
  match l with
  | [] => [a]
  | b :: r =>
      if Qlt_bool agora (tempo_chegada (h b)) then a :: b :: r
      else b :: reinserir h agora a r
  end.

(** ** The loop *)

Inductive Passo : Type :=
| Continua (s : Estado)
| Levanta (e : Excecao) (s : Estado).

Inductive Saida : Type :=
| Retorna (s : Estado)
| Aborta (e : Excecao) (s : Estado)
| Esgota (s : Estado).

(** [while fila: corpo], with at most [n] iterations. *)
Fixpoint laco (corpo : Estado -> Passo) (n : nat) (s : Estado) : Saida :=
  match fila s with
  | [] => Retorna s
  | _ :: _ =>
      match n with
      | O => Esgota s
      | S n' =>
          match corpo s with
          | Continua s' => laco corpo n' s'
          | Levanta e s' => Aborta e s'
          end
      end
  end.

(** The state a run stopped in, however it stopped. *)
Definition estado_de (r : Saida) : Estado :=
  match r with
  | Retorna s | Aborta _ s | Esgota s => s
  end.

(** The common prologue of every [escalonar]:
    [self.tarefas.sort(key=tempo_chegada)], [fila = deque(self.tarefas)]
    and, when there is a task, the clock set to the first arrival.
    [EscalonadorFIFO] has no [fila]; its body does not read the field. *)
Definition preparar (s : Estado) : Estado :=
  let ts := ordenar (fun a => tempo_chegada (objetos s a)) (tarefas s) in
  let s1 := set_fila ts (set_tarefas ts s) in
  match ts with
  | [] => s1
  | a :: _ => set_tempo_atual (tempo_chegada (objetos s a)) s1
  end.

(** ** Run-to-completion strategies *)

(** [tarefa = ...; fila.remove(tarefa)]. *)
Definition retirar (a : nat) (s : Estado) : Estado :=
  set_fila (remover a (fila s)) (set_tarefa (Some a) s).

(** The body shared, statement for statement, by [EscalonadorFIFO.escalonar]
    and [EscalonadorSJF.escalonar]: the task at [a] runs for its whole
    [duracao]; [tempo_restante] is not touched. *)
Definition executar_por_completo (s : Estado) (a : nat) : Estado :=
  let t0 := objetos s a in
  let inicio := max_py (tempo_atual s) (tempo_chegada t0) in
  let t1 := set_tempo_inicio_execucao_atual (Some inicio)
              (set_tempo_inicio (Some inicio) t0) in
  let agora := inicio + duracao t1 in
  let t2 := anexar_execucao (inicio, agora)
              (set_tempo_final_execucao_atual (Some agora) t1) in
  let s1 := atribuir_tempo_final a agora
              (gravar a t2 (set_tempo_atual agora s)) in
  let t3 := objetos s1 a in
  let espera := inicio - tempo_chegada t3 in
  gravar a (set_tempo_de_resposta (Some espera)
              (set_tempo_em_espera espera t3)) s1.

(** [EscalonadorFIFO.escalonar]: a [for] over the sorted [self.tarefas]. *)
Definition EscalonadorFIFO_escalonar (s : Estado) : Estado :=
  let s1 := preparar s in
  fold_left executar_por_completo (tarefas s1) s1.

(** One iteration of [EscalonadorSJF.escalonar].  When no queued task has
    arrived, the [if] is skipped: [tarefa] keeps the value of the previous
    iteration, nothing leaves the queue and the body runs again on that
    task. *)
Definition corpo_sjf (s : Estado) : Passo :=
  let chegaram :=
    ordenar (fun a => duracao (objetos s a)) (tarefas_que_chegaram s) in
  let s1 :=
    match chegaram with
    | a :: _ => retirar a s
    | [] => s
    end in
  match tarefa s1 with
  | None => Levanta UnboundLocalError s1
  | Some a => Continua (executar_por_completo s1 a)
  end.

Definition EscalonadorSJF_escalonar (n : nat) (s : Estado) : Saida :=
  laco corpo_sjf n (preparar s).

(** The body of [EscalonadorPrioridadeNP.escalonar] after
    [fila.remove(tarefa)]: the task at [a] starts at the clock and runs for
    its whole [duracao]; [tempo_restante] is not touched. *)
Definition executar_sem_preempcao (s : Estado) (a : nat) : Estado :=
  let t0 := objetos s a in
  let inicio := tempo_atual s in
  let t1 := set_tempo_inicio_execucao_atual (Some inicio)
              (set_tempo_inicio (Some inicio) t0) in
  let agora := tempo_atual s + duracao t1 in
  let s1 := atribuir_tempo_final a agora
              (gravar a t1 (set_tempo_atual agora s)) in
  let t2 := objetos s1 a in
  let resposta := inicio - tempo_chegada t2 in
  let t3 := set_tempo_final_execucao_atual (Some agora)
              (set_tempo_em_espera resposta
                 (set_tempo_de_resposta (Some resposta) t2)) in
  gravar a (anexar_execucao (inicio, agora) t3) s1.

(** One iteration of [EscalonadorPrioridadeNP.escalonar]. *)
Definition corpo_prioridade_np (s : Estado) : Passo :=
  let chegaram := tarefas_que_chegaram s in
  match chegaram with
  | [] => Continua (set_tempo_atual (tempo_atual s + 1) s)
  | _ :: _ =>
      match primeiro
              (ordenar_rev (fun a => inject_Z (prioridade (objetos s a)))
                 chegaram) with
      | Erro e => Levanta e s
      | Ok a => Continua (executar_sem_preempcao (retirar a s) a)
      end
  end.

Definition EscalonadorPrioridadeNP_escalonar (n : nat) (s : Estado) : Saida :=
  laco corpo_prioridade_np n (preparar s).

(** ** Quantum-bounded strategies

    [EscalonadorRoundRobin], [EscalonadorEDF], [EscalonadorPrioridadeP],
    [EscalonadorUG] and the five [EscalonadorFutureVision*] classes repeat
    one loop body.  They differ in how the task is picked among
    [tarefas_que_chegaram] ([escolher]) and, for [EscalonadorUG], in how
    [tempo_exec] is computed ([conceder], which also yields the new
    [quantum_atual] and whether the task was found urgent). *)

(** The first statements of a dispatch at clock [agora]:
    [tempo_inicio_execucao_atual = max(tempo_atual, tempo_chegada)] and
    [tempo_inicio] set to it unless already set. *)
Definition iniciar_execucao (agora : Q) (t : TarefaCAV) : TarefaCAV :=
  let t1 := set_tempo_inicio_execucao_atual
              (Some (max_py agora (tempo_chegada t))) t in
  set_tempo_inicio
    (match tempo_inicio t1 with
     | None => tempo_inicio_execucao_atual t1
     | Some x => Some x
     end) t1.

(** The bookkeeping of a burst of [tempo_exec] starting at [inicio]: the
    statements from [tempo_em_espera += ...] to [tempo_de_resposta = ...].
    ([tempo_inicio] was set by [iniciar_execucao] just before.) *)
Definition contabilizar_execucao (inicio tempo_exec : Q) (t : TarefaCAV)
    : TarefaCAV :=
  let anterior :=
    match tempo_final_execucao_atual t with
    | Some f => f
    | None => 0
    end in
  let t1 := set_tempo_em_espera (tempo_em_espera t + (inicio - anterior)) t in
  let agora := inicio + tempo_exec in
  let t2 := anexar_execucao (inicio, agora)
              (set_tempo_final_execucao_atual (Some agora) t1) in
  let t3 := set_tempo_restante (tempo_restante t2 - tempo_exec) t2 in
  set_tempo_de_resposta
    (option_map (fun ti => ti - tempo_chegada t3) (tempo_inicio t3)) t3.

(** The branch [if tarefa.tempo_restante > 0:] after a burst: the overhead
    is charged to the accumulator and to the clock, and the task goes back
    into the queue. *)
Definition preemptar (s : Estado) (a : nat) : Estado :=
  let s1 := set_tempo_atual (tempo_atual s + sobrecarga_preempcao)
              (registrar_sobrecarga sobrecarga_preempcao s) in
  set_fila (reinserir (objetos s1) (tempo_atual s1) a (fila s1)) s1.

(** The [else] branch: [tarefa.tempo_final = self.tempo_atual]; in
    [EscalonadorUG], an urgent task that finishes resets [quantum_atual]. *)
Definition finalizar (urgente : bool) (s : Estado) (a : nat) : Estado :=
  let s1 := atribuir_tempo_final a (tempo_atual s) s in
  if urgente then set_quantum_atual (quantum s1) s1 else s1.

(** The burst itself: the task at [a] runs for [tempo_exec] from
    [max(tempo_atual, tempo_chegada)], the clock moves to the end of the
    burst; [qa] is the value of [quantum_atual] decided with [tempo_exec]. *)
Definition executar_fatia (s : Estado) (a : nat) (tempo_exec qa : Q)
    : Estado :=
  let t0 := objetos s a in
  let inicio := max_py (tempo_atual s) (tempo_chegada t0) in
  let t1 := iniciar_execucao (tempo_atual s) t0 in
  gravar a (contabilizar_execucao inicio tempo_exec t1)
    (set_tempo_atual (inicio + tempo_exec) (set_quantum_atual qa s)).

Section LacoComQuantum.

Variable escolher : Heap -> Q -> list nat -> Resultado nat.
Variable conceder : Q -> Q -> TarefaCAV -> Resultado (Q * Q * bool).

(** What follows [fila.remove(tarefa)], for the task at [a]. *)
Definition despachar (s : Estado) (a : nat) : Passo :=
  let t0 := objetos s a in
  if Qlt_bool 0 (tempo_restante t0) then
    let t1 := iniciar_execucao (tempo_atual s) t0 in
    match conceder (quantum s) (quantum_atual s) t1 with
    | Erro e => Levanta e (gravar a t1 s)
    | Ok (tempo_exec, qa, urgente) =>
        let s1 := executar_fatia s a tempo_exec qa in
        if Qlt_bool 0 (tempo_restante (objetos s1 a))
        then Continua (preemptar s1 a)
        else Continua (finalizar urgente s1 a)
    end
  else Continua s.

(** One iteration of the [while fila:] loop. *)
Definition corpo_quantum (s : Estado) : Passo :=
  let chegaram := tarefas_que_chegaram s in
  match chegaram with
  | [] => Continua (set_tempo_atual (teto (tempo_atual s + 1)) s)
  | _ :: _ =>
      match escolher (objetos s) (tempo_atual s) chegaram with
      | Erro e => Levanta e s
      | Ok a => despachar (retirar a s) a
      end
  end.

Definition escalonar_quantum (n : nat) (s : Estado) : Saida :=
  laco corpo_quantum n (preparar s).

End LacoComQuantum.

(** [tempo_exec = min(tarefa.tempo_restante, self.quantum)]. *)
Definition conceder_fixo (q qa : Q) (t : TarefaCAV) : Resultado (Q * Q * bool) :=
  Ok (min_py (tempo_restante t) q, qa, false).

(** *** EscalonadorRoundRobin *)

Definition escolher_rr (h : Heap) (agora : Q) (chegaram : list nat)
    : Resultado nat :=
  primeiro chegaram.

Definition EscalonadorRoundRobin_escalonar : nat -> Estado -> Saida :=
  escalonar_quantum escolher_rr conceder_fixo.

(** *** EscalonadorEDF *)

(** [l.sort(key=lambda tarefa: tarefa.deadline)].  Sorting a list of two or
    more compares every key with another one, and a comparison in which one
    side is [None] raises [TypeError]; a shorter list is returned as it is,
    without any comparison. *)
Definition sem_deadline (h : Heap) (a : nat) : bool :=
  match deadline (h a) with
  | None => true
  | Some _ => false
  end.

Definition chave_deadline (h : Heap) (a : nat) : Q :=
  match deadline (h a) with
  | Some d => d
  | None => 0
  end.

Definition ordenar_por_deadline (h : Heap) (l : list nat)
    : Resultado (list nat) :=
  if (2 <=? length l)%nat && existsb (sem_deadline h) l then Erro TypeError
  else Ok (ordenar (chave_deadline h) l).

Definition escolher_edf (h : Heap) (agora : Q) (chegaram : list nat)
    : Resultado nat :=
  match ordenar_por_deadline h chegaram with
  | Erro e => Erro e
  | Ok l => primeiro l
  end.

Definition EscalonadorEDF_escalonar : nat -> Estado -> Saida :=
  escalonar_quantum escolher_edf conceder_fixo.

(** *** EscalonadorPrioridadeP *)

Definition chave_prioridade (h : Heap) (a : nat) : Q :=
  inject_Z (prioridade (h a)).

(** Ascending sort by [prioridade], then the last element. *)
Definition escolher_prioridade_p (h : Heap) (agora : Q) (chegaram : list nat)
    : Resultado nat :=
  ultimo (ordenar (chave_prioridade h) chegaram).

Definition EscalonadorPrioridadeP_escalonar : nat -> Estado -> Saida :=
  escalonar_quantum escolher_prioridade_p conceder_fixo.

(** *** EscalonadorUG *)

(** [EscalonadorUG.urgencia]; [deadline > tempo_resta] raises when the
    deadline is [None]. *)
Definition urgencia (prioridade : Z) (deadline : option Q)
    (tempo_resta urg_max : Q) : Resultado Q :=
  match deadline with
  | None => Erro TypeError
  | Some d =>
      if Qlt_bool tempo_resta d
      then Ok (inject_Z prioridade / (d - tempo_resta))
      else Ok (urg_max + 1)
  end.

Definition conceder_ug (urg_max : Q) (q qa : Q) (t : TarefaCAV)
    : Resultado (Q * Q * bool) :=
  match urgencia (prioridade t) (deadline t) (tempo_restante t) urg_max with
  | Erro e => Erro e
  | Ok u =>
      if Qlt_bool urg_max u
      then Ok (min_py (tempo_restante t) (qa + 1), qa + 1, true)
      else Ok (min_py (tempo_restante t) q, qa, false)
  end.

(** The default of [escalonar]'s parameter, [urg_max=1/2]. *)
Definition urg_max_padrao : Q := 1 # 2.

Definition EscalonadorUG_escalonar (urg_max : Q) : nat -> Estado -> Saida :=
  escalonar_quantum escolher_prioridade_p (conceder_ug urg_max).

(** *** The EscalonadorFutureVision family *)

Definition chegadas (h : Heap) (l : list nat) : list Q :=
  map (fun a => tempo_chegada (h a)) l.

(** [duracao_total / len(l)]. *)
Definition duracao_media (h : Heap) (l : list nat) : Q :=
  fold_left (fun acc a => acc + tempo_restante (h a)) l 0
  / inject_Z (Z.of_nat (length l)).

(** The middle arrival(s) of the list as it is ordered. *)
Definition mediana_chegada (h : Heap) (l : list nat) : Q :=
  let n := length l in
  if Nat.even n
  then (nth (n / 2 - 1) (chegadas h l) 0 + nth (n / 2) (chegadas h l) 0) / 2
  else nth (n / 2) (chegadas h l) 0.

(** [chegada_total / len(l)]. *)
Definition chegada_media (h : Heap) (l : list nat) : Q :=
  fold_left (fun acc a => acc + tempo_chegada (h a)) l 0
  / inject_Z (Z.of_nat (length l)).

(** [(min_chegada + max_chegada) // 2]. *)
Definition chegada_media_intervalo (h : Heap) (l : list nat) : Q :=
  let c0 := nth 0 (chegadas h l) 0 in
  let mn := fold_left min_py (chegadas h l) c0 in
  let mx := fold_left max_py (chegadas h l) c0 in
  div_piso_2 (mn + mx).

(** [EscalonadorFutureVision.limite]. *)
Definition limite_mediana (h : Heap) (l : list nat) : Q :=
  match l with
  | [] => 0
  | _ :: _ => duracao_media h l + mediana_chegada h l
  end.

(** [EscalonadorFutureVisionMedia.limite]. *)
Definition limite_media (h : Heap) (l : list nat) : Q :=
  match l with
  | [] => 0
  | _ :: _ => duracao_media h l + chegada_media h l
  end.

(** [EscalonadorFutureVisionMediaIntervalo.limite]. *)
Definition limite_media_intervalo (h : Heap) (l : list nat) : Q :=
  match l with
  | [] => 0
  | _ :: _ => duracao_media h l + chegada_media_intervalo h l
  end.

(** [EscalonadorFutureVisionMin.limite]. *)
Definition limite_min (h : Heap) (l : list nat) : Q :=
  match l with
  | [] => 0
  | _ :: _ =>
      duracao_media h l
      + min_py (min_py (chegada_media h l) (chegada_media_intervalo h l))
          (mediana_chegada h l)
  end.

(** [EscalonadorFutureVisionMax.limite]. *)
Definition limite_max (h : Heap) (l : list nat) : Q :=
  match l with
  | [] => 0
  | _ :: _ =>
      duracao_media h l
      + max_py (max_py (chegada_media h l) (chegada_media_intervalo h l))
          (mediana_chegada h l)
  end.

(** How long the task at [a] has been waiting at time [agora]. *)
Definition tempo_aguardando (h : Heap) (agora : Q) (a : nat) : Q :=
  match tempo_final_execucao_atual (h a) with
  | Some f => agora - f
  | None => agora - tempo_chegada (h a)
  end.

(** The selection of the family: the arrived tasks sorted by remaining
    time; the first of them that has waited longer than the limit, or else
    the first of the sorted list. *)
Definition escolher_fv (limite : Heap -> list nat -> Q) (h : Heap) (agora : Q)
    (chegaram : list nat) : Resultado nat :=
  let ordenadas := ordenar (fun a => tempo_restante (h a)) chegaram in
  match find (fun a => Qlt_bool (limite h ordenadas) (tempo_aguardando h agora a))
          ordenadas with
  | Some a => Ok a
  | None => primeiro ordenadas
  end.

Definition EscalonadorFutureVision_escalonar : nat -> Estado -> Saida :=
  escalonar_quantum (escolher_fv limite_mediana) conceder_fixo.

Definition EscalonadorFutureVisionMedia_escalonar : nat -> Estado -> Saida :=
  escalonar_quantum (escolher_fv limite_media) conceder_fixo.

Definition EscalonadorFutureVisionMediaIntervalo_escalonar
    : nat -> Estado -> Saida :=
  escalonar_quantum (escolher_fv limite_media_intervalo) conceder_fixo.

Definition EscalonadorFutureVisionMin_escalonar : nat -> Estado -> Saida :=
  escalonar_quantum (escolher_fv limite_min) conceder_fixo.

Definition EscalonadorFutureVisionMax_escalonar : nat -> Estado -> Saida :=
  escalonar_quantum (escolher_fv limite_max) conceder_fixo.

(** ** The strategies as one family *)

Inductive Algoritmo : Type :=
| FIFO
| SJF
| RoundRobin
| EDF
| PrioridadeNP
| PrioridadeP
| UG (urg_max : Q)
| FutureVision
| FutureVisionMedia
| FutureVisionMediaIntervalo
| FutureVisionMin
| FutureVisionMax.

(** The strategies whose constructor takes a quantum. *)
Definition tem_quantum (alg : Algoritmo) : bool :=
  match alg with
  | FIFO | SJF | PrioridadeNP => false
  | _ => true
  end.

(** The constructor call: [EscalonadorFIFO()], [EscalonadorRoundRobin(q)], ... *)
Definition construir (alg : Algoritmo) (h : Heap) (q : Q) : Estado :=
  if tem_quantum alg then Escalonador_init_quantum h q
  else EscalonadorCAV_init h.

(** [for t in tarefas: escalonador.adicionar_tarefa(t)]. *)
Definition adicionar_tarefas (s : Estado) (refs : list nat) : Estado :=
  fold_left adicionar_tarefa refs s.

(** [escalonador.escalonar()]. *)
Definition escalonar (alg : Algoritmo) (n : nat) (s : Estado) : Saida :=
  match alg with
  | FIFO => Retorna (EscalonadorFIFO_escalonar s)
  | SJF => EscalonadorSJF_escalonar n s
  | RoundRobin => EscalonadorRoundRobin_escalonar n s
  | EDF => EscalonadorEDF_escalonar n s
  | PrioridadeNP => EscalonadorPrioridadeNP_escalonar n s
  | PrioridadeP => EscalonadorPrioridadeP_escalonar n s
  | UG urg_max => EscalonadorUG_escalonar urg_max n s
  | FutureVision => EscalonadorFutureVision_escalonar n s
  | FutureVisionMedia => EscalonadorFutureVisionMedia_escalonar n s
  | FutureVisionMediaIntervalo =>
      EscalonadorFutureVisionMediaIntervalo_escalonar n s
  | FutureVisionMin => EscalonadorFutureVisionMin_escalonar n s
  | FutureVisionMax => EscalonadorFutureVisionMax_escalonar n s
  end.

(** A whole experiment: construct the scheduler over the heap, add the
    tasks in the given order, run. *)
Definition simular (alg : Algoritmo) (q : Q) (h : Heap) (refs : list nat)
    (n : nat) : Saida :=
  escalonar alg n (adicionar_tarefas (construir alg h q) refs).

(** A task object as its constructor leaves it. *)
Definition tarefa_nova (t : TarefaCAV) : Prop :=
  t = TarefaCAV_init (nome t) (duracao t) (tempo_chegada t)
        (possivelmente_catastrofico t) (prioridade t) (deadline t).

(** What the metrics and reports read after a run: how the run ended and,
    for each task of the scheduler, its finish time and its bursts, and
    the accumulated overhead. *)
Inductive Desfecho : Type :=
| Retornou
| Abortou (e : Excecao)
| Esgotou.

Definition desfecho (r : Saida) : Desfecho :=
  match r with
  | Retorna _ => Retornou
  | Aborta e _ => Abortou e
  | Esgota _ => Esgotou
  end.

Definition relatorio (r : Saida)
    : Desfecho * list (option Q * list (Q * Q)) * Q :=
  let s := estado_de r in
  (desfecho r,
   map (fun a => (tempo_final (objetos s a), tempos_execucao (objetos s a)))
     (tarefas s),
   sobrecarga_total s).

(** Equality of bursts and of optional times as rational numbers. *)
Definition mesma_execucao (b c : Q * Q) : Prop :=
  fst b == fst c /\ snd b == snd c.

Definition mesmas_execucoes (l m : list (Q * Q)) : Prop :=
  Forall2 mesma_execucao l m.

Definition mesmo_tempo (x y : option Q) : Prop :=
  match x, y with
  | Some a, Some b => a == b
  | None, None => True
  | _, _ => False
  end.

(** ** The metrics of EscalonadorCAV *)

(** Python's [sum(l)]: from 0, left to right. *)
Definition soma (l : list Q) : Q := fold_left Qplus l 0.

(** [sum(l) / len(l)] when [l] is not empty; [None], which both methods
    return otherwise. *)
Definition media (l : list Q) : option Q :=
  match l with
  | [] => None
  | _ :: _ => Some (soma l / inject_Z (Z.of_nat (length l)))
  end.

(** The list [tempos_de_turnaround] that [calcular_turnaround_medio]
    builds: one entry, in the order of [self.tarefas], for each task whose
    [tempo_final] is set. *)
Definition tempos_de_turnaround (s : Estado) : list Q :=
  fold_left
    (fun acc a =>
       match tempo_final (objetos s a) with
       | Some f => acc ++ [f - tempo_chegada (objetos s a)]
       | None => acc
       end)
    (tarefas s) [].

(** [EscalonadorCAV.calcular_turnaround_medio]. *)
Definition calcular_turnaround_medio (s : Estado) : option Q :=
  media (tempos_de_turnaround s).

(** The list [tempos_de_espera] of [calcular_tempo_em_espera_medio]. *)
Definition tempos_de_espera (s : Estado) : list Q :=
  fold_left
    (fun acc a =>
       match tempo_final (objetos s a) with
       | Some f =>
           acc ++ [f - tempo_chegada (objetos s a) - duracao (objetos s a)]
       | None => acc
       end)
    (tarefas s) [].

(** [EscalonadorCAV.calcular_tempo_em_espera_medio]. *)
Definition calcular_tempo_em_espera_medio (s : Estado) : option Q :=
  media (tempos_de_espera s).

(** ** class CAV *)

Module CAV.

Record CAV : Type := MkCAV {
  id : Z;
  tarefas : list nat
}.

(** [CAV.__init__]. *)
Definition init (id : Z) : CAV := MkCAV id [].

(** [CAV.adicionar_tarefa]. *)
Definition adicionar_tarefa (c : CAV) (a : nat) : CAV :=
  MkCAV (id c) (tarefas c ++ [a]).

(** [CAV.executar_tarefas]: [escalonador.escalonar()]; the task list of
    the CAV itself is not read. *)
Definition executar_tarefas (c : CAV) (alg : Algoritmo) (n : nat)
    (escalonador : Estado) : Saida :=
  escalonar alg n escalonador.

End CAV.

(** ** criar_tarefas

    The values drawn from [random] are inputs of the model: the number of
    tasks ([random.randint(1, 500)]) and, for the task of each index, the
    five values drawn for it. *)

Record Sorteio : Type := MkSorteio {
  sorteio_duracao : Q;         (* [random.normalvariate(5, 10)] *)
  sorteio_prioridade : Z;      (* [random.randint(1, 50)] *)
  sorteio_chegada : Z;         (* [random.randint(0, quantidade // 10)] *)
  sorteio_catastrofico : bool; (* [random.choice([True, False])] *)
  sorteio_deadline : Z         (* [random.randint(0, 1000)] *)
}.

(** The name [f"Tarefa {i}"]. *)
Definition nome_da_tarefa (i : nat) : string :=
  ("Tarefa " ++ NilZero.string_of_uint (Nat.to_uint i))%string.

Definition criar_tarefas (quantidade : nat) (sorteios : nat -> Sorteio)
    : list TarefaCAV :=
  map
    (fun i =>
       let d := sorteios i in
       TarefaCAV_init (nome_da_tarefa i)
         (max_py (sorteio_duracao d) 1)
         (inject_Z (sorteio_chegada d))
         (sorteio_catastrofico d)
         (sorteio_prioridade d)
         (Some (inject_Z (sorteio_deadline d))))
    (seq 0 quantidade).

(** The objects of a list of tasks, allocated at the addresses
    [0 .. len - 1], and the references to them in the order of the list. *)
Definition heap_de (l : list TarefaCAV) : Heap :=
  fun a => nth a l (TarefaCAV_init "" 0 0 false 1 None).

Definition referencias (l : list TarefaCAV) : list nat := seq 0 (length l).

(** ** main

    One experiment of [main]: a scheduler is constructed, the tasks are
    added in order, a [CAV] runs it, and the two averages are read. *)
Definition experimento (alg : Algoritmo) (q : Q) (l : list TarefaCAV)
    (n : nat) : Saida :=
  let escalonador :=
    adicionar_tarefas (construir alg (heap_de l) q) (referencias l) in
  CAV.executar_tarefas (CAV.init 1) alg n escalonador.

(** [avg[1] < menor_avg[1]]: a comparison in which a side is [None]
    raises. *)
Definition menor_que (x y : option Q) : Resultado bool :=
  match x, y with
  | Some a, Some b => Ok (Qlt_bool a b)
  | _, _ => Erro TypeError
  end.

(** The selection that ends [main]: [menor_avg = avgs_turnarounds[1]],
    then every entry of [avgs_turnarounds[2:]] replaces it when its average
    is smaller. *)
Definition menor_avg (avgs_turnarounds : list (string * option Q))
    : Resultado (string * option Q) :=
  match avgs_turnarounds with
  | _ :: segundo :: demais =>
      fold_left
        (fun acc avg =>
           match acc with
           | Erro e => Erro e
           | Ok m =>
               match menor_que (snd avg) (snd m) with
               | Erro e => Erro e
               | Ok true => Ok avg
               | Ok false => Ok m
               end
           end)
        demais (Ok segundo)
  | _ => Erro IndexError
  end.

(** ** Scenarios *)

(** A heap with one task, and a heap with two (the second at every address
    but 0). *)
Definition heap_1 (x : TarefaCAV) : Heap := fun _ => x.

Definition heap_2 (x y : TarefaCAV) : Heap :=
  fun a => match a with O => x | _ => y end.

(** Round-Robin, quantum 2: A(duration 5, arrival 0), B(duration 3,
    arrival 0). *)
Definition cenario_rr : Heap :=
  heap_2 (TarefaCAV_init "A" 5 0 false 1 None)
         (TarefaCAV_init "B" 3 0 false 1 None).

(** SJF with an idle gap: A(duration 2, arrival 0), B(duration 1,
    arrival 5). *)
Definition cenario_sjf : Heap :=
  heap_2 (TarefaCAV_init "A" 2 0 false 1 None)
         (TarefaCAV_init "B" 1 5 false 1 None).

(** Two tasks that arrive together: A with priority 1, B with priority 2. *)
Definition cenario_prioridade : Heap :=
  heap_2 (TarefaCAV_init "A" 1 0 false 1 None)
         (TarefaCAV_init "B" 1 0 false 2 None).

(** One task that arrives at time 5 and needs 1 time unit. *)
Definition cenario_chegada_tardia : Heap :=
  heap_1 (TarefaCAV_init "A" 1 5 false 1 None).

(** One task of duration 1, one of duration 0, one of duration -1; none
    has a deadline. *)
Definition cenario_unitario : Heap :=
  heap_1 (TarefaCAV_init "A" 1 0 false 1 None).

Definition cenario_duracao_zero : Heap :=
  heap_1 (TarefaCAV_init "A" 0 0 false 1 None).

Definition cenario_duracao_negativa : Heap :=
  heap_1 (TarefaCAV_init "A" (-1) 0 false 1 None).

(** Two tasks with deadlines 10 and 4. *)
Definition cenario_deadlines : Heap :=
  heap_2 (TarefaCAV_init "A" 3 0 false 1 (Some 10))
         (TarefaCAV_init "B" 2 0 false 2 (Some 4)).

(** Two tasks that [EscalonadorUG] with [urg_max = 1/2] never finds
    urgent. *)
Definition cenario_sem_urgencia : Heap :=
  heap_2 (TarefaCAV_init "A" 3 0 false 1 (Some 10))
         (TarefaCAV_init "B" 2 0 false 1 (Some 10)).

(** The draws of an example: every task with a drawn duration of 5,
    priority 1, arrival 0 and deadline 10. *)
Definition sorteios_exemplo : nat -> Sorteio :=
  fun _ => MkSorteio 5 1 0 false 10.

(** ** The properties the claims speak of *)

(** Every task of [refs] has its finish time. *)
Definition todas_finalizadas (s : Estado) (refs : list nat) : Prop :=
  forall a, In a refs -> tempo_final (objetos s a) <> None.

(** Every task whose finish time was assigned has nothing left to run. *)
Definition finalizadas_sem_restante (s : Estado) : Prop :=
  forall a, In a (finalizacoes s) -> tempo_restante (objetos s a) == 0.

(** The number of assignments of [tempo_final] to the task at [a]. *)
Definition atribuicoes_de_final (s : Estado) (a : nat) : nat :=
  count_occ Nat.eq_dec (finalizacoes s) a.

(** The task at [a] received exactly one more burst, [b], between [s] and
    [s']. *)
Definition executou (s s' : Estado) (a : nat) (b : Q * Q) : Prop :=
  tempos_execucao (objetos s' a) = tempos_execucao (objetos s a) ++ [b].

(** * Properties *)

(** ** Arithmetic of the Python operators *)

Arguments min_py : simpl never.
Arguments max_py : simpl never.
Arguments gravar_obj : simpl never.
Arguments teto : simpl never.

Lemma Qlt_bool_true (a b : Q) : Qlt_bool a b = true <-> a < b.
Proof.
  unfold Qlt_bool. rewrite negb_true_iff.
  split; intro H.
  - apply Qnot_le_lt. intro Hle. apply Qle_bool_iff in Hle. congruence.
  - destruct (Qle_bool b a) eqn:E; [|reflexivity].
    apply Qle_bool_iff in E. lra.
Qed.

Lemma Qlt_bool_false (a b : Q) : Qlt_bool a b = false <-> b <= a.
Proof.
  unfold Qlt_bool. rewrite negb_false_iff. apply Qle_bool_iff.
Qed.

Lemma Qle_bool_false (a b : Q) : Qle_bool a b = false <-> b < a.
Proof.
  split; intro H.
  - apply Qnot_le_lt. intro Hle. apply Qle_bool_iff in Hle. congruence.
  - destruct (Qle_bool a b) eqn:E; [|reflexivity].
    apply Qle_bool_iff in E. lra.
Qed.

Lemma min_py_le_l (a b : Q) : min_py a b <= a.
Proof.
  unfold min_py. destruct (Qlt_bool b a) eqn:E.
  - apply Qlt_bool_true in E. lra.
  - lra.
Qed.

Lemma min_py_le_r (a b : Q) : min_py a b <= b.
Proof.
  unfold min_py. destruct (Qlt_bool b a) eqn:E.
  - lra.
  - apply Qlt_bool_false in E. lra.
Qed.

Lemma min_py_glb (a b c : Q) : c <= a -> c <= b -> c <= min_py a b.
Proof. unfold min_py. destruct (Qlt_bool b a); auto. Qed.

Lemma min_py_cases (a b : Q) :
  (a <= b /\ min_py a b = a) \/ (b < a /\ min_py a b = b).
Proof.
  unfold min_py. destruct (Qlt_bool b a) eqn:E.
  - right. apply Qlt_bool_true in E. auto.
  - left. apply Qlt_bool_false in E. auto.
Qed.

Lemma max_py_ge_l (a b : Q) : a <= max_py a b.
Proof.
  unfold max_py. destruct (Qlt_bool a b) eqn:E.
  - apply Qlt_bool_true in E. lra.
  - lra.
Qed.

Lemma max_py_ge_r (a b : Q) : b <= max_py a b.
Proof.
  unfold max_py. destruct (Qlt_bool a b) eqn:E.
  - lra.
  - apply Qlt_bool_false in E. lra.
Qed.

Lemma teto_ge (x : Q) : x <= teto x.
Proof. unfold teto. apply Qle_ceiling. Qed.

(** ** The heap *)

Lemma gravar_obj_eq (h : Heap) (a : nat) (t : TarefaCAV) :
  gravar_obj h a t a = t.
Proof. unfold gravar_obj. now rewrite Nat.eqb_refl. Qed.

Lemma gravar_obj_neq (h : Heap) (a b : nat) (t : TarefaCAV) :
  b <> a -> gravar_obj h a t b = h b.
Proof.
  intro H. unfold gravar_obj.
  destruct (Nat.eqb b a) eqn:E; [apply Nat.eqb_eq in E; contradiction|easy].
Qed.

(** ** Lists of references *)

Lemma inserir_In chave x l a : In a (inserir chave x l) <-> a = x \/ In a l.
Proof.
  induction l as [|y r IH]; simpl.
  - intuition.
  - destruct (Qle_bool (chave x) (chave y)); simpl; [intuition|].
    rewrite IH. intuition.
Qed.

Lemma ordenar_In chave l a : In a (ordenar chave l) <-> In a l.
Proof.
  induction l as [|x r IH]; simpl; [tauto|].
  rewrite inserir_In, IH. intuition.
Qed.

Lemma inserir_NoDup chave x l :
  ~ In x l -> NoDup l -> NoDup (inserir chave x l).
Proof.
  induction l as [|y r IH]; simpl; intros Hx Hl.
  - constructor; [easy|constructor].
  - destruct (Qle_bool (chave x) (chave y)).
    + constructor; simpl; assumption.
    + inversion Hl; subst. constructor.
      * rewrite inserir_In. intuition.
      * apply IH; intuition.
Qed.

Lemma ordenar_NoDup chave l : NoDup l -> NoDup (ordenar chave l).
Proof.
  induction 1 as [|x r Hx Hr IH]; simpl; [constructor|].
  apply inserir_NoDup; [|assumption]. now rewrite ordenar_In.
Qed.

Lemma inserir_length chave x l : length (inserir chave x l) = S (length l).
Proof.
  induction l as [|y r IH]; simpl; [reflexivity|].
  destruct (Qle_bool (chave x) (chave y)); simpl; congruence.
Qed.

Lemma ordenar_length chave l : length (ordenar chave l) = length l.
Proof.
  induction l as [|x r IH]; simpl; [reflexivity|].
  now rewrite inserir_length, IH.
Qed.

Lemma inserir_rev_In chave x l a :
  In a (inserir_rev chave x l) <-> a = x \/ In a l.
Proof.
  induction l as [|y r IH]; simpl.
  - intuition.
  - destruct (Qle_bool (chave y) (chave x)); simpl; [intuition|].
    rewrite IH. intuition.
Qed.

Lemma ordenar_rev_In chave l a : In a (ordenar_rev chave l) <-> In a l.
Proof.
  induction l as [|x r IH]; simpl; [tauto|].
  rewrite inserir_rev_In, IH. intuition.
Qed.

Lemma primeiro_In l a : primeiro l = Ok a -> In a l.
Proof. destruct l; simpl; [discriminate|]. intros [= ->]. now left. Qed.

Lemma primeiro_ok l : l <> [] -> exists a, primeiro l = Ok a.
Proof. destruct l; [congruence|]. intros _. now eexists. Qed.

Lemma ultimo_In l a : ultimo l = Ok a -> In a l.
Proof.
  induction l as [|x r IH]; simpl; [discriminate|].
  destruct r as [|y r']; [intros [= ->]; now left|].
  intro H. right. apply IH, H.
Qed.

Lemma ultimo_ok l : l <> [] -> exists a, ultimo l = Ok a.
Proof.
  induction l as [|x r IH]; [congruence|]. intros _.
  destruct r as [|y r']; [now eexists|].
  apply IH. discriminate.
Qed.

Lemma ordenar_nao_vazia chave l : l <> [] -> ordenar chave l <> [].
Proof.
  intros H E. apply (f_equal (@length nat)) in E.
  rewrite ordenar_length in E. destruct l; [congruence|discriminate].
Qed.

Lemma remover_In a l b : In b (remover a l) -> In b l.
Proof.
  induction l as [|x r IH]; simpl; [easy|].
  destruct (Nat.eqb x a); simpl; intuition.
Qed.

Lemma remover_In_neq a l b : b <> a -> In b l -> In b (remover a l).
Proof.
  intro Hne. induction l as [|x r IH]; simpl; [easy|].
  destruct (Nat.eqb x a) eqn:E; simpl.
  - apply Nat.eqb_eq in E. subst. intros [H|H]; [congruence|assumption].
  - intros [H|H]; [now left|right; auto].
Qed.

Lemma remover_NoDup a l : NoDup l -> NoDup (remover a l).
Proof.
  induction 1 as [|x r Hx Hr IH]; simpl; [constructor|].
  destruct (Nat.eqb x a); [assumption|].
  constructor; [|assumption]. intro H. apply Hx. eapply remover_In, H.
Qed.

Lemma remover_nao_In a l : NoDup l -> ~ In a (remover a l).
Proof.
  induction 1 as [|x r Hx Hr IH]; simpl; [easy|].
  destruct (Nat.eqb x a) eqn:E.
  - apply Nat.eqb_eq in E. now subst.
  - apply Nat.eqb_neq in E. simpl. intuition.
Qed.

Lemma remover_length a l : In a l -> S (length (remover a l)) = length l.
Proof.
  induction l as [|x r IH]; simpl; [easy|].
  destruct (Nat.eqb x a) eqn:E; [reflexivity|].
  apply Nat.eqb_neq in E. intros [H|H]; [contradiction|].
  simpl. now rewrite IH.
Qed.

Lemma reinserir_In h agora a l b :
  In b (reinserir h agora a l) <-> b = a \/ In b l.
Proof.
  induction l as [|x r IH]; simpl.
  - intuition.
  - destruct (Qlt_bool agora (tempo_chegada (h x))); simpl; [intuition|].
    rewrite IH. intuition.
Qed.

Lemma reinserir_NoDup h agora a l :
  ~ In a l -> NoDup l -> NoDup (reinserir h agora a l).
Proof.
  induction l as [|x r IH]; simpl; intros Ha Hl.
  - constructor; [easy|constructor].
  - destruct (Qlt_bool agora (tempo_chegada (h x))).
    + constructor; simpl; assumption.
    + inversion Hl; subst. constructor.
      * rewrite reinserir_In. intuition.
      * apply IH; intuition.
Qed.

Lemma chegaram_In s a :
  In a (tarefas_que_chegaram s) <->
  In a (fila s) /\ tempo_chegada (objetos s a) <= tempo_atual s.
Proof.
  unfold tarefas_que_chegaram. rewrite filter_In, Qle_bool_iff. tauto.
Qed.

(** ** Projections of the task updates *)

Lemma iniciar_execucao_restante agora t :
  tempo_restante (iniciar_execucao agora t) = tempo_restante t.
Proof. reflexivity. Qed.

Lemma iniciar_execucao_duracao agora t :
  duracao (iniciar_execucao agora t) = duracao t.
Proof. reflexivity. Qed.

Lemma iniciar_execucao_chegada agora t :
  tempo_chegada (iniciar_execucao agora t) = tempo_chegada t.
Proof. reflexivity. Qed.

Lemma iniciar_execucao_deadline agora t :
  deadline (iniciar_execucao agora t) = deadline t.
Proof. reflexivity. Qed.

Lemma iniciar_execucao_prioridade agora t :
  prioridade (iniciar_execucao agora t) = prioridade t.
Proof. reflexivity. Qed.

Lemma iniciar_execucao_final agora t :
  tempo_final (iniciar_execucao agora t) = tempo_final t.
Proof. reflexivity. Qed.

Lemma iniciar_execucao_execucoes agora t :
  tempos_execucao (iniciar_execucao agora t) = tempos_execucao t.
Proof. reflexivity. Qed.

Lemma iniciar_execucao_espera agora t :
  tempo_em_espera (iniciar_execucao agora t) = tempo_em_espera t.
Proof. reflexivity. Qed.

Lemma iniciar_execucao_final_atual agora t :
  tempo_final_execucao_atual (iniciar_execucao agora t)
  = tempo_final_execucao_atual t.
Proof. reflexivity. Qed.

Lemma contabilizar_execucao_restante inicio x t :
  tempo_restante (contabilizar_execucao inicio x t) = tempo_restante t - x.
Proof. reflexivity. Qed.

Lemma contabilizar_execucao_duracao inicio x t :
  duracao (contabilizar_execucao inicio x t) = duracao t.
Proof. reflexivity. Qed.

Lemma contabilizar_execucao_chegada inicio x t :
  tempo_chegada (contabilizar_execucao inicio x t) = tempo_chegada t.
Proof. reflexivity. Qed.

Lemma contabilizar_execucao_deadline inicio x t :
  deadline (contabilizar_execucao inicio x t) = deadline t.
Proof. reflexivity. Qed.

Lemma contabilizar_execucao_prioridade inicio x t :
  prioridade (contabilizar_execucao inicio x t) = prioridade t.
Proof. reflexivity. Qed.

Lemma contabilizar_execucao_final inicio x t :
  tempo_final (contabilizar_execucao inicio x t) = tempo_final t.
Proof. reflexivity. Qed.

Lemma contabilizar_execucao_execucoes inicio x t :
  tempos_execucao (contabilizar_execucao inicio x t)
  = tempos_execucao t ++ [(inicio, inicio + x)].
Proof. reflexivity. Qed.

Lemma contabilizar_execucao_espera inicio x t :
  tempo_em_espera (contabilizar_execucao inicio x t)
  = tempo_em_espera t
    + (inicio - match tempo_final_execucao_atual t with
                | Some f => f
                | None => 0
                end).
Proof. reflexivity. Qed.

Lemma contabilizar_execucao_final_atual inicio x t :
  tempo_final_execucao_atual (contabilizar_execucao inicio x t)
  = Some (inicio + x).
Proof. reflexivity. Qed.

Create Rewrite HintDb tarefa.

#[local] Hint Rewrite
  iniciar_execucao_restante iniciar_execucao_duracao iniciar_execucao_chegada
  iniciar_execucao_deadline iniciar_execucao_prioridade iniciar_execucao_final
  iniciar_execucao_execucoes iniciar_execucao_espera
  iniciar_execucao_final_atual
  contabilizar_execucao_restante contabilizar_execucao_duracao
  contabilizar_execucao_chegada contabilizar_execucao_deadline
  contabilizar_execucao_prioridade contabilizar_execucao_final
  contabilizar_execucao_execucoes contabilizar_execucao_espera
  contabilizar_execucao_final_atual
  gravar_obj_eq : tarefa.

Arguments iniciar_execucao : simpl never.
Arguments contabilizar_execucao : simpl never.

Lemma finalizar_fila u s a : fila (finalizar u s a) = fila s.
Proof. destruct u; reflexivity. Qed.

Lemma finalizar_tarefas u s a : tarefas (finalizar u s a) = tarefas s.
Proof. destruct u; reflexivity. Qed.

Lemma finalizar_finalizacoes u s a :
  finalizacoes (finalizar u s a) = finalizacoes s ++ [a].
Proof. destruct u; reflexivity. Qed.

Lemma finalizar_objetos u s a :
  objetos (finalizar u s a)
  = gravar_obj (objetos s) a (set_tempo_final (Some (tempo_atual s)) (objetos s a)).
Proof. destruct u; reflexivity. Qed.

Lemma finalizar_tempo_atual u s a : tempo_atual (finalizar u s a) = tempo_atual s.
Proof. destruct u; reflexivity. Qed.

Lemma finalizar_sobrecarga u s a :
  sobrecarga_total (finalizar u s a) = sobrecarga_total s.
Proof. destruct u; reflexivity. Qed.

Lemma finalizar_quantum u s a : quantum (finalizar u s a) = quantum s.
Proof. destruct u; reflexivity. Qed.

Lemma finalizar_quantum_atual u s a :
  quantum_atual (finalizar u s a)
  = if u then quantum s else quantum_atual s.
Proof. destruct u; reflexivity. Qed.

#[local] Hint Rewrite
  finalizar_fila finalizar_tarefas finalizar_finalizacoes finalizar_objetos
  finalizar_tempo_atual finalizar_sobrecarga finalizar_quantum
  finalizar_quantum_atual : tarefa.

Arguments finalizar : simpl never.

Lemma executar_fatia_objetos s a x qa :
  objetos (executar_fatia s a x qa)
  = gravar_obj (objetos s) a
      (contabilizar_execucao
         (max_py (tempo_atual s) (tempo_chegada (objetos s a))) x
         (iniciar_execucao (tempo_atual s) (objetos s a))).
Proof. reflexivity. Qed.

Lemma executar_fatia_fila s a x qa : fila (executar_fatia s a x qa) = fila s.
Proof. reflexivity. Qed.

Lemma executar_fatia_tarefas s a x qa :
  tarefas (executar_fatia s a x qa) = tarefas s.
Proof. reflexivity. Qed.

Lemma executar_fatia_finalizacoes s a x qa :
  finalizacoes (executar_fatia s a x qa) = finalizacoes s.
Proof. reflexivity. Qed.

Lemma executar_fatia_tempo_atual s a x qa :
  tempo_atual (executar_fatia s a x qa)
  = max_py (tempo_atual s) (tempo_chegada (objetos s a)) + x.
Proof. reflexivity. Qed.

Lemma executar_fatia_sobrecarga s a x qa :
  sobrecarga_total (executar_fatia s a x qa) = sobrecarga_total s.
Proof. reflexivity. Qed.

Lemma executar_fatia_quantum s a x qa :
  quantum (executar_fatia s a x qa) = quantum s.
Proof. reflexivity. Qed.

Lemma executar_fatia_quantum_atual s a x qa :
  quantum_atual (executar_fatia s a x qa) = qa.
Proof. reflexivity. Qed.

Lemma executar_fatia_restante s a x qa :
  tempo_restante (objetos (executar_fatia s a x qa) a)
  = tempo_restante (objetos s a) - x.
Proof. rewrite executar_fatia_objetos, gravar_obj_eq. reflexivity. Qed.

Lemma executar_fatia_outros s a x qa b :
  b <> a -> objetos (executar_fatia s a x qa) b = objetos s b.
Proof. intro H. rewrite executar_fatia_objetos. now apply gravar_obj_neq. Qed.

#[local] Hint Rewrite
  executar_fatia_fila executar_fatia_tarefas executar_fatia_finalizacoes
  executar_fatia_tempo_atual executar_fatia_sobrecarga executar_fatia_quantum
  executar_fatia_quantum_atual executar_fatia_restante : tarefa.

Arguments executar_fatia : simpl never.

Lemma preemptar_objetos s a : objetos (preemptar s a) = objetos s.
Proof. reflexivity. Qed.

Lemma preemptar_fila s a :
  fila (preemptar s a)
  = reinserir (objetos s) (tempo_atual s + sobrecarga_preempcao) a (fila s).
Proof. reflexivity. Qed.

Lemma preemptar_tarefas s a : tarefas (preemptar s a) = tarefas s.
Proof. reflexivity. Qed.

Lemma preemptar_finalizacoes s a :
  finalizacoes (preemptar s a) = finalizacoes s.
Proof. reflexivity. Qed.

Lemma preemptar_tempo_atual s a :
  tempo_atual (preemptar s a) = tempo_atual s + sobrecarga_preempcao.
Proof. reflexivity. Qed.

Lemma preemptar_sobrecarga s a :
  sobrecarga_total (preemptar s a) = sobrecarga_total s + sobrecarga_preempcao.
Proof. reflexivity. Qed.

Lemma preemptar_quantum s a : quantum (preemptar s a) = quantum s.
Proof. reflexivity. Qed.

Lemma preemptar_quantum_atual s a :
  quantum_atual (preemptar s a) = quantum_atual s.
Proof. reflexivity. Qed.

#[local] Hint Rewrite
  preemptar_objetos preemptar_fila preemptar_tarefas preemptar_finalizacoes
  preemptar_tempo_atual preemptar_sobrecarga preemptar_quantum
  preemptar_quantum_atual : tarefa.

Arguments preemptar : simpl never.

(** ** Loops and invariants *)

Definition estado_do_passo (p : Passo) : Estado :=
  match p with
  | Continua s | Levanta _ s => s
  end.

(** A property kept by every iteration, raising or not, holds in the state
    in which the run stops. *)
Lemma laco_preserva (corpo : Estado -> Passo) (P : Estado -> Prop) :
  (forall s, P s -> P (estado_do_passo (corpo s))) ->
  forall n s, P s -> P (estado_de (laco corpo n s)).
Proof.
  intros Hp n. induction n as [|n IH]; intros s Hs; simpl.
  - destruct (fila s); exact Hs.
  - destruct (fila s); [exact Hs|].
    specialize (Hp s Hs). destruct (corpo s) as [s'|e s']; simpl in *.
    + apply IH, Hp.
    + exact Hp.
Qed.

(** A property kept by the iterations that do not raise holds when the run
    returns. *)
Lemma laco_preserva_retorno (corpo : Estado -> Passo) (P : Estado -> Prop) :
  (forall s s', P s -> corpo s = Continua s' -> P s') ->
  forall n s s', P s -> laco corpo n s = Retorna s' -> P s'.
Proof.
  intros Hp n. induction n as [|n IH]; intros s s' Hs; simpl.
  - destruct (fila s); [intros [= <-]; exact Hs|discriminate].
  - destruct (fila s); [intros [= <-]; exact Hs|].
    destruct (corpo s) as [s1|e s1] eqn:E; [|discriminate].
    apply IH. eapply Hp; eauto.
Qed.

Lemma laco_retorna_fila_vazia corpo n s s' :
  laco corpo n s = Retorna s' -> fila s' = [].
Proof.
  revert s. induction n as [|n IH]; intros s; simpl.
  - destruct (fila s) eqn:E; [intros [= <-]; exact E|discriminate].
  - destruct (fila s) eqn:E; [intros [= <-]; exact E|].
    destruct (corpo s); [apply IH|discriminate].
Qed.

(** A measure that every iteration from a state with a non-empty queue
    strictly decreases, without raising, bounds the iterations: with that
    much fuel the loop returns. *)
Lemma laco_retorna (corpo : Estado -> Passo) (P : Estado -> Prop)
    (medida : Estado -> nat) :
  (forall s, P s -> fila s <> [] ->
     exists s', corpo s = Continua s' /\ P s' /\ (medida s' < medida s)%nat) ->
  forall n s, P s -> (medida s <= n)%nat ->
  exists s', laco corpo n s = Retorna s' /\ P s'.
Proof.
  intros Hp n. induction n as [|n IH]; intros s Hs Hm; simpl.
  - destruct (fila s) eqn:E; [eauto|].
    destruct (Hp s Hs) as (s' & _ & _ & Hlt); [congruence|lia].
  - destruct (fila s) eqn:E; [eauto|].
    destruct (Hp s Hs) as (s' & Hc & Hs' & Hlt); [congruence|].
    rewrite Hc. apply IH; [assumption|lia].
Qed.

(** More fuel does not change a run that returned. *)
Lemma laco_mais_combustivel corpo n m s s' :
  laco corpo n s = Retorna s' -> (n <= m)%nat -> laco corpo m s = Retorna s'.
Proof.
  revert m s. induction n as [|n IH]; intros m s; simpl.
  - destruct (fila s) eqn:E; [|discriminate].
    intros H _. destruct m; simpl; now rewrite E.
  - destruct (fila s) eqn:E.
    + intros H _. destruct m; simpl; now rewrite E.
    + destruct (corpo s) as [s1|e s1] eqn:Ec; [|discriminate].
      intros H Hle. destruct m; [lia|]. simpl. rewrite E, Ec.
      apply IH; [assumption|lia].
Qed.

(** ** Ceilings and the cost of a queue *)

Lemma inject_Z_pred (z : Z) : inject_Z (z - 1) == inject_Z z - 1.
Proof. unfold Z.sub. rewrite inject_Z_plus. reflexivity. Qed.

Lemma Qceiling_desce (x y : Q) :
  y <= x - 1 -> (Qceiling y + 1 <= Qceiling x)%Z.
Proof.
  intro H.
  pose proof (Qceiling_lt y) as Hy. pose proof (Qle_ceiling x) as Hx.
  assert (Hlt : inject_Z (Qceiling y - 1) < inject_Z (Qceiling x - 1)).
  { rewrite (inject_Z_pred (Qceiling x)). lra. }
  rewrite <- Zlt_Qlt in Hlt. lia.
Qed.

Lemma Qceiling_positivo (x : Q) : 0 < x -> (1 <= Qceiling x)%Z.
Proof.
  intro H. pose proof (Qle_ceiling x) as Hx.
  assert (Hlt : inject_Z 0 < inject_Z (Qceiling x)) by (change (inject_Z 0) with 0; lra).
  rewrite <- Zlt_Qlt in Hlt. lia.
Qed.

(** The number of dispatches that a task with [r] left still needs when
    every preempted burst is at least [q] long: one at least. *)
Definition custo (q r : Q) : nat := Z.to_nat (Z.max 1 (Qceiling (r / q))).

Lemma custo_pos q r : (1 <= custo q r)%nat.
Proof. unfold custo. lia. Qed.

Lemma custo_desce q r r' :
  0 < q -> 0 < r' -> r' <= r - q -> (custo q r' < custo q r)%nat.
Proof.
  intros Hq Hr' Hle. unfold custo.
  assert (H1 : (1 <= Qceiling (r' / q))%Z).
  { apply Qceiling_positivo. apply Qlt_shift_div_l; lra. }
  assert (H2 : (Qceiling (r' / q) + 1 <= Qceiling (r / q))%Z).
  { apply Qceiling_desce.
    apply Qle_shift_div_r; [assumption|].
    assert (E : (r / q - 1) * q == r - q) by (field; lra).
    rewrite E. assumption. }
  lia.
Qed.

Definition custo_fila (q : Q) (h : Heap) (l : list nat) : nat :=
  list_sum (map (fun a => custo q (tempo_restante (h a))) l).

Lemma custo_fila_remover q h a l :
  In a l ->
  (custo_fila q h (remover a l) + custo q (tempo_restante (h a)))%nat
  = custo_fila q h l.
Proof.
  unfold custo_fila. induction l as [|x r IH]; simpl; [easy|].
  destruct (Nat.eqb x a) eqn:E.
  - apply Nat.eqb_eq in E. subst. lia.
  - apply Nat.eqb_neq in E. intros [H|H]; [contradiction|].
    simpl. specialize (IH H). lia.
Qed.

Lemma custo_fila_reinserir q h h' agora a l :
  custo_fila q h (reinserir h' agora a l)
  = (custo q (tempo_restante (h a)) + custo_fila q h l)%nat.
Proof.
  unfold custo_fila. induction l as [|x r IH]; simpl; [reflexivity|].
  destruct (Qlt_bool agora (tempo_chegada (h' x))); simpl; [reflexivity|].
  rewrite IH. lia.
Qed.

Lemma custo_fila_ext q h h' l :
  (forall b, In b l -> h' b = h b) -> custo_fila q h' l = custo_fila q h l.
Proof.
  unfold custo_fila. induction l as [|x r IH]; simpl; intro H; [reflexivity|].
  rewrite (H x) by now left. rewrite IH; [reflexivity|].
  intros b Hb. apply H. now right.
Qed.

(** The idle iterations still possible before the clock reaches [M]. *)
Definition ocioso (M agora : Q) : nat := Z.to_nat (Qceiling (M - agora)).

Lemma ocioso_mono M t t' : t <= t' -> (ocioso M t' <= ocioso M t)%nat.
Proof.
  intro H. unfold ocioso.
  assert (Hc : (Qceiling (M - t') <= Qceiling (M - t))%Z)
    by (apply Qceiling_resp_le; lra).
  lia.
Qed.

Lemma ocioso_desce M t t' :
  t < M -> t + 1 <= t' -> (ocioso M t' < ocioso M t)%nat.
Proof.
  intros Hm H. unfold ocioso.
  assert (H1 : (1 <= Qceiling (M - t))%Z) by (apply Qceiling_positivo; lra).
  assert (H2 : (Qceiling (M - t') + 1 <= Qceiling (M - t))%Z)
    by (apply Qceiling_desce; lra).
  lia.
Qed.

Arguments custo : simpl never.
Arguments custo_fila : simpl never.
Arguments ocioso : simpl never.

(** ** One iteration of the quantum-bounded loop, case by case *)

Section IteracaoComQuantum.

Variable escolher : Heap -> Q -> list nat -> Resultado nat.
Variable conceder : Q -> Q -> TarefaCAV -> Resultado (Q * Q * bool).

Definition escolhida (s : Estado) (a : nat) : Prop :=
  escolher (objetos s) (tempo_atual s) (tarefas_que_chegaram s) = Ok a
  /\ tarefas_que_chegaram s <> [].

Definition concedido (s : Estado) (a : nat)
    (r : Resultado (Q * Q * bool)) : Prop :=
  conceder (quantum s) (quantum_atual s)
    (iniciar_execucao (tempo_atual s) (objetos s a)) = r.

Inductive Iteracao (s : Estado) : Passo -> Prop :=
| It_ociosa :
    tarefas_que_chegaram s = [] ->
    Iteracao s (Continua (set_tempo_atual (teto (tempo_atual s + 1)) s))
| It_erro_escolha e :
    tarefas_que_chegaram s <> [] ->
    escolher (objetos s) (tempo_atual s) (tarefas_que_chegaram s) = Erro e ->
    Iteracao s (Levanta e s)
| It_descarte a :
    escolhida s a ->
    tempo_restante (objetos s a) <= 0 ->
    Iteracao s (Continua (retirar a s))
| It_erro_concessao a e :
    escolhida s a ->
    0 < tempo_restante (objetos s a) ->
    concedido s a (Erro e) ->
    Iteracao s
      (Levanta e
         (gravar a (iniciar_execucao (tempo_atual s) (objetos s a))
            (retirar a s)))
| It_preempcao a x qa u :
    escolhida s a ->
    0 < tempo_restante (objetos s a) ->
    concedido s a (Ok (x, qa, u)) ->
    0 < tempo_restante (objetos s a) - x ->
    Iteracao s
      (Continua (preemptar (executar_fatia (retirar a s) a x qa) a))
| It_finalizacao a x qa u :
    escolhida s a ->
    0 < tempo_restante (objetos s a) ->
    concedido s a (Ok (x, qa, u)) ->
    tempo_restante (objetos s a) - x <= 0 ->
    Iteracao s
      (Continua (finalizar u (executar_fatia (retirar a s) a x qa) a)).

Lemma corpo_quantum_iteracao (s : Estado) :
  Iteracao s (corpo_quantum escolher conceder s).
Proof.
  unfold corpo_quantum.
  destruct (tarefas_que_chegaram s) as [|c cs] eqn:Ech.
  - now apply It_ociosa.
  - assert (Hne : tarefas_que_chegaram s <> []) by (rewrite Ech; discriminate).
    rewrite <- Ech.
    destruct (escolher (objetos s) (tempo_atual s) (tarefas_que_chegaram s))
      as [a|e] eqn:Esc.
    + assert (Ha : escolhida s a) by (split; assumption).
      unfold despachar.
      change (objetos (retirar a s)) with (objetos s).
      change (tempo_atual (retirar a s)) with (tempo_atual s).
      change (quantum (retirar a s)) with (quantum s).
      change (quantum_atual (retirar a s)) with (quantum_atual s).
      destruct (Qlt_bool 0 (tempo_restante (objetos s a))) eqn:Er.
      * apply Qlt_bool_true in Er.
        destruct (conceder (quantum s) (quantum_atual s)
                    (iniciar_execucao (tempo_atual s) (objetos s a)))
          as [[[x qa] u]|e] eqn:Ec.
        -- rewrite executar_fatia_restante.
           change (objetos (retirar a s)) with (objetos s).
           destruct (Qlt_bool 0 (tempo_restante (objetos s a) - x)) eqn:Ef.
           ++ apply Qlt_bool_true in Ef. eapply It_preempcao; eauto.
           ++ apply Qlt_bool_false in Ef. eapply It_finalizacao; eauto.
        -- now apply It_erro_concessao.
      * apply Qlt_bool_false in Er. now apply It_descarte.
    + now apply It_erro_escolha.
Qed.

(** *** What holds in every reachable state *)

Hypothesis escolher_In :
  forall h agora l a, escolher h agora l = Ok a -> In a l.
Hypothesis conceder_le :
  forall q qa t x qa' u,
    conceder q qa t = Ok (x, qa', u) -> x <= tempo_restante t.

Lemma escolhida_fila s a : escolhida s a -> In a (fila s).
Proof.
  intros [H _]. apply escolher_In in H. now apply chegaram_In in H.
Qed.

Lemma escolhida_chegou s a :
  escolhida s a -> tempo_chegada (objetos s a) <= tempo_atual s.
Proof.
  intros [H _]. apply escolher_In in H. now apply chegaram_In in H.
Qed.

(** The remaining time of no object ever becomes negative. *)
Lemma iteracao_restante s p b :
  Iteracao s p ->
  0 <= tempo_restante (objetos s b) ->
  0 <= tempo_restante (objetos (estado_do_passo p) b).
Proof.
  intros Hit Hb.
  destruct Hit as [Hn|e Hn He|a Ha Hr|a e Ha Hr Hc|a x qa u Ha Hr Hc Hf
                  |a x qa u Ha Hr Hc Hf]; cbn; try assumption.
  - unfold gravar_obj. destruct (Nat.eqb b a); [|assumption].
    autorewrite with tarefa. lra.
  - autorewrite with tarefa. rewrite executar_fatia_objetos.
    unfold gravar_obj. destruct (Nat.eqb b a); [|assumption].
    autorewrite with tarefa. cbn. lra.
  - autorewrite with tarefa. rewrite executar_fatia_objetos.
    unfold gravar_obj at 1. destruct (Nat.eqb b a) eqn:E.
    + cbn. rewrite gravar_obj_eq. autorewrite with tarefa.
      apply conceder_le in Hc. autorewrite with tarefa in Hc.
      cbn. lra.
    + unfold gravar_obj. rewrite E. assumption.
Qed.

Record Inv (s : Estado) : Prop := {
  inv_fila : NoDup (fila s);
  inv_fin : NoDup (finalizacoes s);
  inv_disj : forall a, In a (finalizacoes s) -> ~ In a (fila s);
  inv_zero :
    forall a, In a (finalizacoes s) ->
              tempo_restante (objetos s a) == 0
              /\ tempo_final (objetos s a) <> None
}.

Lemma iteracao_Inv s p : Iteracao s p -> Inv s -> Inv (estado_do_passo p).
Proof.
  intros Hit [Hf Hn Hd Hz].
  destruct Hit as [He|e He Hesc|a Ha Hr|a e Ha Hr Hc|a x qa u Ha Hr Hc Hfim
                  |a x qa u Ha Hr Hc Hfim]; cbn.
  - now split.
  - now split.
  - split; cbn; auto using remover_NoDup.
    intros b Hb Hin. apply (Hd b Hb). eapply remover_In, Hin.
  - pose proof (escolhida_fila _ _ Ha) as Hin.
    split; cbn; auto using remover_NoDup.
    + intros b Hb Hin'. apply (Hd b Hb). eapply remover_In, Hin'.
    + intros b Hb. rewrite gravar_obj_neq; [auto|].
      intros ->. now apply (Hd a).
  - pose proof (escolhida_fila _ _ Ha) as Hin.
    split; autorewrite with tarefa; cbn.
    + apply reinserir_NoDup; [now apply remover_nao_In|now apply remover_NoDup].
    + assumption.
    + intros b Hb. rewrite reinserir_In. intros [->|Hin'].
      * now apply (Hd a).
      * apply (Hd b Hb). eapply remover_In, Hin'.
    + intros b Hb. rewrite executar_fatia_outros; [cbn; auto|].
      intros ->. now apply (Hd a).
  - pose proof (escolhida_fila _ _ Ha) as Hin.
    assert (Hna : ~ In a (finalizacoes s)) by (intro H; now apply (Hd a)).
    split; autorewrite with tarefa; cbn.
    + now apply remover_NoDup.
    + apply NoDup_app; [assumption|repeat constructor; easy|].
      intros b Hb [<-|[]]. contradiction.
    + intros b Hb Hin'. apply in_app_or in Hb. destruct Hb as [Hb|[<-|[]]].
      * apply (Hd b Hb). eapply remover_In, Hin'.
      * now apply (remover_nao_In a (fila s)).
    + intros b Hb. apply in_app_or in Hb. destruct Hb as [Hb|[<-|[]]].
      * assert (b <> a) by (intros ->; contradiction).
        rewrite gravar_obj_neq by assumption.
        rewrite executar_fatia_outros by assumption. cbn. auto.
      * rewrite gravar_obj_eq. cbn. autorewrite with tarefa. cbn.
        split; [|discriminate].
        apply conceder_le in Hc. autorewrite with tarefa in Hc. lra.
Qed.

(** Every task with a positive duration is still queued with time left,
    or has been given its finish time.  (An iteration that raises leaves
    its task out of both.) *)
Definition Pendentes (s : Estado) : Prop :=
  forall a, In a (tarefas s) -> 0 < duracao (objetos s a) ->
    (In a (fila s) /\ 0 < tempo_restante (objetos s a))
    \/ In a (finalizacoes s).

Lemma iteracao_Pendentes s s' :
  Iteracao s (Continua s') -> Inv s -> Pendentes s -> Pendentes s'.
Proof.
  intros Hit [Hf Hn Hd Hz] Hp. remember (Continua s') as p eqn:Ep.
  destruct Hit as [He|e He Hesc|a Ha Hr|a e Ha Hr Hc|a x qa u Ha Hr Hc Hfim
                  |a x qa u Ha Hr Hc Hfim]; inversion Ep; subst s'; clear Ep.
  - exact Hp.
  - pose proof (escolhida_fila _ _ Ha) as Hin.
    intros b Hb Hdur. cbn in *.
    destruct (Nat.eq_dec b a) as [->|Hne].
    + destruct (Hp a Hb Hdur) as [[_ H]|H]; [lra|]. now apply Hd in H.
    + destruct (Hp b Hb Hdur) as [[H1 H2]|H]; [left|now right].
      split; [now apply remover_In_neq|assumption].
  - pose proof (escolhida_fila _ _ Ha) as Hin.
    intros b. autorewrite with tarefa. cbn. intros Hb Hdur.
    destruct (Nat.eq_dec b a) as [->|Hne].
    + left. split; [apply reinserir_In; now left|].
      autorewrite with tarefa. exact Hfim.
    + rewrite executar_fatia_outros in * by assumption. cbn in *.
      destruct (Hp b Hb Hdur) as [[H1 H2]|H]; [left|now right].
      split; [|assumption]. apply reinserir_In. right.
      now apply remover_In_neq.
  - pose proof (escolhida_fila _ _ Ha) as Hin.
    intros b. autorewrite with tarefa. cbn. intros Hb Hdur.
    destruct (Nat.eq_dec b a) as [->|Hne].
    + right. apply in_or_app. right. now left.
    + rewrite gravar_obj_neq in * by assumption.
      rewrite executar_fatia_outros in * by assumption. cbn in *.
      destruct (Hp b Hb Hdur) as [[H1 H2]|H].
      * left. split; [now apply remover_In_neq|assumption].
      * right. apply in_or_app. now left.
Qed.

(** *** Termination *)

Variable exige_deadline : bool.

Definition apta (t : TarefaCAV) : Prop :=
  exige_deadline = true -> deadline t <> None.

Hypothesis escolher_ok :
  forall h agora l,
    l <> [] -> (forall a, In a l -> apta (h a)) ->
    exists a, escolher h agora l = Ok a.
Hypothesis conceder_ok :
  forall q qa t, apta t -> exists r, conceder q qa t = Ok r.
Hypothesis conceder_ge :
  forall q qa t x qa' u,
    q <= qa -> conceder q qa t = Ok (x, qa', u) ->
    (tempo_restante t <= x \/ q <= x) /\ q <= qa'.

Variable q : Q.
Variable M : Q.
Hypothesis q_pos : 0 < q.

Record Inv_term (s : Estado) : Prop := {
  it_q : quantum s = q;
  it_qa : q <= quantum_atual s;
  it_fila : NoDup (fila s);
  it_chegada : forall a, In a (fila s) -> tempo_chegada (objetos s a) <= M;
  it_apta : forall a, In a (fila s) -> apta (objetos s a)
}.

Definition medida (s : Estado) : nat :=
  custo_fila q (objetos s) (fila s) + ocioso M (tempo_atual s).

Lemma iteracao_termina s :
  Inv_term s -> fila s <> [] ->
  exists s', corpo_quantum escolher conceder s = Continua s'
             /\ Inv_term s' /\ (medida s' < medida s)%nat.
Proof.
  intros [Hq Hqa Hf Hch Hap] Hne.
  destruct (corpo_quantum_iteracao s)
    as [He|e He Hesc|a Ha Hr|a e Ha Hr Hc|a x qa u Ha Hr Hc Hfim
       |a x qa u Ha Hr Hc Hfim].
  - (* idle *)
    eexists. split; [reflexivity|]. split; [now split|].
    unfold medida. cbn.
    assert (Hex : exists b, In b (fila s)).
    { destruct (fila s) as [|b r]; [congruence|]. exists b. now left. }
    destruct Hex as [b Hb].
    assert (Hlate : tempo_atual s < tempo_chegada (objetos s b)).
    { apply Qnot_le_lt. intro Hle.
      assert (Hin : In b (tarefas_que_chegaram s))
        by (apply chegaram_In; split; assumption).
      rewrite He in Hin. destruct Hin. }
    specialize (Hch b Hb).
    assert (ocioso M (teto (tempo_atual s + 1)) < ocioso M (tempo_atual s))%nat.
    { apply ocioso_desce; [lra|apply teto_ge]. }
    lia.
  - (* the selection cannot fail *)
    destruct (escolher_ok (objetos s) (tempo_atual s) (tarefas_que_chegaram s) He)
      as [a Ha].
    + intros a Ha. apply Hap. now apply chegaram_In in Ha.
    + congruence.
  - (* a task with nothing left is dropped *)
    pose proof (escolhida_fila _ _ Ha) as Hin.
    eexists. split; [reflexivity|]. split.
    + split; cbn; auto using remover_NoDup;
        intros b Hb; apply remover_In in Hb; auto.
    + unfold medida. cbn.
      pose proof (custo_fila_remover q (objetos s) a (fila s) Hin).
      pose proof (custo_pos q (tempo_restante (objetos s a))). lia.
  - (* the grant cannot fail *)
    pose proof (escolhida_fila _ _ Ha) as Hin.
    destruct (conceder_ok (quantum s) (quantum_atual s)
                (iniciar_execucao (tempo_atual s) (objetos s a))) as [r Hr'].
    + intro Hex. autorewrite with tarefa. now apply Hap.
    + unfold concedido in Hc. congruence.
  - (* preemption *)
    pose proof (escolhida_fila _ _ Ha) as Hin.
    pose proof (escolhida_chegou _ _ Ha) as Hcheg.
    unfold concedido in Hc.
    assert (Hqq : quantum s <= quantum_atual s) by (rewrite Hq; exact Hqa).
    destruct (conceder_ge _ _ _ _ _ _ Hqq Hc) as [Hx Hqa'].
    autorewrite with tarefa in Hx. rewrite Hq in Hx, Hqa'.
    assert (Hqx : q <= x) by (destruct Hx; [lra|assumption]).
    eexists. split; [reflexivity|]. split.
    + split; autorewrite with tarefa; cbn; try assumption.
      * apply reinserir_NoDup;
          [now apply remover_nao_In|now apply remover_NoDup].
      * intros b Hb. apply reinserir_In in Hb.
        destruct (Nat.eq_dec b a) as [->|Hne'].
        -- rewrite executar_fatia_objetos, gravar_obj_eq.
           autorewrite with tarefa. cbn. now apply Hch.
        -- rewrite executar_fatia_outros by assumption. cbn.
           destruct Hb as [?|Hb]; [contradiction|].
           apply Hch. eapply remover_In, Hb.
      * intros b Hb. apply reinserir_In in Hb.
        destruct (Nat.eq_dec b a) as [->|Hne'].
        -- rewrite executar_fatia_objetos, gravar_obj_eq.
           intro Hex. autorewrite with tarefa. cbn. now apply Hap.
        -- rewrite executar_fatia_outros by assumption. cbn.
           destruct Hb as [?|Hb]; [contradiction|].
           apply Hap. eapply remover_In, Hb.
    + unfold medida. autorewrite with tarefa. cbn.
      rewrite custo_fila_reinserir. autorewrite with tarefa. cbn.
      rewrite (custo_fila_ext q (objetos s)).
      2:{ intros b Hb. rewrite executar_fatia_outros; [reflexivity|].
          intros ->. now apply (remover_nao_In a (fila s)). }
      pose proof (custo_fila_remover q (objetos s) a (fila s) Hin).
      assert (custo q (tempo_restante (objetos s a) - x)
              < custo q (tempo_restante (objetos s a)))%nat
        by (apply custo_desce; lra).
      assert (ocioso M
                (max_py (tempo_atual s) (tempo_chegada (objetos s a)) + x
                 + sobrecarga_preempcao)
              <= ocioso M (tempo_atual s))%nat.
      { apply ocioso_mono.
        pose proof (max_py_ge_l (tempo_atual s) (tempo_chegada (objetos s a))).
        unfold sobrecarga_preempcao. lra. }
      lia.
  - (* the task finishes *)
    pose proof (escolhida_fila _ _ Ha) as Hin.
    unfold concedido in Hc.
    assert (Hqq : quantum s <= quantum_atual s) by (rewrite Hq; exact Hqa).
    destruct (conceder_ge _ _ _ _ _ _ Hqq Hc) as [Hx Hqa'].
    autorewrite with tarefa in Hx. rewrite Hq in Hx, Hqa'.
    assert (Hx0 : 0 <= x) by (destruct Hx; lra).
    eexists. split; [reflexivity|]. split.
    + split; autorewrite with tarefa; cbn; try assumption.
      * destruct u; [rewrite Hq; lra|assumption].
      * now apply remover_NoDup.
      * intros b Hb.
        assert (b <> a)
          by (intros ->; now apply (remover_nao_In a (fila s))).
        rewrite gravar_obj_neq by assumption.
        rewrite executar_fatia_outros by assumption. cbn.
        apply Hch. eapply remover_In, Hb.
      * intros b Hb.
        assert (b <> a)
          by (intros ->; now apply (remover_nao_In a (fila s))).
        rewrite gravar_obj_neq by assumption.
        rewrite executar_fatia_outros by assumption. cbn.
        apply Hap. eapply remover_In, Hb.
    + unfold medida. autorewrite with tarefa. cbn.
      rewrite (custo_fila_ext q (objetos s)).
      2:{ intros b Hb.
          assert (b <> a)
            by (intros ->; now apply (remover_nao_In a (fila s))).
          rewrite gravar_obj_neq by assumption.
          now rewrite executar_fatia_outros. }
      pose proof (custo_fila_remover q (objetos s) a (fila s) Hin).
      pose proof (custo_pos q (tempo_restante (objetos s a))).
      assert (ocioso M
                (max_py (tempo_atual s) (tempo_chegada (objetos s a)) + x)
              <= ocioso M (tempo_atual s))%nat.
      { apply ocioso_mono.
        pose proof (max_py_ge_l (tempo_atual s) (tempo_chegada (objetos s a))).
        lra. }
      lia.
Qed.

End IteracaoComQuantum.

Lemma laco_nao_aborta (corpo : Estado -> Passo) (P : Estado -> Prop) :
  (forall s, P s -> fila s <> [] -> exists s', corpo s = Continua s' /\ P s') ->
  forall n s, P s -> forall e s', laco corpo n s <> Aborta e s'.
Proof.
  intros Hp n. induction n as [|n IH]; intros s Hs e s'; simpl.
  - destruct (fila s); discriminate.
  - destruct (fila s) eqn:E; [discriminate|].
    destruct (Hp s Hs) as (s1 & Hc & Hs1); [congruence|].
    rewrite Hc. now apply IH.
Qed.

(** ** The selection and grant of each strategy *)

Definition escolher_de (alg : Algoritmo) : Heap -> Q -> list nat -> Resultado nat :=
  match alg with
  | EDF => escolher_edf
  | PrioridadeP | UG _ => escolher_prioridade_p
  | FutureVision => escolher_fv limite_mediana
  | FutureVisionMedia => escolher_fv limite_media
  | FutureVisionMediaIntervalo => escolher_fv limite_media_intervalo
  | FutureVisionMin => escolher_fv limite_min
  | FutureVisionMax => escolher_fv limite_max
  | _ => escolher_rr
  end.

Definition conceder_de (alg : Algoritmo) : Q -> Q -> TarefaCAV -> Resultado (Q * Q * bool) :=
  match alg with
  | UG urg_max => conceder_ug urg_max
  | _ => conceder_fixo
  end.

(** The strategies that compare deadlines. *)
Definition exige_deadline (alg : Algoritmo) : bool :=
  match alg with
  | EDF | UG _ => true
  | _ => false
  end.

Lemma escalonar_com_quantum alg n s :
  tem_quantum alg = true ->
  escalonar alg n s
  = escalonar_quantum (escolher_de alg) (conceder_de alg) n s.
Proof. destruct alg; intro H; try discriminate H; reflexivity. Qed.

Lemma escolher_fv_In limite h agora l a :
  escolher_fv limite h agora l = Ok a -> In a l.
Proof.
  unfold escolher_fv.
  destruct (find _ _) as [b|] eqn:E.
  - intros [= <-]. apply find_some in E. destruct E as [E _].
    now apply ordenar_In in E.
  - intro H. apply primeiro_In in H. now apply ordenar_In in H.
Qed.

Lemma escolher_fv_ok limite h agora l :
  l <> [] -> exists a, escolher_fv limite h agora l = Ok a.
Proof.
  intro H. unfold escolher_fv.
  destruct (find _ _) as [b|]; [now eexists|].
  apply primeiro_ok. now apply ordenar_nao_vazia.
Qed.

Lemma escolher_edf_In h agora l a : escolher_edf h agora l = Ok a -> In a l.
Proof.
  unfold escolher_edf, ordenar_por_deadline.
  destruct (_ && _); [discriminate|].
  intro H. apply primeiro_In in H. now apply ordenar_In in H.
Qed.

Lemma escolher_edf_ok h agora l :
  l <> [] -> (forall a, In a l -> deadline (h a) <> None) ->
  exists a, escolher_edf h agora l = Ok a.
Proof.
  intros Hne Hd. unfold escolher_edf, ordenar_por_deadline.
  assert (E : existsb (sem_deadline h) l = false).
  { destruct (existsb (sem_deadline h) l) eqn:E; [|reflexivity].
    apply existsb_exists in E. destruct E as (a & Ha & Hs).
    unfold sem_deadline in Hs. specialize (Hd a Ha).
    destruct (deadline (h a)); [discriminate|congruence]. }
  rewrite E, andb_false_r. apply primeiro_ok. now apply ordenar_nao_vazia.
Qed.

Lemma escolher_de_In alg h agora l a :
  escolher_de alg h agora l = Ok a -> In a l.
Proof.
  destruct alg; simpl;
    first [apply escolher_fv_In | apply escolher_edf_In | idtac].
  all: unfold escolher_rr, escolher_prioridade_p; intro H.
  all: first [now apply primeiro_In
             | apply ultimo_In in H; now apply ordenar_In in H].
Qed.

Lemma escolher_de_ok alg h agora l :
  l <> [] ->
  (forall a, In a l -> exige_deadline alg = true -> deadline (h a) <> None) ->
  exists a, escolher_de alg h agora l = Ok a.
Proof.
  intros Hne Hd.
  destruct alg; simpl in *;
    first [now apply escolher_fv_ok
          | apply escolher_edf_ok; now auto
          | idtac].
  all: unfold escolher_rr, escolher_prioridade_p.
  all: first [now apply primeiro_ok
             | apply ultimo_ok; now apply ordenar_nao_vazia].
Qed.

Lemma conceder_de_le alg q qa t x qa' u :
  conceder_de alg q qa t = Ok (x, qa', u) -> x <= tempo_restante t.
Proof.
  assert (Hfixo : conceder_fixo q qa t = Ok (x, qa', u) -> x <= tempo_restante t).
  { unfold conceder_fixo. intros [= <- _ _]. apply min_py_le_l. }
  destruct alg; simpl; try exact Hfixo.
  unfold conceder_ug. destruct (urgencia _ _ _ _) as [v|e]; [|discriminate].
  destruct (Qlt_bool urg_max v); intros [= <- _ _]; apply min_py_le_l.
Qed.

Lemma conceder_de_ok alg q qa t :
  (exige_deadline alg = true -> deadline t <> None) ->
  exists r, conceder_de alg q qa t = Ok r.
Proof.
  intro Hd.
  destruct alg; simpl in *; try (unfold conceder_fixo; now eexists).
  unfold conceder_ug, urgencia.
  destruct (deadline t) as [d|]; [|now destruct Hd].
  destruct (Qlt_bool (tempo_restante t) d);
    match goal with
    | |- context [Qlt_bool ?a ?b] => destruct (Qlt_bool a b)
    end; now eexists.
Qed.

Lemma conceder_de_ge alg q qa t x qa' u :
  q <= qa -> conceder_de alg q qa t = Ok (x, qa', u) ->
  (tempo_restante t <= x \/ q <= x) /\ q <= qa'.
Proof.
  intro Hq.
  assert (Hmin : forall c, q <= c ->
            tempo_restante t <= min_py (tempo_restante t) c
            \/ q <= min_py (tempo_restante t) c).
  { intros c Hc. destruct (min_py_cases (tempo_restante t) c) as [[_ ->]|[_ ->]];
      [left; lra|now right]. }
  assert (Hfixo : conceder_fixo q qa t = Ok (x, qa', u) ->
                  (tempo_restante t <= x \/ q <= x) /\ q <= qa').
  { unfold conceder_fixo. intros [= <- <- _]. split; [|assumption].
    apply Hmin. lra. }
  destruct alg; simpl; try exact Hfixo.
  unfold conceder_ug. destruct (urgencia _ _ _ _) as [v|e]; [|discriminate].
  destruct (Qlt_bool urg_max v); intros [= <- <- _].
  - split; [apply Hmin|]; lra.
  - split; [apply Hmin; lra|assumption].
Qed.

(** ** The state in which a run starts *)

Lemma adicionar_tarefa_campos s a :
  objetos (adicionar_tarefa s a) = objetos s
  /\ tarefas (adicionar_tarefa s a) = tarefas s ++ [a]
  /\ sobrecarga_total (adicionar_tarefa s a) = sobrecarga_total s
  /\ tempo_atual (adicionar_tarefa s a) = tempo_atual s
  /\ quantum (adicionar_tarefa s a) = quantum s
  /\ quantum_atual (adicionar_tarefa s a) = quantum_atual s
  /\ fila (adicionar_tarefa s a) = fila s
  /\ tarefa (adicionar_tarefa s a) = tarefa s
  /\ finalizacoes (adicionar_tarefa s a) = finalizacoes s.
Proof.
  unfold adicionar_tarefa. cbn.
  destruct (menor_tarefa s) as [m|]; [|repeat split].
  destruct (Qlt_bool _ _); repeat split.
Qed.

Lemma adicionar_tarefas_campos refs : forall s,
  objetos (adicionar_tarefas s refs) = objetos s
  /\ tarefas (adicionar_tarefas s refs) = tarefas s ++ refs
  /\ sobrecarga_total (adicionar_tarefas s refs) = sobrecarga_total s
  /\ tempo_atual (adicionar_tarefas s refs) = tempo_atual s
  /\ quantum (adicionar_tarefas s refs) = quantum s
  /\ quantum_atual (adicionar_tarefas s refs) = quantum_atual s
  /\ fila (adicionar_tarefas s refs) = fila s
  /\ tarefa (adicionar_tarefas s refs) = tarefa s
  /\ finalizacoes (adicionar_tarefas s refs) = finalizacoes s.
Proof.
  unfold adicionar_tarefas.
  induction refs as [|a r IH]; intro s; simpl.
  - rewrite app_nil_r. repeat split.
  - destruct (IH (adicionar_tarefa s a))
      as (H1 & H2 & H3 & H4 & H5 & H6 & H7 & H8 & H9).
    destruct (adicionar_tarefa_campos s a)
      as (G1 & G2 & G3 & G4 & G5 & G6 & G7 & G8 & G9).
    rewrite H1, H2, H3, H4, H5, H6, H7, H8, H9, G1, G2, G3, G4, G5, G6, G7, G8, G9.
    rewrite <- app_assoc. repeat split.
Qed.

(** The scheduler of a simulation just before [escalonar] is called. *)
Definition montado (alg : Algoritmo) (q : Q) (h : Heap) (refs : list nat)
    : Estado :=
  adicionar_tarefas (construir alg h q) refs.

Lemma montado_campos alg q h refs :
  objetos (montado alg q h refs) = h
  /\ tarefas (montado alg q h refs) = refs
  /\ fila (montado alg q h refs) = []
  /\ tarefa (montado alg q h refs) = None
  /\ finalizacoes (montado alg q h refs) = []
  /\ (tem_quantum alg = true ->
      quantum (montado alg q h refs) = q
      /\ quantum_atual (montado alg q h refs) = q).
Proof.
  unfold montado.
  destruct (adicionar_tarefas_campos refs (construir alg h q))
    as (H1 & H2 & H3 & H4 & H5 & H6 & H7 & H8 & H9).
  rewrite H1, H2, H5, H6, H7, H8, H9.
  unfold construir. destruct (tem_quantum alg); cbn; repeat split;
    discriminate.
Qed.

Lemma preparar_campos s :
  objetos (preparar s) = objetos s
  /\ tarefas (preparar s)
     = ordenar (fun a => tempo_chegada (objetos s a)) (tarefas s)
  /\ fila (preparar s) = tarefas (preparar s)
  /\ tarefa (preparar s) = tarefa s
  /\ finalizacoes (preparar s) = finalizacoes s
  /\ quantum (preparar s) = quantum s
  /\ quantum_atual (preparar s) = quantum_atual s
  /\ sobrecarga_total (preparar s) = sobrecarga_total s.
Proof.
  unfold preparar.
  destruct (ordenar _ (tarefas s)); cbn; repeat split.
Qed.

(** When there is a task, the clock starts at the arrival of the first
    task of the queue. *)
Lemma preparar_relogio s a r :
  fila (preparar s) = a :: r ->
  tempo_atual (preparar s) = tempo_chegada (objetos s a).
Proof.
  unfold preparar.
  destruct (ordenar _ (tarefas s)) as [|b l]; cbn; [discriminate|].
  now intros [= -> _].
Qed.

(** A bound on the arrival times of a list of tasks. *)
Definition chegada_maxima (h : Heap) (l : list nat) : Q :=
  fold_right (fun a m => max_py (tempo_chegada (h a)) m) 0 l.

Lemma chegada_maxima_ge h l a :
  In a l -> tempo_chegada (h a) <= chegada_maxima h l.
Proof.
  induction l as [|x r IH]; simpl; [easy|].
  intros [->|H].
  - apply max_py_ge_l.
  - specialize (IH H).
    pose proof (max_py_ge_r (tempo_chegada (h x)) (chegada_maxima h r)). lra.
Qed.

(** ** The run-to-completion bodies *)

Lemma executar_por_completo_outros s a b :
  b <> a -> objetos (executar_por_completo s a) b = objetos s b.
Proof.
  intro H. unfold executar_por_completo. cbn.
  now rewrite !gravar_obj_neq by assumption.
Qed.

Lemma executar_por_completo_restante s a b :
  tempo_restante (objetos (executar_por_completo s a) b)
  = tempo_restante (objetos s b).
Proof.
  destruct (Nat.eq_dec b a) as [->|H];
    [|now rewrite executar_por_completo_outros].
  unfold executar_por_completo. cbn. now rewrite !gravar_obj_eq.
Qed.

Lemma executar_por_completo_duracao s a b :
  duracao (objetos (executar_por_completo s a) b) = duracao (objetos s b).
Proof.
  destruct (Nat.eq_dec b a) as [->|H];
    [|now rewrite executar_por_completo_outros].
  unfold executar_por_completo. cbn. now rewrite !gravar_obj_eq.
Qed.

Lemma executar_por_completo_chegada s a b :
  tempo_chegada (objetos (executar_por_completo s a) b)
  = tempo_chegada (objetos s b).
Proof.
  destruct (Nat.eq_dec b a) as [->|H];
    [|now rewrite executar_por_completo_outros].
  unfold executar_por_completo. cbn. now rewrite !gravar_obj_eq.
Qed.

Lemma executar_por_completo_final s a :
  tempo_final (objetos (executar_por_completo s a) a)
  = Some (max_py (tempo_atual s) (tempo_chegada (objetos s a))
          + duracao (objetos s a)).
Proof. unfold executar_por_completo. cbn. now rewrite !gravar_obj_eq. Qed.

Lemma executar_por_completo_execucoes s a :
  tempos_execucao (objetos (executar_por_completo s a) a)
  = tempos_execucao (objetos s a)
    ++ [(max_py (tempo_atual s) (tempo_chegada (objetos s a)),
         max_py (tempo_atual s) (tempo_chegada (objetos s a))
         + duracao (objetos s a))].
Proof. unfold executar_por_completo. cbn. now rewrite !gravar_obj_eq. Qed.

Lemma executar_por_completo_fila s a :
  fila (executar_por_completo s a) = fila s.
Proof. reflexivity. Qed.

Lemma executar_por_completo_tarefas s a :
  tarefas (executar_por_completo s a) = tarefas s.
Proof. reflexivity. Qed.

Lemma executar_por_completo_tarefa s a :
  tarefa (executar_por_completo s a) = tarefa s.
Proof. reflexivity. Qed.

Lemma executar_por_completo_finalizacoes s a :
  finalizacoes (executar_por_completo s a) = finalizacoes s ++ [a].
Proof. reflexivity. Qed.

Lemma executar_por_completo_tempo_atual s a :
  tempo_atual (executar_por_completo s a)
  = max_py (tempo_atual s) (tempo_chegada (objetos s a))
    + duracao (objetos s a).
Proof. reflexivity. Qed.

#[local] Hint Rewrite
  executar_por_completo_restante executar_por_completo_duracao
  executar_por_completo_chegada executar_por_completo_final
  executar_por_completo_execucoes executar_por_completo_fila
  executar_por_completo_tarefas executar_por_completo_tarefa
  executar_por_completo_finalizacoes executar_por_completo_tempo_atual
  : tarefa.

Arguments executar_por_completo : simpl never.

Lemma executar_sem_preempcao_outros s a b :
  b <> a -> objetos (executar_sem_preempcao s a) b = objetos s b.
Proof.
  intro H. unfold executar_sem_preempcao. cbn.
  now rewrite !gravar_obj_neq by assumption.
Qed.

Lemma executar_sem_preempcao_restante s a b :
  tempo_restante (objetos (executar_sem_preempcao s a) b)
  = tempo_restante (objetos s b).
Proof.
  destruct (Nat.eq_dec b a) as [->|H];
    [|now rewrite executar_sem_preempcao_outros].
  unfold executar_sem_preempcao. cbn. now rewrite !gravar_obj_eq.
Qed.

Lemma executar_sem_preempcao_duracao s a b :
  duracao (objetos (executar_sem_preempcao s a) b) = duracao (objetos s b).
Proof.
  destruct (Nat.eq_dec b a) as [->|H];
    [|now rewrite executar_sem_preempcao_outros].
  unfold executar_sem_preempcao. cbn. now rewrite !gravar_obj_eq.
Qed.

Lemma executar_sem_preempcao_chegada s a b :
  tempo_chegada (objetos (executar_sem_preempcao s a) b)
  = tempo_chegada (objetos s b).
Proof.
  destruct (Nat.eq_dec b a) as [->|H];
    [|now rewrite executar_sem_preempcao_outros].
  unfold executar_sem_preempcao. cbn. now rewrite !gravar_obj_eq.
Qed.

Lemma executar_sem_preempcao_final s a :
  tempo_final (objetos (executar_sem_preempcao s a) a)
  = Some (tempo_atual s + duracao (objetos s a)).
Proof. unfold executar_sem_preempcao. cbn. now rewrite !gravar_obj_eq. Qed.

Lemma executar_sem_preempcao_execucoes s a :
  tempos_execucao (objetos (executar_sem_preempcao s a) a)
  = tempos_execucao (objetos s a)
    ++ [(tempo_atual s, tempo_atual s + duracao (objetos s a))].
Proof. unfold executar_sem_preempcao. cbn. now rewrite !gravar_obj_eq. Qed.

Lemma executar_sem_preempcao_fila s a :
  fila (executar_sem_preempcao s a) = fila s.
Proof. reflexivity. Qed.

Lemma executar_sem_preempcao_tarefas s a :
  tarefas (executar_sem_preempcao s a) = tarefas s.
Proof. reflexivity. Qed.

Lemma executar_sem_preempcao_finalizacoes s a :
  finalizacoes (executar_sem_preempcao s a) = finalizacoes s ++ [a].
Proof. reflexivity. Qed.

Lemma executar_sem_preempcao_tempo_atual s a :
  tempo_atual (executar_sem_preempcao s a)
  = tempo_atual s + duracao (objetos s a).
Proof. reflexivity. Qed.

#[local] Hint Rewrite
  executar_sem_preempcao_restante executar_sem_preempcao_duracao
  executar_sem_preempcao_chegada executar_sem_preempcao_final
  executar_sem_preempcao_execucoes executar_sem_preempcao_fila
  executar_sem_preempcao_tarefas executar_sem_preempcao_finalizacoes
  executar_sem_preempcao_tempo_atual : tarefa.

Arguments executar_sem_preempcao : simpl never.

(** *** EscalonadorFIFO *)

Lemma fifo_percorre l : forall s,
  let s' := fold_left executar_por_completo l s in
  finalizacoes s' = finalizacoes s ++ l
  /\ tarefas s' = tarefas s
  /\ (forall b, tempo_restante (objetos s' b) = tempo_restante (objetos s b))
  /\ (forall b, duracao (objetos s' b) = duracao (objetos s b))
  /\ (forall b, In b l \/ tempo_final (objetos s b) <> None ->
                tempo_final (objetos s' b) <> None).
Proof.
  induction l as [|a r IH]; intro s; cbn.
  - rewrite app_nil_r. repeat split; auto. now intros b [[]|H].
  - destruct (IH (executar_por_completo s a)) as (H1 & H2 & H3 & H4 & H5).
    repeat split.
    + rewrite H1. autorewrite with tarefa. now rewrite <- app_assoc.
    + rewrite H2. now autorewrite with tarefa.
    + intro b. rewrite H3. now autorewrite with tarefa.
    + intro b. rewrite H4. now autorewrite with tarefa.
    + intros b Hb. apply H5.
      destruct (Nat.eq_dec b a) as [->|Hne].
      * right. now autorewrite with tarefa.
      * rewrite executar_por_completo_outros by assumption.
        destruct Hb as [[Hb|Hb]|Hb]; [congruence|now left|now right].
Qed.

(** *** EscalonadorPrioridadeNP *)

Inductive IteracaoNP (s : Estado) : Passo -> Prop :=
| NP_ociosa :
    tarefas_que_chegaram s = [] ->
    IteracaoNP s (Continua (set_tempo_atual (tempo_atual s + 1) s))
| NP_despacho a :
    In a (tarefas_que_chegaram s) ->
    IteracaoNP s (Continua (executar_sem_preempcao (retirar a s) a)).

Lemma corpo_prioridade_np_iteracao s : IteracaoNP s (corpo_prioridade_np s).
Proof.
  unfold corpo_prioridade_np.
  destruct (tarefas_que_chegaram s) as [|c cs] eqn:E.
  - now apply NP_ociosa.
  - rewrite <- E.
    destruct (primeiro_ok
                (ordenar_rev (fun a => inject_Z (prioridade (objetos s a)))
                   (tarefas_que_chegaram s))) as [a Ha].
    + intro H. apply (f_equal (@length nat)) in H.
      assert (In c (ordenar_rev (fun a => inject_Z (prioridade (objetos s a)))
                      (tarefas_que_chegaram s)))
        by (apply ordenar_rev_In; rewrite E; now left).
      destruct (ordenar_rev _ _); [contradiction|discriminate].
    + rewrite Ha. apply NP_despacho.
      apply primeiro_In in Ha. now apply ordenar_rev_In in Ha.
Qed.

(** What the run-to-completion loops keep: the queue and the history
    partition the tasks, without repetition, and every task in the history
    has its finish time. *)
Record InvNP (s : Estado) : Prop := {
  np_fila : NoDup (fila s);
  np_fin : NoDup (finalizacoes s);
  np_disj : forall a, In a (finalizacoes s) -> ~ In a (fila s);
  np_todas : forall a, In a (tarefas s) ->
                       In a (fila s) \/ In a (finalizacoes s);
  np_final : forall a, In a (finalizacoes s) ->
                       tempo_final (objetos s a) <> None
}.

Lemma iteracaoNP_Inv s p : IteracaoNP s p -> InvNP s -> InvNP (estado_do_passo p).
Proof.
  intros Hit [Hf Hn Hd Ht Hz].
  destruct Hit as [He|a Ha]; cbn [estado_do_passo].
  - now split.
  - apply chegaram_In in Ha. destruct Ha as [Hin _].
    assert (Hna : ~ In a (finalizacoes s)) by (intro H; now apply (Hd a)).
    split; autorewrite with tarefa; cbn.
    + now apply remover_NoDup.
    + apply NoDup_app; [assumption|repeat constructor; easy|].
      intros b Hb [<-|[]]. contradiction.
    + intros b Hb Hin'. apply in_app_or in Hb. destruct Hb as [Hb|[<-|[]]].
      * apply (Hd b Hb). eapply remover_In, Hin'.
      * now apply (remover_nao_In a (fila s)).
    + intros b Hb. destruct (Nat.eq_dec b a) as [->|Hne].
      * right. apply in_or_app. right. now left.
      * destruct (Ht b Hb) as [H|H].
        -- left. now apply remover_In_neq.
        -- right. apply in_or_app. now left.
    + intros b Hb. apply in_app_or in Hb. destruct Hb as [Hb|[<-|[]]].
      * assert (b <> a) by (intros ->; contradiction).
        rewrite executar_sem_preempcao_outros by assumption. cbn. auto.
      * now autorewrite with tarefa.
Qed.

Section TerminacaoNP.

Variable M : Q.

Record InvNP_term (s : Estado) : Prop := {
  npt_chegada : forall a, In a (fila s) -> tempo_chegada (objetos s a) <= M;
  npt_duracao : forall a, In a (fila s) -> 0 <= duracao (objetos s a)
}.

Definition medida_np (s : Estado) : nat :=
  length (fila s) + ocioso M (tempo_atual s).

Lemma iteracaoNP_termina s :
  InvNP s -> InvNP_term s -> fila s <> [] ->
  exists s', corpo_prioridade_np s = Continua s'
             /\ (InvNP s' /\ InvNP_term s')
             /\ (medida_np s' < medida_np s)%nat.
Proof.
  intros Hinv [Hch Hdur] Hne.
  pose proof (iteracaoNP_Inv s _ (corpo_prioridade_np_iteracao s) Hinv) as Hinv'.
  destruct (corpo_prioridade_np_iteracao s) as [He|a Ha];
    cbn [estado_do_passo] in Hinv'.
  - eexists. split; [reflexivity|]. split; [split; [assumption|now split]|].
    unfold medida_np. cbn.
    assert (Hex : exists b, In b (fila s)).
    { destruct (fila s) as [|b r]; [congruence|]. exists b. now left. }
    destruct Hex as [b Hb].
    assert (Hlate : tempo_atual s < tempo_chegada (objetos s b)).
    { apply Qnot_le_lt. intro Hle.
      assert (Hin : In b (tarefas_que_chegaram s))
        by (apply chegaram_In; split; assumption).
      rewrite He in Hin. destruct Hin. }
    specialize (Hch b Hb).
    assert (ocioso M (tempo_atual s + 1) < ocioso M (tempo_atual s))%nat
      by (apply ocioso_desce; lra).
    lia.
  - apply chegaram_In in Ha. destruct Ha as [Hin _].
    eexists. split; [reflexivity|]. split; [split; [assumption|]|].
    + split; intros b Hb; autorewrite with tarefa in *; cbn in *;
        apply remover_In in Hb; auto.
    + unfold medida_np. autorewrite with tarefa. cbn.
      pose proof (remover_length a (fila s) Hin).
      assert (ocioso M (tempo_atual s + duracao (objetos s a))
              <= ocioso M (tempo_atual s))%nat.
      { apply ocioso_mono. specialize (Hdur a Hin). lra. }
      lia.
Qed.

End TerminacaoNP.

(** *** EscalonadorSJF *)

Inductive IteracaoSJF (s : Estado) : Passo -> Prop :=
| SJF_despacho a :
    In a (tarefas_que_chegaram s) ->
    IteracaoSJF s (Continua (executar_por_completo (retirar a s) a))
| SJF_repete b :
    tarefas_que_chegaram s = [] ->
    tarefa s = Some b ->
    IteracaoSJF s (Continua (executar_por_completo s b))
| SJF_erro :
    tarefas_que_chegaram s = [] ->
    tarefa s = None ->
    IteracaoSJF s (Levanta UnboundLocalError s).

Lemma corpo_sjf_iteracao s : IteracaoSJF s (corpo_sjf s).
Proof.
  unfold corpo_sjf.
  destruct (ordenar (fun a => duracao (objetos s a)) (tarefas_que_chegaram s))
    as [|a r] eqn:E.
  - assert (Hv : tarefas_que_chegaram s = []).
    { apply (f_equal (@length nat)) in E. rewrite ordenar_length in E.
      now destruct (tarefas_que_chegaram s). }
    destruct (tarefa s) as [b|] eqn:Et.
    + now apply SJF_repete.
    + now apply SJF_erro.
  - cbn. apply SJF_despacho.
    apply (ordenar_In (fun a => duracao (objetos s a))). rewrite E. now left.
Qed.

(** Every task is still queued or has a finish time. *)
Definition TodasSJF (s : Estado) : Prop :=
  forall a, In a (tarefas s) ->
            In a (fila s) \/ tempo_final (objetos s a) <> None.

Lemma iteracaoSJF_Todas s s' :
  IteracaoSJF s (Continua s') -> TodasSJF s -> TodasSJF s'.
Proof.
  intros Hit Ht. remember (Continua s') as p eqn:Ep.
  destruct Hit as [a Ha|b He Hb|He Hn]; inversion Ep; subst s'; clear Ep.
  - intros b Hb. autorewrite with tarefa in *. cbn in *.
    destruct (Nat.eq_dec b a) as [->|Hne].
    + right. now autorewrite with tarefa.
    + rewrite executar_por_completo_outros by assumption. cbn.
      destruct (Ht b Hb) as [H|H]; [left|now right].
      now apply remover_In_neq.
  - intros c Hc. autorewrite with tarefa in *.
    destruct (Nat.eq_dec c b) as [->|Hne].
    + right. now autorewrite with tarefa.
    + rewrite executar_por_completo_outros by assumption. now apply Ht.
Qed.

(** The idle re-runs still possible before the clock reaches [M], when
    each one advances the clock by [d] at least. *)
Definition ocioso_d (d M agora : Q) : nat :=
  Z.to_nat (Qceiling ((M - agora) / d)).

Lemma ocioso_d_mono d M t t' :
  0 < d -> t <= t' -> (ocioso_d d M t' <= ocioso_d d M t)%nat.
Proof.
  intros Hd H. unfold ocioso_d.
  assert (Hc : (Qceiling ((M - t') / d) <= Qceiling ((M - t) / d))%Z).
  { apply Qceiling_resp_le. unfold Qdiv. apply Qmult_le_compat_r; [lra|].
    apply Qlt_le_weak, Qinv_lt_0_compat, Hd. }
  lia.
Qed.

Lemma ocioso_d_desce d M t t' :
  0 < d -> t < M -> t + d <= t' -> (ocioso_d d M t' < ocioso_d d M t)%nat.
Proof.
  intros Hd Hm H. unfold ocioso_d.
  assert (H1 : (1 <= Qceiling ((M - t) / d))%Z).
  { apply Qceiling_positivo. apply Qlt_shift_div_l; lra. }
  assert (H2 : (Qceiling ((M - t') / d) + 1 <= Qceiling ((M - t) / d))%Z).
  { apply Qceiling_desce. apply Qle_shift_div_r; [assumption|].
    assert (E : ((M - t) / d - 1) * d == M - t - d) by (field; lra).
    rewrite E. lra. }
  lia.
Qed.

Arguments ocioso_d : simpl never.

Section TerminacaoSJF.

Variable M : Q.
Variable d : Q.
Hypothesis d_pos : 0 < d.

Record InvSJF_term (s : Estado) : Prop := {
  sjf_chegada : forall a, In a (fila s) -> tempo_chegada (objetos s a) <= M;
  sjf_duracao : forall a, In a (fila s) -> d <= duracao (objetos s a);
  sjf_corrente : forall b, tarefa s = Some b -> d <= duracao (objetos s b);
  sjf_primeira : tarefa s = None -> fila s <> [] ->
                 tarefas_que_chegaram s <> []
}.

Definition medida_sjf (s : Estado) : nat :=
  length (fila s) + ocioso_d d M (tempo_atual s).

Lemma iteracaoSJF_termina s :
  InvSJF_term s -> fila s <> [] ->
  exists s', corpo_sjf s = Continua s'
             /\ InvSJF_term s' /\ (medida_sjf s' < medida_sjf s)%nat.
Proof.
  intros [Hch Hdur Hcor Hpri] Hne.
  destruct (corpo_sjf_iteracao s) as [a Ha|b He Hb|He Hn].
  - apply chegaram_In in Ha. destruct Ha as [Hin Hcheg].
    eexists. split; [reflexivity|]. split.
    + split; autorewrite with tarefa; cbn.
      * intros b Hb. autorewrite with tarefa. cbn.
        apply Hch. eapply remover_In, Hb.
      * intros b Hb. autorewrite with tarefa. cbn.
        apply Hdur. eapply remover_In, Hb.
      * intros b [= <-]. autorewrite with tarefa. cbn. now apply Hdur.
      * discriminate.
    + unfold medida_sjf. autorewrite with tarefa. cbn.
      pose proof (remover_length a (fila s) Hin).
      assert (ocioso_d d M
                (max_py (tempo_atual s) (tempo_chegada (objetos s a))
                 + duracao (objetos s a))
              <= ocioso_d d M (tempo_atual s))%nat.
      { apply ocioso_d_mono; [assumption|].
        pose proof (max_py_ge_l (tempo_atual s) (tempo_chegada (objetos s a))).
        specialize (Hdur a Hin). lra. }
      lia.
  - eexists. split; [reflexivity|]. split.
    + split; autorewrite with tarefa.
      * intros a Ha. autorewrite with tarefa. now apply Hch.
      * intros a Ha. autorewrite with tarefa. now apply Hdur.
      * intros c Hc. autorewrite with tarefa. now apply Hcor.
      * congruence.
    + unfold medida_sjf. autorewrite with tarefa.
      assert (Hex : exists c, In c (fila s)).
      { destruct (fila s) as [|c r]; [congruence|]. exists c. now left. }
      destruct Hex as [c Hc].
      assert (Hlate : tempo_atual s < tempo_chegada (objetos s c)).
      { apply Qnot_le_lt. intro Hle.
        assert (Hin : In c (tarefas_que_chegaram s))
          by (apply chegaram_In; split; assumption).
        rewrite He in Hin. destruct Hin. }
      specialize (Hch c Hc). specialize (Hcor b Hb).
      assert (ocioso_d d M
                (max_py (tempo_atual s) (tempo_chegada (objetos s b))
                 + duracao (objetos s b))
              < ocioso_d d M (tempo_atual s))%nat.
      { apply ocioso_d_desce; [assumption|lra|].
        pose proof (max_py_ge_l (tempo_atual s) (tempo_chegada (objetos s b))).
        lra. }
      lia.
  - now destruct (Hpri Hn Hne).
Qed.

End TerminacaoSJF.

(** A positive lower bound on the durations of a list of tasks. *)
Definition duracao_minima (h : Heap) (l : list nat) : Q :=
  fold_right (fun a m => min_py (duracao (h a)) m) 1 l.

Lemma duracao_minima_le h l a :
  In a l -> duracao_minima h l <= duracao (h a).
Proof.
  induction l as [|x r IH]; simpl; [easy|].
  intros [->|H].
  - apply min_py_le_l.
  - specialize (IH H).
    pose proof (min_py_le_r (duracao (h x)) (duracao_minima h r)). lra.
Qed.

Lemma duracao_minima_pos h l :
  (forall a, In a l -> 0 < duracao (h a)) -> 0 < duracao_minima h l.
Proof.
  induction l as [|x r IH]; simpl; intro H; [reflexivity|].
  destruct (min_py_cases (duracao (h x)) (duracao_minima h r)) as [[_ ->]|[_ ->]].
  - apply H. now left.
  - apply IH. intros a Ha. apply H. now right.
Qed.

(** ** What no iteration changes *)

(** The task list of the scheduler and the attributes fixed at
    construction. *)
Definition mesmos_dados (s s' : Estado) : Prop :=
  tarefas s' = tarefas s
  /\ quantum s' = quantum s
  /\ forall b,
       duracao (objetos s' b) = duracao (objetos s b)
       /\ tempo_chegada (objetos s' b) = tempo_chegada (objetos s b)
       /\ deadline (objetos s' b) = deadline (objetos s b)
       /\ prioridade (objetos s' b) = prioridade (objetos s b).

Lemma mesmos_dados_refl s : mesmos_dados s s.
Proof. repeat split. Qed.

Lemma mesmos_dados_trans s1 s2 s3 :
  mesmos_dados s1 s2 -> mesmos_dados s2 s3 -> mesmos_dados s1 s3.
Proof.
  intros (H1 & H2 & H3) (G1 & G2 & G3). split; [congruence|].
  split; [congruence|]. intro b.
  destruct (H3 b) as (A1 & A2 & A3 & A4).
  destruct (G3 b) as (B1 & B2 & B3 & B4).
  repeat split; congruence.
Qed.

Lemma mesmos_dados_gravar s a t :
  duracao t = duracao (objetos s a) ->
  tempo_chegada t = tempo_chegada (objetos s a) ->
  deadline t = deadline (objetos s a) ->
  prioridade t = prioridade (objetos s a) ->
  forall b,
    duracao (gravar_obj (objetos s) a t b) = duracao (objetos s b)
    /\ tempo_chegada (gravar_obj (objetos s) a t b) = tempo_chegada (objetos s b)
    /\ deadline (gravar_obj (objetos s) a t b) = deadline (objetos s b)
    /\ prioridade (gravar_obj (objetos s) a t b) = prioridade (objetos s b).
Proof.
  intros H1 H2 H3 H4 b. unfold gravar_obj.
  destruct (Nat.eqb b a) eqn:E; [|repeat split].
  apply Nat.eqb_eq in E. subst b. repeat split; assumption.
Qed.

Lemma laco_mesmos_dados (corpo : Estado -> Passo) :
  (forall s, mesmos_dados s (estado_do_passo (corpo s))) ->
  forall n s, mesmos_dados s (estado_de (laco corpo n s)).
Proof.
  intros Hp n s.
  apply (laco_preserva corpo (mesmos_dados s)); [|apply mesmos_dados_refl].
  intros s1 H1. eapply mesmos_dados_trans; [exact H1|apply Hp].
Qed.

Lemma executar_fatia_mesmos_dados s a x qa :
  mesmos_dados s (executar_fatia s a x qa).
Proof.
  split; [reflexivity|]. split; [reflexivity|].
  rewrite executar_fatia_objetos. now apply mesmos_dados_gravar.
Qed.

Lemma finalizar_mesmos_dados u s a : mesmos_dados s (finalizar u s a).
Proof.
  split; [now autorewrite with tarefa|].
  split; [now autorewrite with tarefa|].
  rewrite finalizar_objetos. now apply mesmos_dados_gravar.
Qed.

Lemma iteracao_mesmos_dados escolher conceder s p :
  Iteracao escolher conceder s p -> mesmos_dados s (estado_do_passo p).
Proof.
  intros [He|e He Hesc|a Ha Hr|a e Ha Hr Hc|a x qa u Ha Hr Hc Hfim
         |a x qa u Ha Hr Hc Hfim]; cbn [estado_do_passo];
    try apply mesmos_dados_refl.
  - repeat split.
  - repeat split.
  - split; [reflexivity|]. split; [reflexivity|]. cbn.
    now apply mesmos_dados_gravar.
  - apply (mesmos_dados_trans s (executar_fatia (retirar a s) a x qa));
      [|repeat split].
    apply (mesmos_dados_trans s (retirar a s)); [repeat split|].
    apply executar_fatia_mesmos_dados.
  - apply (mesmos_dados_trans s (executar_fatia (retirar a s) a x qa));
      [|apply finalizar_mesmos_dados].
    apply (mesmos_dados_trans s (retirar a s)); [repeat split|].
    apply executar_fatia_mesmos_dados.
Qed.

Lemma executar_por_completo_mesmos_dados s a :
  mesmos_dados s (executar_por_completo s a).
Proof.
  split; [reflexivity|]. split; [reflexivity|]. intro b.
  destruct (Nat.eq_dec b a) as [->|H].
  - unfold executar_por_completo. cbn. rewrite !gravar_obj_eq. repeat split.
  - rewrite executar_por_completo_outros by assumption. repeat split.
Qed.

Lemma executar_sem_preempcao_mesmos_dados s a :
  mesmos_dados s (executar_sem_preempcao s a).
Proof.
  split; [reflexivity|]. split; [reflexivity|]. intro b.
  destruct (Nat.eq_dec b a) as [->|H].
  - unfold executar_sem_preempcao. cbn. rewrite !gravar_obj_eq. repeat split.
  - rewrite executar_sem_preempcao_outros by assumption. repeat split.
Qed.

Lemma iteracaoNP_mesmos_dados s p :
  IteracaoNP s p -> mesmos_dados s (estado_do_passo p).
Proof.
  intros [He|a Ha]; cbn [estado_do_passo].
  - repeat split.
  - apply (mesmos_dados_trans s (retirar a s)); [repeat split|].
    apply executar_sem_preempcao_mesmos_dados.
Qed.

Lemma iteracaoSJF_mesmos_dados s p :
  IteracaoSJF s p -> mesmos_dados s (estado_do_passo p).
Proof.
  intros [a Ha|b He Hb|He Hn]; cbn [estado_do_passo].
  - apply (mesmos_dados_trans s (retirar a s)); [repeat split|].
    apply executar_por_completo_mesmos_dados.
  - apply executar_por_completo_mesmos_dados.
  - apply mesmos_dados_refl.
Qed.

(** ** The start of a simulation *)

Lemma tarefa_nova_restante t : tarefa_nova t -> tempo_restante t = duracao t.
Proof. intro H. apply (f_equal tempo_restante) in H. exact H. Qed.

Lemma tarefa_nova_final t : tarefa_nova t -> tempo_final t = None.
Proof. intro H. apply (f_equal tempo_final) in H. exact H. Qed.

(** The state in which the loop of [escalonar] is entered. *)
Definition inicial (alg : Algoritmo) (q : Q) (h : Heap) (refs : list nat)
    : Estado :=
  preparar (montado alg q h refs).

Lemma inicial_campos alg q h refs :
  objetos (inicial alg q h refs) = h
  /\ tarefas (inicial alg q h refs)
     = ordenar (fun a => tempo_chegada (h a)) refs
  /\ fila (inicial alg q h refs) = tarefas (inicial alg q h refs)
  /\ tarefa (inicial alg q h refs) = None
  /\ finalizacoes (inicial alg q h refs) = []
  /\ (tem_quantum alg = true ->
      quantum (inicial alg q h refs) = q
      /\ quantum_atual (inicial alg q h refs) = q).
Proof.
  unfold inicial.
  destruct (preparar_campos (montado alg q h refs))
    as (H1 & H2 & H3 & H4 & H5 & H6 & H7 & H8).
  destruct (montado_campos alg q h refs) as (G1 & G2 & G3 & G4 & G5 & G6).
  rewrite H1, H3, H2, H4, H5, H6, H7, G1, G2, G4, G5. repeat split; tauto.
Qed.

Lemma inicial_In alg q h refs a :
  In a (fila (inicial alg q h refs)) <-> In a refs.
Proof.
  destruct (inicial_campos alg q h refs) as (_ & H2 & H3 & _).
  rewrite H3, H2. apply ordenar_In.
Qed.

Lemma inicial_NoDup alg q h refs :
  NoDup refs -> NoDup (fila (inicial alg q h refs)).
Proof.
  destruct (inicial_campos alg q h refs) as (_ & H2 & H3 & _).
  rewrite H3, H2. apply ordenar_NoDup.
Qed.

Lemma inicial_chegou alg q h refs :
  fila (inicial alg q h refs) <> [] ->
  tarefas_que_chegaram (inicial alg q h refs) <> [].
Proof.
  intro Hne.
  destruct (fila (inicial alg q h refs)) as [|a r] eqn:E; [congruence|].
  assert (Hin : In a (tarefas_que_chegaram (inicial alg q h refs))).
  { apply chegaram_In. rewrite E. split; [now left|].
    unfold inicial in *. rewrite (preparar_relogio _ _ _ E).
    destruct (preparar_campos (montado alg q h refs)) as (-> & _).
    apply Qle_refl. }
  intro H. rewrite H in Hin. destruct Hin.
Qed.

Lemma simular_com_quantum alg q h refs n :
  tem_quantum alg = true ->
  simular alg q h refs n
  = laco (corpo_quantum (escolher_de alg) (conceder_de alg)) n
      (inicial alg q h refs).
Proof. intro H. unfold simular. now rewrite escalonar_com_quantum. Qed.

Lemma simular_fifo q h refs n :
  simular FIFO q h refs n
  = Retorna (fold_left executar_por_completo
               (tarefas (inicial FIFO q h refs)) (inicial FIFO q h refs)).
Proof. reflexivity. Qed.

Lemma simular_sjf q h refs n :
  simular SJF q h refs n = laco corpo_sjf n (inicial SJF q h refs).
Proof. reflexivity. Qed.

Lemma simular_np q h refs n :
  simular PrioridadeNP q h refs n
  = laco corpo_prioridade_np n (inicial PrioridadeNP q h refs).
Proof. reflexivity. Qed.

(** Whatever the strategy and however the run stops, the scheduler still
    holds the same tasks, with the attributes they were constructed with. *)
Lemma simular_mesmos_dados alg q h refs n :
  mesmos_dados (inicial alg q h refs) (estado_de (simular alg q h refs n)).
Proof.
  destruct (tem_quantum alg) eqn:Eq.
  - rewrite simular_com_quantum by assumption.
    apply laco_mesmos_dados. intro s.
    apply (iteracao_mesmos_dados (escolher_de alg) (conceder_de alg)).
    apply corpo_quantum_iteracao.
  - destruct alg; try discriminate Eq.
    + rewrite simular_fifo. cbn [estado_de].
      generalize (tarefas (inicial FIFO q h refs)) as l.
      generalize (inicial FIFO q h refs) as s.
      intros s l. revert s. induction l as [|a r IH]; intro s; cbn.
      * apply mesmos_dados_refl.
      * eapply mesmos_dados_trans; [|apply IH].
        apply executar_por_completo_mesmos_dados.
    + rewrite simular_sjf. apply laco_mesmos_dados. intro s.
      apply iteracaoSJF_mesmos_dados, corpo_sjf_iteracao.
    + rewrite simular_np. apply laco_mesmos_dados. intro s.
      apply iteracaoNP_mesmos_dados, corpo_prioridade_np_iteracao.
Qed.

(** ** Runs of the quantum-bounded strategies *)

Lemma corpo_quantum_continua escolher conceder s s' :
  corpo_quantum escolher conceder s = Continua s' ->
  Iteracao escolher conceder s (Continua s').
Proof. intros <-. apply corpo_quantum_iteracao. Qed.

Lemma inicial_Inv alg q h refs : NoDup refs -> Inv (inicial alg q h refs).
Proof.
  intro Hnd.
  destruct (inicial_campos alg q h refs) as (_ & _ & _ & _ & H5 & _).
  split; rewrite ?H5.
  - now apply inicial_NoDup.
  - constructor.
  - easy.
  - easy.
Qed.

Lemma quantum_Inv alg q h refs n :
  tem_quantum alg = true -> NoDup refs ->
  Inv (estado_de (simular alg q h refs n)).
Proof.
  intros Hq Hnd. rewrite simular_com_quantum by assumption.
  apply laco_preserva; [|now apply inicial_Inv].
  intros s Hs.
  exact (iteracao_Inv _ _ (escolher_de_In alg) (conceder_de_le alg) s _
           (corpo_quantum_iteracao _ _ s) Hs).
Qed.

Lemma quantum_Pendentes alg q h refs n s :
  tem_quantum alg = true -> NoDup refs ->
  (forall a, In a refs -> tarefa_nova (h a)) ->
  simular alg q h refs n = Retorna s -> Pendentes s.
Proof.
  intros Hq Hnd Hnova Hret. rewrite simular_com_quantum in Hret by assumption.
  enough (H : Inv s /\ Pendentes s) by tauto.
  apply (laco_preserva_retorno
           (corpo_quantum (escolher_de alg) (conceder_de alg))
           (fun s => Inv s /\ Pendentes s))
    with (n := n) (s := inicial alg q h refs); [| |exact Hret].
  - intros s1 s2 [Hi Hp] Hc. apply corpo_quantum_continua in Hc. split.
    + apply (iteracao_Inv _ _ (escolher_de_In alg) (conceder_de_le alg) _ _ Hc Hi).
    + apply (iteracao_Pendentes _ _ (escolher_de_In alg) _ _ Hc Hi Hp).
  - split; [now apply inicial_Inv|].
    intros a Ha Hdur.
    destruct (inicial_campos alg q h refs) as (H1 & H2 & H3 & _).
    left. rewrite H3. split; [assumption|].
    rewrite H1 in *. rewrite tarefa_nova_restante; [assumption|].
    apply Hnova. rewrite H2 in Ha. now apply ordenar_In in Ha.
Qed.

Lemma inicial_Inv_term alg q h refs :
  tem_quantum alg = true -> NoDup refs ->
  (exige_deadline alg = true -> forall a, In a refs -> deadline (h a) <> None) ->
  Inv_term (exige_deadline alg) q (chegada_maxima h refs)
    (inicial alg q h refs).
Proof.
  intros Hq Hnd Hdl.
  destruct (inicial_campos alg q h refs) as (H1 & H2 & H3 & _ & _ & H6).
  destruct (H6 Hq) as [Hqq Hqa].
  split.
  - assumption.
  - rewrite Hqa. apply Qle_refl.
  - now apply inicial_NoDup.
  - intros a Ha. apply inicial_In in Ha. rewrite H1.
    now apply chegada_maxima_ge.
  - intros a Ha Hex. apply inicial_In in Ha. rewrite H1. now apply Hdl.
Qed.

Lemma quantum_passo alg q M s :
  0 < q -> Inv_term (exige_deadline alg) q M s -> fila s <> [] ->
  exists s', corpo_quantum (escolher_de alg) (conceder_de alg) s = Continua s'
             /\ Inv_term (exige_deadline alg) q M s'
             /\ (medida q M s' < medida q M s)%nat.
Proof.
  intros Hq Hi Hne.
  apply (iteracao_termina (escolher_de alg) (conceder_de alg)
           (escolher_de_In alg) (exige_deadline alg)); try assumption.
  - intros h agora l Hl Hap. apply escolher_de_ok; assumption.
  - intros q0 qa t Hap. apply conceder_de_ok. exact Hap.
  - apply conceder_de_ge.
Qed.

(** With a positive quantum (and deadlines where they are compared), a
    quantum-bounded run returns, and no amount of fuel makes it raise. *)
Lemma quantum_retorna alg q h refs :
  tem_quantum alg = true -> NoDup refs -> 0 < q ->
  (exige_deadline alg = true -> forall a, In a refs -> deadline (h a) <> None) ->
  (exists n s, simular alg q h refs n = Retorna s)
  /\ (forall n e s, simular alg q h refs n <> Aborta e s).
Proof.
  intros Hq Hnd Hpos Hdl.
  pose proof (inicial_Inv_term alg q h refs Hq Hnd Hdl) as Hi.
  split.
  - exists (medida q (chegada_maxima h refs) (inicial alg q h refs)).
    rewrite simular_com_quantum by assumption.
    destruct (laco_retorna
                (corpo_quantum (escolher_de alg) (conceder_de alg))
                (Inv_term (exige_deadline alg) q (chegada_maxima h refs))
                (medida q (chegada_maxima h refs))
                (fun s => quantum_passo alg q _ s Hpos)
                _ _ Hi (Nat.le_refl _)) as (s & Hs & _).
    now exists s.
  - intros n e s. rewrite simular_com_quantum by assumption.
    apply (laco_nao_aborta _
             (Inv_term (exige_deadline alg) q (chegada_maxima h refs)));
      [|assumption].
    intros s1 H1 Hne.
    destruct (quantum_passo alg q _ s1 Hpos H1 Hne) as (s2 & Hc & H2 & _).
    eauto.
Qed.

(** When it returns, every task constructed with a positive duration has
    its finish time. *)
Lemma quantum_finaliza alg q h refs n s :
  tem_quantum alg = true -> NoDup refs ->
  (forall a, In a refs -> tarefa_nova (h a)) ->
  simular alg q h refs n = Retorna s ->
  forall a, In a refs -> 0 < duracao (h a) ->
            In a (finalizacoes s) /\ tempo_final (objetos s a) <> None.
Proof.
  intros Hq Hnd Hnova Hret a Ha Hdur.
  pose proof (quantum_Pendentes alg q h refs n s Hq Hnd Hnova Hret) as Hp.
  pose proof (quantum_Inv alg q h refs n Hq Hnd) as Hi.
  pose proof (simular_mesmos_dados alg q h refs n) as (Ht & _ & Hd).
  rewrite Hret in Hi, Ht, Hd. cbn [estado_de] in *.
  destruct (inicial_campos alg q h refs) as (H1 & H2 & _).
  assert (Hfila : fila s = []).
  { rewrite simular_com_quantum in Hret by assumption.
    eapply laco_retorna_fila_vazia, Hret. }
  destruct (Hp a) as [[Hin _]|Hin].
  - rewrite Ht, H2. now apply ordenar_In.
  - destruct (Hd a) as (-> & _). now rewrite H1.
  - rewrite Hfila in Hin. destruct Hin.
  - split; [assumption|]. now apply (inv_zero s Hi).
Qed.

(** ** Runs of the run-to-completion strategies *)

Lemma fifo_finaliza q h refs :
  let s := EscalonadorFIFO_escalonar (montado FIFO q h refs) in
  finalizacoes s = ordenar (fun a => tempo_chegada (h a)) refs
  /\ (forall a, tempo_restante (objetos s a) = tempo_restante (h a))
  /\ (forall a, In a refs -> tempo_final (objetos s a) <> None).
Proof.
  unfold EscalonadorFIFO_escalonar.
  change (preparar (montado FIFO q h refs)) with (inicial FIFO q h refs).
  destruct (inicial_campos FIFO q h refs) as (H1 & H2 & _ & _ & H5 & _).
  destruct (fifo_percorre (tarefas (inicial FIFO q h refs))
              (inicial FIFO q h refs)) as (G1 & _ & G3 & _ & G5).
  cbn zeta in *. rewrite H5, H2 in G1. cbn in G1. rewrite H1 in G3.
  split; [now rewrite H2|]. split; [assumption|].
  intros a Ha. apply G5. left. rewrite H2. now apply ordenar_In.
Qed.

Lemma corpo_np_continua s s' :
  corpo_prioridade_np s = Continua s' -> IteracaoNP s (Continua s').
Proof. intros <-. apply corpo_prioridade_np_iteracao. Qed.

Lemma inicial_InvNP alg q h refs : NoDup refs -> InvNP (inicial alg q h refs).
Proof.
  intro Hnd.
  destruct (inicial_campos alg q h refs) as (_ & _ & H3 & _ & H5 & _).
  split; rewrite ?H5.
  - now apply inicial_NoDup.
  - constructor.
  - easy.
  - intros a Ha. left. now rewrite H3.
  - easy.
Qed.

Lemma np_Inv q h refs n :
  NoDup refs -> InvNP (estado_de (simular PrioridadeNP q h refs n)).
Proof.
  intro Hnd. rewrite simular_np.
  apply laco_preserva; [|now apply inicial_InvNP].
  intros s Hs.
  exact (iteracaoNP_Inv s _ (corpo_prioridade_np_iteracao s) Hs).
Qed.

Lemma np_retorna q h refs :
  NoDup refs -> (forall a, In a refs -> 0 <= duracao (h a)) ->
  exists n s, simular PrioridadeNP q h refs n = Retorna s.
Proof.
  intros Hnd Hdur.
  destruct (inicial_campos PrioridadeNP q h refs) as (H1 & _).
  set (M := chegada_maxima h refs).
  assert (Hpasso : forall s, InvNP s /\ InvNP_term M s -> fila s <> [] ->
            exists s', corpo_prioridade_np s = Continua s'
                       /\ (InvNP s' /\ InvNP_term M s')
                       /\ (medida_np M s' < medida_np M s)%nat).
  { intros s [Hi Ht] Hne. now apply iteracaoNP_termina. }
  assert (Hini : InvNP (inicial PrioridadeNP q h refs)
                 /\ InvNP_term M (inicial PrioridadeNP q h refs)).
  { split; [now apply inicial_InvNP|].
    split; intros a Ha; apply inicial_In in Ha; rewrite H1.
    - now apply chegada_maxima_ge.
    - now apply Hdur. }
  destruct (laco_retorna corpo_prioridade_np _ (medida_np M) Hpasso _ _ Hini
              (Nat.le_refl _)) as (s & Hs & _).
  rewrite <- simular_np with (q := q) in Hs. eauto.
Qed.

Lemma np_finaliza q h refs n s :
  NoDup refs -> simular PrioridadeNP q h refs n = Retorna s ->
  forall a, In a refs ->
            In a (finalizacoes s) /\ tempo_final (objetos s a) <> None.
Proof.
  intros Hnd Hret a Ha.
  pose proof (np_Inv q h refs n Hnd) as Hi.
  pose proof (simular_mesmos_dados PrioridadeNP q h refs n) as (Ht & _).
  rewrite Hret in Hi, Ht. cbn [estado_de] in *.
  destruct (inicial_campos PrioridadeNP q h refs) as (_ & H2 & _).
  assert (Hfila : fila s = [])
    by (rewrite simular_np in Hret; eapply laco_retorna_fila_vazia, Hret).
  destruct (np_todas s Hi a) as [Hin|Hin].
  - rewrite Ht, H2. now apply ordenar_In.
  - rewrite Hfila in Hin. destruct Hin.
  - split; [assumption|]. now apply (np_final s Hi).
Qed.

Lemma np_restante q h refs n b :
  tempo_restante (objetos (estado_de (simular PrioridadeNP q h refs n)) b)
  = tempo_restante (h b).
Proof.
  rewrite simular_np.
  destruct (inicial_campos PrioridadeNP q h refs) as (H1 & _).
  transitivity (tempo_restante (objetos (inicial PrioridadeNP q h refs) b));
    [|now rewrite H1].
  apply (laco_preserva corpo_prioridade_np
           (fun s => tempo_restante (objetos s b)
                     = tempo_restante (objetos (inicial PrioridadeNP q h refs) b)));
    [|reflexivity].
  intros s Hs. destruct (corpo_prioridade_np_iteracao s) as [He|a Ha];
    cbn [estado_do_passo]; [exact Hs|].
  now autorewrite with tarefa.
Qed.

Lemma sjf_restante q h refs n b :
  tempo_restante (objetos (estado_de (simular SJF q h refs n)) b)
  = tempo_restante (h b).
Proof.
  rewrite simular_sjf.
  destruct (inicial_campos SJF q h refs) as (H1 & _).
  transitivity (tempo_restante (objetos (inicial SJF q h refs) b));
    [|now rewrite H1].
  apply (laco_preserva corpo_sjf
           (fun s => tempo_restante (objetos s b)
                     = tempo_restante (objetos (inicial SJF q h refs) b)));
    [|reflexivity].
  intros s Hs. destruct (corpo_sjf_iteracao s) as [a Ha|c He Hc|He Hn];
    cbn [estado_do_passo]; try exact Hs; now autorewrite with tarefa.
Qed.

Lemma sjf_retorna q h refs :
  (forall a, In a refs -> 0 < duracao (h a)) ->
  exists n s, simular SJF q h refs n = Retorna s
              /\ forall a, In a refs -> tempo_final (objetos s a) <> None.
Proof.
  intros Hdur.
  destruct (inicial_campos SJF q h refs) as (H1 & H2 & H3 & H4 & _).
  pose proof (duracao_minima_pos h refs Hdur) as Hd.
  set (M := chegada_maxima h refs). set (d := duracao_minima h refs) in *.
  assert (Hini : InvSJF_term M d (inicial SJF q h refs)).
  { split.
    - intros a Ha. apply inicial_In in Ha. rewrite H1.
      now apply chegada_maxima_ge.
    - intros a Ha. apply inicial_In in Ha. rewrite H1.
      now apply duracao_minima_le.
    - rewrite H4. discriminate.
    - intros _. apply inicial_chegou. }
  destruct (laco_retorna corpo_sjf _ (medida_sjf M d)
              (iteracaoSJF_termina M d Hd) _ _ Hini (Nat.le_refl _))
    as (s & Hs & _).
  exists (medida_sjf M d (inicial SJF q h refs)), s.
  rewrite simular_sjf. split; [exact Hs|].
  intros a Ha.
  assert (Hfila : fila s = []) by (eapply laco_retorna_fila_vazia, Hs).
  pose proof (simular_mesmos_dados SJF q h refs
                (medida_sjf M d (inicial SJF q h refs))) as (Ht & _).
  rewrite simular_sjf, Hs in Ht. cbn [estado_de] in Ht.
  assert (Htodas : TodasSJF s).
  { apply (laco_preserva_retorno corpo_sjf TodasSJF)
      with (n := medida_sjf M d (inicial SJF q h refs))
           (s := inicial SJF q h refs); [| |exact Hs].
    - intros s1 s2 H12 Hc. apply (iteracaoSJF_Todas s1); [|assumption].
      rewrite <- Hc. apply corpo_sjf_iteracao.
    - intros b Hb. left. now rewrite H3. }
  destruct (Htodas a) as [Hin|Hin]; [| |assumption].
  - rewrite Ht, H2. now apply ordenar_In.
  - rewrite Hfila in Hin. destruct Hin.
Qed.

(** * The claims *)

Lemma lista_nao_cresce {A : Type} (l : list A) (b : A) : l <> l ++ [b].
Proof.
  intro H. apply (f_equal (@length A)) in H.
  rewrite length_app in H. simpl in H. lia.
Qed.

(** ** The bursts of a task and its duration *)

Definition soma_lista (l : list (Q * Q)) : Q :=
  fold_right (fun b acc => (snd b - fst b) + acc) 0 l.

Lemma soma_lista_app l b :
  soma_lista (l ++ [b]) == soma_lista l + (snd b - fst b).
Proof.
  induction l as [|x r IH]; simpl.
  - lra.
  - rewrite IH. lra.
Qed.

(** In the quantum-bounded loops, what a task has run and what it has left
    add up to its duration. *)
Definition balanco (s : Estado) (b : nat) : Prop :=
  soma_execucoes (objetos s b) + tempo_restante (objetos s b)
  == duracao (objetos s b).

Lemma executar_fatia_balanco s a x qa b :
  balanco s b -> balanco (executar_fatia s a x qa) b.
Proof.
  unfold balanco. intro H. rewrite executar_fatia_objetos.
  unfold gravar_obj. destruct (Nat.eqb b a) eqn:E; [|exact H].
  apply Nat.eqb_eq in E. subst b.
  unfold soma_execucoes in *. autorewrite with tarefa.
  change (fold_right (fun b acc => snd b - fst b + acc) 0) with soma_lista in *.
  rewrite soma_lista_app. cbn [fst snd]. lra.
Qed.

Lemma iteracao_balanco escolher conceder s p b :
  Iteracao escolher conceder s p -> balanco s b ->
  balanco (estado_do_passo p) b.
Proof.
  intros Hit Hb.
  destruct Hit as [He|e He Hesc|a Ha Hr|a e Ha Hr Hc|a x qa u Ha Hr Hc Hf
                  |a x qa u Ha Hr Hc Hf]; cbn [estado_do_passo];
    try exact Hb.
  - unfold balanco in *. cbn. unfold gravar_obj.
    destruct (Nat.eqb b a) eqn:E; [|exact Hb].
    apply Nat.eqb_eq in E. subst b. unfold soma_execucoes in *.
    now autorewrite with tarefa.
  - apply (executar_fatia_balanco (retirar a s) a x qa b) in Hb.
    unfold balanco in *. now autorewrite with tarefa.
  - apply (executar_fatia_balanco (retirar a s) a x qa b) in Hb.
    unfold balanco in *. autorewrite with tarefa.
    unfold gravar_obj. destruct (Nat.eqb b a) eqn:E; [|exact Hb].
    apply Nat.eqb_eq in E. subst b. exact Hb.
Qed.

(** In the run-to-completion loops, every dispatch adds one burst as long
    as the duration: the bursts of a task add up to its duration times the
    number of its dispatches. *)
Definition balanco_completo (s : Estado) (b : nat) : Prop :=
  soma_execucoes (objetos s b)
  == inject_Z (Z.of_nat (atribuicoes_de_final s b)) * duracao (objetos s b).

Lemma atribuicoes_de_final_app l a b :
  count_occ Nat.eq_dec (l ++ [a]) b
  = (count_occ Nat.eq_dec l b + (if Nat.eqb b a then 1 else 0))%nat.
Proof.
  rewrite count_occ_app. simpl.
  destruct (Nat.eq_dec a b) as [->|Hne].
  - now rewrite Nat.eqb_refl.
  - destruct (Nat.eqb b a) eqn:E; [|reflexivity].
    apply Nat.eqb_eq in E. congruence.
Qed.

Lemma inject_Z_succ n : inject_Z (Z.of_nat (n + 1)) == inject_Z (Z.of_nat n) + 1.
Proof.
  rewrite Nat2Z.inj_add, inject_Z_plus. reflexivity.
Qed.

Lemma executar_por_completo_balanco s a b :
  balanco_completo s b -> balanco_completo (executar_por_completo s a) b.
Proof.
  unfold balanco_completo, atribuicoes_de_final. intro H.
  rewrite executar_por_completo_finalizacoes, atribuicoes_de_final_app.
  rewrite executar_por_completo_duracao.
  destruct (Nat.eqb b a) eqn:E.
  - apply Nat.eqb_eq in E. subst b. unfold soma_execucoes in *.
    rewrite executar_por_completo_execucoes.
    change (fold_right (fun b acc => snd b - fst b + acc) 0) with soma_lista in *.
    rewrite soma_lista_app, inject_Z_succ, H. cbn [fst snd]. lra.
  - apply Nat.eqb_neq in E.
    rewrite executar_por_completo_outros by assumption.
    now rewrite Nat.add_0_r.
Qed.

Lemma executar_sem_preempcao_balanco s a b :
  balanco_completo s b -> balanco_completo (executar_sem_preempcao s a) b.
Proof.
  unfold balanco_completo, atribuicoes_de_final. intro H.
  rewrite executar_sem_preempcao_finalizacoes, atribuicoes_de_final_app.
  rewrite executar_sem_preempcao_duracao.
  destruct (Nat.eqb b a) eqn:E.
  - apply Nat.eqb_eq in E. subst b. unfold soma_execucoes in *.
    rewrite executar_sem_preempcao_execucoes.
    change (fold_right (fun b acc => snd b - fst b + acc) 0) with soma_lista in *.
    rewrite soma_lista_app, inject_Z_succ, H. cbn [fst snd]. lra.
  - apply Nat.eqb_neq in E.
    rewrite executar_sem_preempcao_outros by assumption.
    now rewrite Nat.add_0_r.
Qed.

Lemma inicial_sem_execucoes alg q h refs a :
  tarefa_nova (h a) ->
  tempos_execucao (objetos (inicial alg q h refs) a) = []
  /\ tempo_restante (objetos (inicial alg q h refs) a) = duracao (h a)
  /\ duracao (objetos (inicial alg q h refs) a) = duracao (h a).
Proof.
  intro Hn. destruct (inicial_campos alg q h refs) as (-> & _).
  split; [|split; [now apply tarefa_nova_restante|reflexivity]].
  apply (f_equal tempos_execucao) in Hn. exact Hn.
Qed.

(** The property of C1 holds for every strategy but SJF: when the run
    returns, the bursts of every task constructed with a positive duration
    add up to that duration. *)
Lemma soma_das_execucoes_fora_do_sjf alg q h refs n s :
  alg <> SJF -> NoDup refs ->
  (forall a, In a refs -> tarefa_nova (h a) /\ 0 < duracao (h a)) ->
  simular alg q h refs n = Retorna s ->
  forall a, In a refs -> soma_execucoes (objetos s a) == duracao (h a).
Proof.
  intros Halg Hnd Hts Hret a Ha.
  destruct (Hts a Ha) as [Hnova Hdur].
  destruct (inicial_sem_execucoes alg q h refs a Hnova) as (E1 & E2 & E3).
  pose proof (simular_mesmos_dados alg q h refs n) as (_ & _ & Hd).
  rewrite Hret in Hd. cbn [estado_de] in Hd. destruct (Hd a) as (Hda & _).
  rewrite E3 in Hda.
  destruct (tem_quantum alg) eqn:Etq.
  - assert (Hb : balanco s a).
    { pose proof (laco_preserva
                    (corpo_quantum (escolher_de alg) (conceder_de alg))
                    (fun s => balanco s a)
                    (fun s Hs => iteracao_balanco _ _ s _ a
                                   (corpo_quantum_iteracao _ _ s) Hs)
                    n (inicial alg q h refs)) as Hl.
      rewrite <- simular_com_quantum, Hret in Hl by assumption.
      apply Hl. unfold balanco, soma_execucoes. rewrite E1, E2, E3. cbn. lra. }
    pose proof (quantum_Inv alg q h refs n Etq Hnd) as Hi.
    rewrite Hret in Hi. cbn [estado_de] in Hi.
    destruct (quantum_finaliza alg q h refs n s Etq Hnd
                (fun b Hb' => proj1 (Hts b Hb')) Hret a Ha Hdur) as [Hfin _].
    destruct (inv_zero s Hi a Hfin) as [Hz _].
    unfold balanco in Hb. rewrite Hda in Hb. lra.
  - assert (Hb : balanco_completo s a /\ atribuicoes_de_final s a = 1%nat).
    { destruct alg; try discriminate Etq; try congruence.
      - rewrite simular_fifo in Hret. injection Hret as <-. split.
        + generalize (tarefas (inicial FIFO q h refs)).
          assert (H0 : balanco_completo (inicial FIFO q h refs) a).
          { unfold balanco_completo, soma_execucoes, atribuicoes_de_final.
            rewrite E1.
            destruct (inicial_campos FIFO q h refs) as (_ & _ & _ & _ & -> & _).
            cbn [fold_right count_occ Z.of_nat].
            now rewrite Qmult_0_l. }
          revert H0. generalize (inicial FIFO q h refs).
          intros s0 H0 l. revert s0 H0.
          induction l as [|x r IH]; intros s0 H0; cbn; [exact H0|].
          apply IH. now apply executar_por_completo_balanco.
        + change (fold_left executar_por_completo
                    (tarefas (inicial FIFO q h refs)) (inicial FIFO q h refs))
            with (EscalonadorFIFO_escalonar (montado FIFO q h refs)).
          destruct (fifo_finaliza q h refs) as (H1 & _).
          unfold atribuicoes_de_final. apply NoDup_count_occ'.
          * rewrite H1. now apply ordenar_NoDup.
          * rewrite H1. now apply ordenar_In.
      - split.
        + pose proof (laco_preserva corpo_prioridade_np
                        (fun s => balanco_completo s a)) as Hl.
          rewrite simular_np in Hret.
          specialize (Hl (fun s0 Hs0 =>
                            match corpo_prioridade_np_iteracao s0 in IteracaoNP _ p
                                  return balanco_completo (estado_do_passo p) a
                            with
                            | NP_ociosa _ _ => Hs0
                            | NP_despacho _ c _ =>
                                executar_sem_preempcao_balanco (retirar c s0) c a Hs0
                            end)
                        n (inicial PrioridadeNP q h refs)).
          rewrite Hret in Hl. apply Hl.
          unfold balanco_completo, soma_execucoes, atribuicoes_de_final.
          rewrite E1.
          destruct (inicial_campos PrioridadeNP q h refs)
            as (_ & _ & _ & _ & -> & _).
          cbn [fold_right count_occ Z.of_nat].
          now rewrite Qmult_0_l.
        + pose proof (np_Inv q h refs n Hnd) as Hi.
          rewrite Hret in Hi. cbn [estado_de] in Hi.
          unfold atribuicoes_de_final.
          apply NoDup_count_occ'; [exact (np_fin _ Hi)|].
          now apply (np_finaliza q h refs n s). }
    destruct Hb as [Hb H1]. unfold balanco_completo in Hb.
    rewrite H1, Hda in Hb. rewrite Hb.
    change (inject_Z (Z.of_nat 1)) with 1. now rewrite Qmult_1_l.
Qed.

(** ** The waiting time added by a dispatch *)

(** What every quantum-bounded dispatch adds to [tempo_em_espera]: the
    start of the burst minus the end of the previous burst of the task,
    or minus 0 when the task has not run yet. *)
Lemma iteracao_espera escolher conceder s s' a b :
  Iteracao escolher conceder s (Continua s') ->
  executou s s' a b ->
  tempo_em_espera (objetos s' a)
  = tempo_em_espera (objetos s a)
    + (fst b - match tempo_final_execucao_atual (objetos s a) with
               | Some f => f
               | None => 0
               end).
Proof.
  intros Hit Hex. unfold executou in Hex.
  remember (Continua s') as p eqn:Ep.
  destruct Hit as [He|e He Hesc|c Hc Hrc|c e Hc Hrc Hcon|c x qa u Hc Hrc Hcon Hf
                  |c x qa u Hc Hrc Hcon Hf]; inversion Ep; subst s'; clear Ep.
  - cbn in Hex. now apply lista_nao_cresce in Hex.
  - cbn in Hex. now apply lista_nao_cresce in Hex.
  - autorewrite with tarefa in *.
    destruct (Nat.eq_dec a c) as [->|Hne].
    + rewrite executar_fatia_objetos, gravar_obj_eq in *.
      autorewrite with tarefa in *. cbn in *.
      apply app_inv_head in Hex. injection Hex as <-. reflexivity.
    + rewrite executar_fatia_outros in Hex by assumption. cbn in Hex.
      now apply lista_nao_cresce in Hex.
  - autorewrite with tarefa in *.
    destruct (Nat.eq_dec a c) as [->|Hne].
    + rewrite gravar_obj_eq in *. cbn in *.
      rewrite executar_fatia_objetos, gravar_obj_eq in *.
      autorewrite with tarefa in *. cbn in *.
      apply app_inv_head in Hex. injection Hex as <-. reflexivity.
    + rewrite gravar_obj_neq in Hex by assumption.
      rewrite executar_fatia_outros in Hex by assumption. cbn in Hex.
      now apply lista_nao_cresce in Hex.
Qed.

(** ** C1: bursts and duration *)

(** C1 (code defect).  The claim: after [escalonar] returns, the lengths of
    the bursts of every task add up to its duration.  [EscalonadorSJF]
    breaks it: with A(duration 2, arrival 0) and B(duration 1, arrival 5)
    the queue holds only B after A ran, B has not arrived, the [if] that
    picks a task is skipped and the body runs again on A, twice, until the
    clock passes 5.  A ends with the bursts [0,2), [2,4), [4,6): 6 time
    units for a duration of 2. *)
Theorem C1_sjf_reexecuta_tarefa_anterior :
  let r := simular SJF 0 cenario_sjf [0; 1]%nat 4 in
  desfecho r = Retornou
  /\ mesmas_execucoes (tempos_execucao (objetos (estado_de r) 0%nat))
       [(0, 2); (2, 4); (4, 6)]
  /\ duracao (objetos (estado_de r) 0%nat) == 2
  /\ soma_execucoes (objetos (estado_de r) 0%nat) == 6
  /\ ~ soma_execucoes (objetos (estado_de r) 0%nat)
       == duracao (objetos (estado_de r) 0%nat).
Proof.
  vm_compute. split; [reflexivity|]. split; [repeat constructor|].
  split; [reflexivity|]. split; [reflexivity|]. discriminate.
Qed.

(** ** C2: the non-preemptive priority pick *)

(** What [EscalonadorPrioridadeNP] picks: the first task of the arrived
    list sorted in descending order, a task of maximum priority value. *)
Lemma ordenar_rev_primeiro_maximo chave l a :
  primeiro (ordenar_rev chave l) = Ok a ->
  forall b, In b l -> chave b <= chave a.
Proof.
  revert a. induction l as [|x r IH]; intros a Ha b Hb; [destruct Hb|].
  simpl in Ha. destruct (ordenar_rev chave r) as [|y r'] eqn:E.
  - assert (r = []).
    { apply (f_equal (@length nat)) in E.
      assert (Hl : forall l', length (ordenar_rev chave l') = length l').
      { induction l' as [|z l' IHl]; simpl; [reflexivity|].
        rewrite <- IHl. generalize (ordenar_rev chave l') as m.
        induction m as [|w m IHm]; simpl; [reflexivity|].
        destruct (Qle_bool (chave w) (chave z)); simpl; congruence. }
      rewrite Hl in E. now destruct r. }
    subst r. simpl in Ha. injection Ha as <-.
    destruct Hb as [->|[]]. apply Qle_refl.
  - simpl in Ha. specialize (IH y eq_refl).
    destruct (Qle_bool (chave y) (chave x)) eqn:Ec; simpl in Ha;
      injection Ha as <-.
    + apply Qle_bool_iff in Ec. destruct Hb as [->|Hb]; [apply Qle_refl|].
      specialize (IH b Hb). lra.
    + apply Qle_bool_false in Ec. destruct Hb as [->|Hb]; [lra|].
      now apply IH.
Qed.

(** C2 (code defect).  The claim: the non-preemptive priority scheduler
    picks a task of minimum priority value among the arrived ones (lower
    number = more urgent, as the class docstring says) and runs it to
    completion in one burst.  The code sorts with [reverse=True] and takes
    the first element: with A (priority 1) and B (priority 2) both arrived
    at 0, B runs first, over [0,1), and A waits until 1. *)
Theorem C2_prioridade_np_escolhe_maior_valor :
  let r := simular PrioridadeNP 0 cenario_prioridade [0; 1]%nat 2 in
  desfecho r = Retornou
  /\ prioridade (objetos (estado_de r) 0%nat) = 1%Z
  /\ prioridade (objetos (estado_de r) 1%nat) = 2%Z
  /\ finalizacoes (estado_de r) = [1; 0]%nat
  /\ mesmas_execucoes (tempos_execucao (objetos (estado_de r) 1%nat)) [(0, 1)]
  /\ mesmas_execucoes (tempos_execucao (objetos (estado_de r) 0%nat)) [(1, 2)].
Proof.
  vm_compute. repeat split; repeat constructor.
Qed.

(** ** C3: the Round-Robin scenario *)

(** In every quantum-bounded loop, an iteration that gives a task a burst
    and leaves it with time to run charges the overhead once, to the clock
    (which then stands at the end of the burst plus the overhead) and to
    the accumulator. *)
Lemma iteracao_sobrecarga escolher conceder s s' a b :
  Iteracao escolher conceder s (Continua s') ->
  executou s s' a b ->
  0 < tempo_restante (objetos s' a) ->
  tempo_atual s' == snd b + sobrecarga_preempcao
  /\ sobrecarga_total s' == sobrecarga_total s + sobrecarga_preempcao.
Proof.
  intros Hit Hex Hr. unfold executou in Hex.
  remember (Continua s') as p eqn:Ep.
  destruct Hit as [He|e He Hesc|c Hc Hrc|c e Hc Hrc Hcon|c x qa u Hc Hrc Hcon Hf
                  |c x qa u Hc Hrc Hcon Hf]; inversion Ep; subst s'; clear Ep.
  - cbn in Hex. now apply lista_nao_cresce in Hex.
  - cbn in Hex. now apply lista_nao_cresce in Hex.
  - autorewrite with tarefa in *.
    destruct (Nat.eq_dec a c) as [->|Hne].
    + rewrite executar_fatia_objetos, gravar_obj_eq in Hex.
      autorewrite with tarefa in Hex. cbn in Hex.
      apply app_inv_head in Hex. injection Hex as <-. cbn. split; reflexivity.
    + rewrite executar_fatia_outros in Hex by assumption. cbn in Hex.
      now apply lista_nao_cresce in Hex.
  - autorewrite with tarefa in *.
    destruct (Nat.eq_dec a c) as [->|Hne].
    + rewrite gravar_obj_eq in Hr. cbn in Hr.
      autorewrite with tarefa in Hr. cbn in Hr. lra.
    + rewrite gravar_obj_neq in Hex by assumption.
      rewrite executar_fatia_outros in Hex by assumption. cbn in Hex.
      now apply lista_nao_cresce in Hex.
Qed.

(** The burst sequence that the specification expects of the scenario. *)
Definition cenario_rr_como_especificado (s : Estado) : Prop :=
  mesmas_execucoes (tempos_execucao (objetos s 0%nat))
    [(0, 2); (4, 6); (73 # 10, 83 # 10)]
  /\ mesmas_execucoes (tempos_execucao (objetos s 1%nat))
       [(2, 4); (63 # 10, 73 # 10)]
  /\ mesmo_tempo (tempo_final (objetos s 1%nat)) (Some (73 # 10))
  /\ mesmo_tempo (tempo_final (objetos s 0%nat)) (Some (83 # 10)).

(** C3, as stated, fails: the first burst of A already leaves it with time
    to run, so the overhead is charged at once and B starts at 2.3, not at
    2. *)
Lemma C3_cenario_especificado_nao_ocorre :
  ~ cenario_rr_como_especificado
      (estado_de (simular RoundRobin 2 cenario_rr [0; 1]%nat 5)).
Proof.
  intros (_ & H & _). vm_compute in H.
  inversion H as [|x y l m [Hx _] _]. vm_compute in Hx. discriminate Hx.
Qed.

(** C3 (amended).  Round-Robin with quantum 2 on A(duration 5, arrival 0)
    and B(duration 3, arrival 0) returns after five bursts, in the order
    A, B, A, B, A, which last 2, 2, 2, 1 and 1.  The first three leave
    their task with time to run and are followed by the overhead, which
    is added to the clock and to the accumulator; the fourth finishes B
    and the fifth finishes A.  Every instant is the sum that the code
    computes, in the order in which it computes it: [t1] to [t8] below
    (2, 2.3, 4.3, 4.6, 6.6, 6.9, 7.9 and 8.9 before any rounding of the
    sums), and the accumulated overhead is the overhead added three times
    to 0.  And in every iteration of the loop, a burst that leaves its task
    with remaining time is followed by the fixed overhead, added to the
    clock and to the accumulator. *)
Theorem C3_round_robin_cenario_e_sobrecarga :
  (let s := estado_de (simular RoundRobin 2 cenario_rr [0; 1]%nat 5) in
   let sp := sobrecarga_preempcao in
   let t1 := 0 + 2 in
   let t2 := t1 + sp in
   let t3 := t2 + 2 in
   let t4 := t3 + sp in
   let t5 := t4 + 2 in
   let t6 := t5 + sp in
   let t7 := t6 + 1 in
   let t8 := t7 + 1 in
   desfecho (simular RoundRobin 2 cenario_rr [0; 1]%nat 5) = Retornou
   /\ mesmas_execucoes (tempos_execucao (objetos s 0%nat))
        [(0, t1); (t4, t5); (t7, t8)]
   /\ mesmas_execucoes (tempos_execucao (objetos s 1%nat))
        [(t2, t3); (t6, t7)]
   /\ mesmo_tempo (tempo_final (objetos s 1%nat)) (Some t7)
   /\ mesmo_tempo (tempo_final (objetos s 0%nat)) (Some t8)
   /\ sobrecarga_total s == 0 + sp + sp + sp)
  /\ (forall s s' a b,
        corpo_quantum escolher_rr conceder_fixo s = Continua s' ->
        executou s s' a b ->
        0 < tempo_restante (objetos s' a) ->
        tempo_atual s' == snd b + sobrecarga_preempcao
        /\ sobrecarga_total s' == sobrecarga_total s + sobrecarga_preempcao).
Proof.
  split.
  - vm_compute. repeat split; repeat constructor.
  - intros s s' a b Hc. apply corpo_quantum_continua in Hc.
    exact (iteracao_sobrecarga _ _ s s' a b Hc).
Qed.

Lemma C3_round_robin_witness :
  let s := inicial RoundRobin 2 cenario_rr [0; 1]%nat in
  let s' := estado_do_passo (corpo_quantum escolher_rr conceder_fixo s) in
  tempo_atual s' == snd (0, 2) + sobrecarga_preempcao
  /\ sobrecarga_total s' == sobrecarga_total s + sobrecarga_preempcao.
Proof.
  cbv zeta.
  apply (proj2 C3_round_robin_cenario_e_sobrecarga
           (inicial RoundRobin 2 cenario_rr [0; 1]%nat) _ 0%nat (0, 2)).
  - vm_compute. reflexivity.
  - vm_compute. reflexivity.
  - vm_compute. reflexivity.
Defined.

(** ** C4: the assignment of the finish time *)

(** C4 (code defect).  The claim: the finish time of a task is assigned
    exactly once, and at that moment its remaining time is 0.
    [tempo_restante] is, in the words of the source, the time left to
    complete the task, decremented as the task runs, and the
    quantum-bounded loops do decrement it.  [EscalonadorFIFO] and
    [EscalonadorPrioridadeNP] run a task to its end and assign
    [tempo_final] without ever writing [tempo_restante]: a task of
    duration 1, run over [0,1), is finished at 1 with 1 still left to
    run. *)
Theorem C4_fifo_finaliza_com_restante :
  let r := simular FIFO 0 cenario_unitario [0]%nat 0 in
  let r' := simular PrioridadeNP 0 cenario_unitario [0]%nat 1 in
  let t := objetos (estado_de r) 0%nat in
  let t' := objetos (estado_de r') 0%nat in
  (desfecho r = Retornou
   /\ mesmas_execucoes (tempos_execucao t) [(0, 1)]
   /\ mesmo_tempo (tempo_final t) (Some 1)
   /\ atribuicoes_de_final (estado_de r) 0%nat = 1%nat
   /\ tempo_restante t == 1
   /\ ~ finalizadas_sem_restante (estado_de r))
  /\ (desfecho r' = Retornou
      /\ mesmas_execucoes (tempos_execucao t') [(0, 1)]
      /\ mesmo_tempo (tempo_final t') (Some 1)
      /\ atribuicoes_de_final (estado_de r') 0%nat = 1%nat
      /\ tempo_restante t' == 1
      /\ ~ finalizadas_sem_restante (estado_de r')).
Proof.
  cbv zeta. split.
  - split; [vm_compute; reflexivity|].
    split; [vm_compute; repeat constructor|].
    split; [vm_compute; reflexivity|]. split; [vm_compute; reflexivity|].
    split; [vm_compute; reflexivity|].
    intro H. specialize (H 0%nat). vm_compute in H.
    specialize (H (or_introl eq_refl)). discriminate H.
  - split; [vm_compute; reflexivity|].
    split; [vm_compute; repeat constructor|].
    split; [vm_compute; reflexivity|]. split; [vm_compute; reflexivity|].
    split; [vm_compute; reflexivity|].
    intro H. specialize (H 0%nat). vm_compute in H.
    specialize (H (or_introl eq_refl)). discriminate H.
Qed.

(** ** C5: validation at admission and construction *)

(** C5, as stated, fails: a task of duration -1 is admitted, and the task
    set changes. *)
Lemma C5_tarefa_negativa_admitida :
  duracao (cenario_duracao_negativa 0%nat) < 0
  /\ tarefas (adicionar_tarefa (EscalonadorCAV_init cenario_duracao_negativa) 0%nat)
     <> tarefas (EscalonadorCAV_init cenario_duracao_negativa).
Proof. split; [reflexivity|discriminate]. Qed.

(** With a quantum that is not positive, Round-Robin never finishes a task
    that has time to run: the task stays in the queue. *)
Definition ha_pendente (s : Estado) : Prop :=
  exists a, In a (fila s) /\ 0 < tempo_restante (objetos s a).

Lemma rr_quantum_nao_positivo_passo q s :
  q <= 0 -> quantum s = q -> ha_pendente s ->
  exists s', corpo_quantum escolher_rr conceder_fixo s = Continua s'
             /\ quantum s' = q /\ ha_pendente s'.
Proof.
  intros Hq Hqs (a & Ha & Hr).
  pose proof (iteracao_mesmos_dados _ _ _ _
                (corpo_quantum_iteracao escolher_rr conceder_fixo s))
    as (_ & Hqq & _).
  destruct (corpo_quantum_iteracao escolher_rr conceder_fixo s)
    as [He|e He Hesc|c Hc Hrc|c e Hc Hrc Hcon|c x qa u Hc Hrc Hcon Hf
       |c x qa u Hc Hrc Hcon Hf]; cbn [estado_do_passo] in Hqq.
  - eexists. split; [reflexivity|]. split; [congruence|]. exists a. auto.
  - unfold escolher_rr in Hesc.
    destruct (primeiro_ok _ He) as [c Hc]. congruence.
  - eexists. split; [reflexivity|]. split; [congruence|].
    exists a. cbn. split; [|assumption].
    apply remover_In_neq; [|assumption]. intros ->. lra.
  - unfold concedido, conceder_fixo in Hcon. discriminate Hcon.
  - eexists. split; [reflexivity|]. split; [congruence|].
    exists c. autorewrite with tarefa. split; [|exact Hf].
    apply reinserir_In. now left.
  - exfalso. unfold concedido, conceder_fixo in Hcon.
    injection Hcon as <- _ _. autorewrite with tarefa in Hf.
    rewrite Hqs in Hf.
    destruct (min_py_cases (tempo_restante (objetos s c)) q)
      as [[H1 H2]|[H1 H2]]; rewrite H2 in Hf; lra.
Qed.

Lemma rr_quantum_nao_positivo q n : forall s,
  q <= 0 -> quantum s = q -> ha_pendente s ->
  desfecho (laco (corpo_quantum escolher_rr conceder_fixo) n s) = Esgotou.
Proof.
  induction n as [|n IH]; intros s Hq Hqs Hp; simpl.
  - destruct Hp as (a & Ha & _). now destruct (fila s).
  - destruct (rr_quantum_nao_positivo_passo q s Hq Hqs Hp)
      as (s' & Hc & Hqs' & Hp').
    destruct Hp as (a & Ha & _).
    destruct (fila s); [destruct Ha|]. rewrite Hc. now apply IH.
Qed.

(** C5 (amended).  [adicionar_tarefa] validates nothing: whatever the
    duration and the arrival of the task, its reference is appended to the
    task set and no object is touched; the constructors store any quantum,
    positive or not, as it is.  Nothing is raised for a non-positive
    quantum during the run either: as long as a task with time to run is
    in the task set, Round-Robin neither raises nor returns. *)
Theorem C5_admissao_sem_validacao :
  (forall s a,
     tarefas (adicionar_tarefa s a) = tarefas s ++ [a]
     /\ objetos (adicionar_tarefa s a) = objetos s)
  /\ (forall h q,
        quantum (Escalonador_init_quantum h q) = q
        /\ quantum_atual (Escalonador_init_quantum h q) = q)
  /\ (forall q h refs a n,
        q <= 0 -> In a refs -> 0 < tempo_restante (h a) ->
        desfecho (simular RoundRobin q h refs n) = Esgotou).
Proof.
  split; [|split].
  - intros s a. destruct (adicionar_tarefa_campos s a) as (H1 & H2 & _).
    now split.
  - intros h q. split; reflexivity.
  - intros q h refs a n Hq Ha Hr.
    rewrite simular_com_quantum by reflexivity.
    destruct (inicial_campos RoundRobin q h refs) as (H1 & _ & _ & _ & _ & H6).
    apply (rr_quantum_nao_positivo q); [assumption|now apply H6|].
    exists a. split; [now apply inicial_In|now rewrite H1].
Qed.

Lemma C5_admissao_witness :
  desfecho (simular RoundRobin 0 cenario_unitario [0]%nat 7) = Esgotou.
Proof.
  apply (proj2 (proj2 C5_admissao_sem_validacao) 0 cenario_unitario
           [0]%nat 0%nat 7%nat).
  - vm_compute. discriminate.
  - simpl. auto.
  - vm_compute. reflexivity.
Defined.

(** ** C6: missing deadlines *)

(** C6, as stated, fails: a task without deadline makes the
    adaptive-quantum scheduler raise [TypeError] at its first dispatch, and
    makes EDF raise it as soon as two arrived tasks are sorted. *)
Lemma C6_deadline_ausente_levanta :
  desfecho (simular (UG urg_max_padrao) 2 cenario_unitario [0]%nat 1)
  = Abortou TypeError
  /\ desfecho (simular EDF 2 cenario_rr [0; 1]%nat 1) = Abortou TypeError.
Proof. vm_compute. split; reflexivity. Qed.

(** While the queued tasks have the deadlines that the strategy compares,
    no iteration raises. *)
Section SemLevantar.

Variable escolher : Heap -> Q -> list nat -> Resultado nat.
Variable conceder : Q -> Q -> TarefaCAV -> Resultado (Q * Q * bool).
Variable exige : bool.

Hypothesis escolher_In :
  forall h agora l a, escolher h agora l = Ok a -> In a l.
Hypothesis escolher_ok :
  forall h agora l,
    l <> [] -> (forall a, In a l -> apta exige (h a)) ->
    exists a, escolher h agora l = Ok a.
Hypothesis conceder_ok :
  forall q qa t, apta exige t -> exists r, conceder q qa t = Ok r.

Definition aptas (s : Estado) : Prop :=
  forall a, In a (fila s) -> apta exige (objetos s a).

Lemma iteracao_aptas s p :
  Iteracao escolher conceder s p -> aptas s ->
  exists s', p = Continua s' /\ aptas s'.
Proof.
  intros Hit Hap.
  assert (Hpres : aptas (estado_do_passo p)).
  { pose proof (iteracao_mesmos_dados escolher conceder s p Hit)
      as (_ & _ & Hd).
    assert (Hf : forall b, In b (fila (estado_do_passo p)) -> In b (fila s)).
    { destruct Hit as [He|e He Hesc|a Ha Hr|a e Ha Hr Hc
                      |a x qa u Ha Hr Hc Hfim|a x qa u Ha Hr Hc Hfim];
        cbn [estado_do_passo]; intros b; autorewrite with tarefa; cbn;
        intro Hb; try exact Hb; try (eapply remover_In, Hb).
      apply reinserir_In in Hb. destruct Hb as [->|Hb].
      - now apply (escolhida_fila escolher escolher_In).
      - eapply remover_In, Hb. }
    intros b Hb Hex. destruct (Hd b) as (_ & _ & -> & _).
    now apply Hap; [apply Hf|]. }
  destruct Hit as [He|e He Hesc|a Ha Hr|a e Ha Hr Hc
                  |a x qa u Ha Hr Hc Hfim|a x qa u Ha Hr Hc Hfim];
    try (eexists; split; [reflexivity|exact Hpres]).
  - destruct (escolher_ok (objetos s) (tempo_atual s)
                (tarefas_que_chegaram s) He) as [a Ha].
    + intros a Ha. apply Hap. now apply chegaram_In in Ha.
    + congruence.
  - pose proof (escolhida_fila escolher escolher_In _ _ Ha) as Hin.
    destruct (conceder_ok (quantum s) (quantum_atual s)
                (iniciar_execucao (tempo_atual s) (objetos s a))) as [r Hr'].
    + intro Hex. autorewrite with tarefa. now apply Hap.
    + unfold concedido in Hc. congruence.
Qed.

End SemLevantar.

(** With deadlines where they are compared, a quantum-bounded run never
    raises, whatever the quantum. *)
Lemma quantum_nao_levanta alg q h refs :
  tem_quantum alg = true ->
  (exige_deadline alg = true -> forall a, In a refs -> deadline (h a) <> None) ->
  forall n e s, simular alg q h refs n <> Aborta e s.
Proof.
  intros Hq Hdl n e s. rewrite simular_com_quantum by assumption.
  apply (laco_nao_aborta _ (aptas (exige_deadline alg))).
  - intros s1 H1 _.
    apply (iteracao_aptas (escolher_de alg) (conceder_de alg)
             (exige_deadline alg) (escolher_de_In alg)) with (s := s1);
      try assumption.
    + intros h0 agora l Hl Hap. apply escolher_de_ok; assumption.
    + intros q0 qa t Hap. apply conceder_de_ok. exact Hap.
    + apply corpo_quantum_iteracao.
  - intros a Ha Hex. apply inicial_In in Ha.
    destruct (inicial_campos alg q h refs) as (-> & _). now apply Hdl.
Qed.

(** The dispatch of a task without deadline by [EscalonadorUG]. *)
Lemma ug_sem_deadline_levanta urg_max s a :
  escolhida escolher_prioridade_p s a ->
  0 < tempo_restante (objetos s a) ->
  deadline (objetos s a) = None ->
  exists s',
    corpo_quantum escolher_prioridade_p (conceder_ug urg_max) s
    = Levanta TypeError s'.
Proof.
  intros [Ha Hne] Hr Hd.
  assert (Hc : forall b,
            b = a ->
            conceder_ug urg_max (quantum s) (quantum_atual s)
              (iniciar_execucao (tempo_atual s) (objetos s b))
            = Erro TypeError).
  { intros b ->. unfold conceder_ug, urgencia.
    autorewrite with tarefa. now rewrite Hd. }
  destruct (corpo_quantum_iteracao escolher_prioridade_p
              (conceder_ug urg_max) s)
    as [He|e He Hesc|b [Hb _] Hrb|b e [Hb _] Hrb Hcb
       |b x qa u [Hb _] Hrb Hcb Hfim|b x qa u [Hb _] Hrb Hcb Hfim].
  - contradiction.
  - congruence.
  - assert (b = a) by congruence. subst b. lra.
  - assert (b = a) by congruence. subst b.
    unfold concedido in Hcb. rewrite (Hc a eq_refl) in Hcb.
    injection Hcb as <-. now eexists.
  - assert (b = a) by congruence. subst b.
    unfold concedido in Hcb. rewrite (Hc a eq_refl) in Hcb. discriminate Hcb.
  - assert (b = a) by congruence. subst b.
    unfold concedido in Hcb. rewrite (Hc a eq_refl) in Hcb. discriminate Hcb.
Qed.

(** The sort of two or more arrived tasks by [EscalonadorEDF], one of them
    without deadline; and its pick when a single task has arrived. *)
Lemma edf_sem_deadline_levanta s :
  (2 <= length (tarefas_que_chegaram s))%nat ->
  (exists b, In b (tarefas_que_chegaram s) /\ deadline (objetos s b) = None) ->
  corpo_quantum escolher_edf conceder_fixo s = Levanta TypeError s.
Proof.
  intros Hl (b & Hb & Hd).
  assert (He : escolher_edf (objetos s) (tempo_atual s)
                 (tarefas_que_chegaram s) = Erro TypeError).
  { unfold escolher_edf, ordenar_por_deadline.
    assert (E1 : (2 <=? length (tarefas_que_chegaram s))%nat = true)
      by now apply Nat.leb_le.
    assert (E2 : existsb (sem_deadline (objetos s))
                   (tarefas_que_chegaram s) = true).
    { apply existsb_exists. exists b. split; [assumption|].
      unfold sem_deadline. now rewrite Hd. }
    now rewrite E1, E2. }
  unfold corpo_quantum.
  destruct (tarefas_que_chegaram s) as [|c cs] eqn:Ech;
    [simpl in Hl; lia|].
  now rewrite He.
Qed.

Lemma edf_uma_tarefa_nao_compara s a :
  tarefas_que_chegaram s = [a] ->
  escolher_edf (objetos s) (tempo_atual s) (tarefas_que_chegaram s) = Ok a.
Proof. intros ->. reflexivity. Qed.

(** C6 (amended).  When every task carries a deadline, the EDF and
    adaptive-quantum schedulers never raise [TypeError] (nor [IndexError]
    or [UnboundLocalError]), whatever the quantum and however many
    iterations have run; the adaptive-quantum scheduler
    treats as maximally urgent (urgency [urg_max + 1]) a task whose
    deadline is not later than its remaining time.  A missing deadline is
    not handled: the iteration in which the adaptive-quantum scheduler
    dispatches a task without deadline raises [TypeError], and so does
    every iteration in which EDF sorts two or more arrived tasks of which
    one has no deadline; a single arrived task is picked by EDF without
    any comparison, with or without deadline. *)
Theorem C6_com_deadlines_nao_levanta :
  (forall alg q h refs,
     exige_deadline alg = true ->
     (forall a, In a refs -> deadline (h a) <> None) ->
     forall n e s, simular alg q h refs n <> Aborta e s)
  /\ (forall p d r urg_max,
        d <= r -> urgencia p (Some d) r urg_max = Ok (urg_max + 1))
  /\ (forall urg_max s a,
        escolhida escolher_prioridade_p s a ->
        0 < tempo_restante (objetos s a) ->
        deadline (objetos s a) = None ->
        exists s',
          corpo_quantum escolher_prioridade_p (conceder_ug urg_max) s
          = Levanta TypeError s')
  /\ (forall s,
        (2 <= length (tarefas_que_chegaram s))%nat ->
        (exists b, In b (tarefas_que_chegaram s)
                   /\ deadline (objetos s b) = None) ->
        corpo_quantum escolher_edf conceder_fixo s = Levanta TypeError s)
  /\ (forall s a,
        tarefas_que_chegaram s = [a] ->
        escolher_edf (objetos s) (tempo_atual s) (tarefas_que_chegaram s)
        = Ok a).
Proof.
  split; [|split; [|split; [|split]]].
  - intros alg q h refs Hex Hdl.
    apply quantum_nao_levanta; [destruct alg; easy|].
    intros _. exact Hdl.
  - intros p d r urg_max Hle. unfold urgencia.
    apply Qlt_bool_false in Hle. now rewrite Hle.
  - exact ug_sem_deadline_levanta.
  - exact edf_sem_deadline_levanta.
  - exact edf_uma_tarefa_nao_compara.
Qed.

Lemma C6_com_deadlines_witness :
  (forall n e s,
     simular (UG urg_max_padrao) 2 cenario_deadlines [0; 1]%nat n
     <> Aborta e s)
  /\ urgencia 1 (Some 4) 5 urg_max_padrao = Ok (urg_max_padrao + 1)
  /\ (exists s',
        corpo_quantum escolher_prioridade_p (conceder_ug urg_max_padrao)
          (inicial (UG urg_max_padrao) 2 cenario_unitario [0]%nat)
        = Levanta TypeError s')
  /\ corpo_quantum escolher_edf conceder_fixo
       (inicial EDF 2 cenario_rr [0; 1]%nat)
     = Levanta TypeError (inicial EDF 2 cenario_rr [0; 1]%nat)
  /\ escolher_edf cenario_unitario 0
       (tarefas_que_chegaram (inicial EDF 2 cenario_unitario [0]%nat))
     = Ok 0%nat.
Proof.
  destruct C6_com_deadlines_nao_levanta as (H1 & H2 & H3 & H4 & H5).
  split; [|split; [|split; [|split]]].
  - apply (H1 (UG urg_max_padrao) 2 cenario_deadlines [0; 1]%nat).
    + reflexivity.
    + intros a [<-|[<-|[]]]; discriminate.
  - apply H2. vm_compute. discriminate.
  - apply (H3 urg_max_padrao
             (inicial (UG urg_max_padrao) 2 cenario_unitario [0]%nat) 0%nat).
    + split; [vm_compute; reflexivity|vm_compute; discriminate].
    + vm_compute. reflexivity.
    + vm_compute. reflexivity.
  - apply (H4 (inicial EDF 2 cenario_rr [0; 1]%nat)).
    + vm_compute. lia.
    + exists 0%nat. split; [vm_compute; auto|vm_compute; reflexivity].
  - apply (H5 (inicial EDF 2 cenario_unitario [0]%nat) 0%nat).
    vm_compute. reflexivity.
Defined.

(** ** C7: the waiting accumulator *)

(** C7 (code defect).  The claim: a first dispatch adds to
    [tempo_em_espera] the gap between the start of the burst and the
    arrival of the task.  The code subtracts the end of the previous burst
    or, when there is none, 0 instead of the arrival (the run-to-completion
    schedulers do subtract the arrival).  A task that arrives at 5 and is
    dispatched at 5 by Round-Robin has waited 0 but ends with
    [tempo_em_espera] = 5. *)
Theorem C7_espera_do_primeiro_despacho :
  let r := simular RoundRobin 2 cenario_chegada_tardia [0]%nat 1 in
  let t := objetos (estado_de r) 0%nat in
  desfecho r = Retornou
  /\ tempo_chegada t == 5
  /\ mesmas_execucoes (tempos_execucao t) [(5, 6)]
  /\ tempo_em_espera t == 5
  /\ ~ tempo_em_espera t == 5 - tempo_chegada t.
Proof.
  vm_compute. split; [reflexivity|]. split; [reflexivity|].
  split; [repeat constructor|]. split; [reflexivity|]. discriminate.
Qed.

(** ** C8: every task finishes *)


(** Whenever [EscalonadorSJF] returns, every task has its finish time. *)
Lemma sjf_finaliza q h refs n s :
  simular SJF q h refs n = Retorna s ->
  forall a, In a refs -> tempo_final (objetos s a) <> None.
Proof.
  intros Hret a Ha.
  destruct (inicial_campos SJF q h refs) as (_ & H2 & H3 & _).
  pose proof (simular_mesmos_dados SJF q h refs n) as (Ht & _).
  rewrite Hret in Ht. cbn [estado_de] in Ht.
  rewrite simular_sjf in Hret.
  assert (Hfila : fila s = []) by (eapply laco_retorna_fila_vazia, Hret).
  assert (Htodas : TodasSJF s).
  { apply (laco_preserva_retorno corpo_sjf TodasSJF)
      with (n := n) (s := inicial SJF q h refs); [| |exact Hret].
    - intros s1 s2 H12 Hc. apply (iteracaoSJF_Todas s1); [|assumption].
      rewrite <- Hc. apply corpo_sjf_iteracao.
    - intros b Hb. left. now rewrite H3. }
  destruct (Htodas a) as [Hin|Hin]; [| |assumption].
  - rewrite Ht, H2. now apply ordenar_In.
  - rewrite Hfila in Hin. destruct Hin.
Qed.

(** A whole number of magnitude at most 2^53: sums and differences of such
    numbers are computed without rounding as long as they stay in that
    range. *)
Definition inteiro_exato (x : Q) : Prop :=
  exists z : Z, x == inject_Z z /\ (Z.abs z <= 2 ^ 53)%Z.



(** ** C10: the remaining time is never negative *)

(** C10.  [TarefaCAV.executar] leaves a non-negative [tempo_restante], and
    so does every scheduler at every point of every run: for tasks
    constructed with a duration that is not negative and a positive
    quantum, whatever the strategy and however many iterations have run,
    [tempo_restante] of every task is at least 0. *)
Theorem C10_tempo_restante_nao_negativo :
  (forall t quantum,
     0 <= tempo_restante t -> 0 <= tempo_restante (fst (executar t quantum)))
  /\ (forall alg q h refs n a,
        0 < q ->
        (forall b, In b refs -> tarefa_nova (h b) /\ 0 <= duracao (h b)) ->
        In a refs ->
        0 <= tempo_restante (objetos (estado_de (simular alg q h refs n)) a)).
Proof.
  split.
  - intros t quantum _. unfold executar. cbn.
    pose proof (min_py_le_l (tempo_restante t) quantum). lra.
  - intros alg q h refs n a _ Hts Ha.
    assert (H0 : 0 <= tempo_restante (h a)).
    { destruct (Hts a Ha) as [Hn Hd]. now rewrite tarefa_nova_restante. }
    destruct (inicial_campos alg q h refs) as (H1 & _).
    destruct (tem_quantum alg) eqn:Etq.
    + rewrite simular_com_quantum by assumption.
      apply (laco_preserva _ (fun s => 0 <= tempo_restante (objetos s a)));
        [|now rewrite H1].
      intros s Hs.
      exact (iteracao_restante _ _ (conceder_de_le alg) s _ a
               (corpo_quantum_iteracao _ _ s) Hs).
    + destruct alg; try discriminate Etq.
      * rewrite simular_fifo. cbn [estado_de].
        destruct (fifo_percorre (tarefas (inicial FIFO q h refs))
                    (inicial FIFO q h refs)) as (_ & _ & G3 & _).
        cbv zeta in G3. now rewrite G3, H1.
      * now rewrite sjf_restante.
      * now rewrite np_restante.
Qed.

Lemma C10_tempo_restante_witness :
  0 <= tempo_restante (fst (executar (cenario_rr 0%nat) 2))
  /\ 0 <= tempo_restante
            (objetos (estado_de (simular RoundRobin 2 cenario_rr [0; 1]%nat 3))
               0%nat).
Proof.
  destruct C10_tempo_restante_nao_negativo as [H1 H2]. split.
  - apply H1. vm_compute. discriminate.
  - apply (H2 RoundRobin 2 cenario_rr [0; 1]%nat 3%nat 0%nat).
    + vm_compute. reflexivity.
    + intros b [<-|[<-|[]]]; split; try reflexivity; vm_compute; discriminate.
    + simpl. auto.
Defined.

(** ** Renaming the addresses of the tasks

    Two independently constructed copies of a task list are the same
    records at other addresses.  A run over the copy is the run over the
    original with every reference renamed. *)

(** The image of a result under a renaming. *)
Definition renomear_resultado (f : nat -> nat) (r : Resultado nat)
    : Resultado nat :=
  match r with
  | Ok a => Ok (f a)
  | Erro e => Erro e
  end.

Section Renomeacao.

Variable ren : nat -> nat.
Variable dom : list nat.
Hypothesis ren_inj :
  forall i j, In i dom -> In j dom -> ren i = ren j -> i = j.

Lemma ren_eqb i j :
  In i dom -> In j dom -> Nat.eqb (ren i) (ren j) = Nat.eqb i j.
Proof.
  intros Hi Hj. destruct (Nat.eqb i j) eqn:E.
  - apply Nat.eqb_eq in E. subst. apply Nat.eqb_refl.
  - apply Nat.eqb_neq in E. apply Nat.eqb_neq. intro H. apply E.
    now apply ren_inj.
Qed.

Lemma inserir_ren chave chave' x l :
  chave' (ren x) = chave x ->
  (forall i, In i l -> chave' (ren i) = chave i) ->
  inserir chave' (ren x) (map ren l) = map ren (inserir chave x l).
Proof.
  intros Hx. induction l as [|y r IH]; intro Hl; simpl; [reflexivity|].
  rewrite Hx, (Hl y) by now left.
  destruct (Qle_bool (chave x) (chave y)); simpl; [reflexivity|].
  rewrite IH; [reflexivity|]. intros i Hi. apply Hl. now right.
Qed.

Lemma ordenar_ren chave chave' l :
  (forall i, In i l -> chave' (ren i) = chave i) ->
  ordenar chave' (map ren l) = map ren (ordenar chave l).
Proof.
  induction l as [|x r IH]; intro Hl; simpl; [reflexivity|].
  rewrite IH by (intros i Hi; apply Hl; now right).
  apply inserir_ren; [apply Hl; now left|].
  intros i Hi. apply Hl. right. now apply ordenar_In in Hi.
Qed.

Lemma inserir_rev_ren chave chave' x l :
  chave' (ren x) = chave x ->
  (forall i, In i l -> chave' (ren i) = chave i) ->
  inserir_rev chave' (ren x) (map ren l) = map ren (inserir_rev chave x l).
Proof.
  intros Hx. induction l as [|y r IH]; intro Hl; simpl; [reflexivity|].
  rewrite Hx, (Hl y) by now left.
  destruct (Qle_bool (chave y) (chave x)); simpl; [reflexivity|].
  rewrite IH; [reflexivity|]. intros i Hi. apply Hl. now right.
Qed.

Lemma ordenar_rev_ren chave chave' l :
  (forall i, In i l -> chave' (ren i) = chave i) ->
  ordenar_rev chave' (map ren l) = map ren (ordenar_rev chave l).
Proof.
  induction l as [|x r IH]; intro Hl; simpl; [reflexivity|].
  rewrite IH by (intros i Hi; apply Hl; now right).
  apply inserir_rev_ren; [apply Hl; now left|].
  intros i Hi. apply Hl. right. now apply ordenar_rev_In in Hi.
Qed.

Lemma filter_ren (p p' : nat -> bool) l :
  (forall i, In i l -> p' (ren i) = p i) ->
  filter p' (map ren l) = map ren (filter p l).
Proof.
  induction l as [|x r IH]; intro Hl; simpl; [reflexivity|].
  rewrite (Hl x) by now left.
  rewrite IH by (intros i Hi; apply Hl; now right).
  now destruct (p x).
Qed.

Lemma existsb_ren (p p' : nat -> bool) l :
  (forall i, In i l -> p' (ren i) = p i) ->
  existsb p' (map ren l) = existsb p l.
Proof.
  induction l as [|x r IH]; intro Hl; simpl; [reflexivity|].
  rewrite (Hl x) by now left.
  now rewrite IH by (intros i Hi; apply Hl; now right).
Qed.

Lemma find_ren (p p' : nat -> bool) l :
  (forall i, In i l -> p' (ren i) = p i) ->
  find p' (map ren l) = option_map ren (find p l).
Proof.
  induction l as [|x r IH]; intro Hl; simpl; [reflexivity|].
  rewrite (Hl x) by now left.
  destruct (p x); [reflexivity|].
  apply IH. intros i Hi. apply Hl. now right.
Qed.

Lemma remover_ren a l :
  In a dom -> incl l dom ->
  remover (ren a) (map ren l) = map ren (remover a l).
Proof.
  intros Ha. induction l as [|x r IH]; intro Hl; simpl; [reflexivity|].
  rewrite ren_eqb by (try assumption; apply Hl; now left).
  destruct (Nat.eqb x a); [reflexivity|]. simpl.
  rewrite IH; [reflexivity|]. intros i Hi. apply Hl. now right.
Qed.

Lemma reinserir_ren h h' agora a l :
  (forall i, In i l -> tempo_chegada (h' (ren i)) = tempo_chegada (h i)) ->
  reinserir h' agora (ren a) (map ren l) = map ren (reinserir h agora a l).
Proof.
  induction l as [|x r IH]; intro Hl; simpl; [reflexivity|].
  rewrite (Hl x) by now left.
  destruct (Qlt_bool agora (tempo_chegada (h x))); simpl; [reflexivity|].
  rewrite IH; [reflexivity|]. intros i Hi. apply Hl. now right.
Qed.

Lemma primeiro_ren l :
  primeiro (map ren l) = renomear_resultado ren (primeiro l).
Proof. now destruct l. Qed.

Lemma ultimo_ren l :
  ultimo (map ren l) = renomear_resultado ren (ultimo l).
Proof.
  induction l as [|x r IH]; [reflexivity|].
  destruct r as [|y r']; [reflexivity|].
  change (ultimo (map ren (x :: y :: r'))) with (ultimo (map ren (y :: r'))).
  rewrite IH. reflexivity.
Qed.

Lemma fold_soma_ren (f f' : nat -> Q) l : forall z,
  (forall i, In i l -> f' (ren i) = f i) ->
  fold_left (fun acc a => acc + f' a) (map ren l) z
  = fold_left (fun acc a => acc + f a) l z.
Proof.
  induction l as [|x r IH]; intros z Hl; simpl; [reflexivity|].
  rewrite (Hl x) by now left.
  apply IH. intros i Hi. apply Hl. now right.
Qed.

Lemma chegadas_ren h h' l :
  (forall i, In i l -> h' (ren i) = h i) ->
  chegadas h' (map ren l) = chegadas h l.
Proof.
  intro Hl. unfold chegadas. rewrite map_map.
  apply map_ext_in. intros i Hi. now rewrite Hl.
Qed.

(** *** The limits of the FutureVision family *)

Lemma duracao_media_ren h h' l :
  (forall i, In i l -> h' (ren i) = h i) ->
  duracao_media h' (map ren l) = duracao_media h l.
Proof.
  intro Hl. unfold duracao_media. rewrite length_map.
  rewrite (fold_soma_ren (fun a => tempo_restante (h a))
             (fun a => tempo_restante (h' a))); [reflexivity|].
  intros i Hi. now rewrite Hl.
Qed.

Lemma chegada_media_ren h h' l :
  (forall i, In i l -> h' (ren i) = h i) ->
  chegada_media h' (map ren l) = chegada_media h l.
Proof.
  intro Hl. unfold chegada_media. rewrite length_map.
  rewrite (fold_soma_ren (fun a => tempo_chegada (h a))
             (fun a => tempo_chegada (h' a))); [reflexivity|].
  intros i Hi. now rewrite Hl.
Qed.

Lemma mediana_chegada_ren h h' l :
  (forall i, In i l -> h' (ren i) = h i) ->
  mediana_chegada h' (map ren l) = mediana_chegada h l.
Proof.
  intro Hl. unfold mediana_chegada.
  now rewrite length_map, (chegadas_ren h h' l Hl).
Qed.

Lemma chegada_media_intervalo_ren h h' l :
  (forall i, In i l -> h' (ren i) = h i) ->
  chegada_media_intervalo h' (map ren l) = chegada_media_intervalo h l.
Proof.
  intro Hl. unfold chegada_media_intervalo.
  now rewrite (chegadas_ren h h' l Hl).
Qed.

(** A limit computed from the records only. *)
Definition limite_ren (limite : Heap -> list nat -> Q) : Prop :=
  forall h h' l,
    (forall i, In i l -> h' (ren i) = h i) ->
    limite h' (map ren l) = limite h l.

Lemma limite_mediana_ren : limite_ren limite_mediana.
Proof.
  intros h h' l Hl. unfold limite_mediana.
  destruct l as [|x r]; [reflexivity|].
  change (ren x :: map ren r) with (map ren (x :: r)).
  now rewrite (duracao_media_ren h h' _ Hl), (mediana_chegada_ren h h' _ Hl).
Qed.

Lemma limite_media_ren : limite_ren limite_media.
Proof.
  intros h h' l Hl. unfold limite_media.
  destruct l as [|x r]; [reflexivity|].
  change (ren x :: map ren r) with (map ren (x :: r)).
  now rewrite (duracao_media_ren h h' _ Hl), (chegada_media_ren h h' _ Hl).
Qed.

Lemma limite_media_intervalo_ren : limite_ren limite_media_intervalo.
Proof.
  intros h h' l Hl. unfold limite_media_intervalo.
  destruct l as [|x r]; [reflexivity|].
  change (ren x :: map ren r) with (map ren (x :: r)).
  now rewrite (duracao_media_ren h h' _ Hl), (chegada_media_intervalo_ren h h' _ Hl).
Qed.

Lemma limite_min_ren : limite_ren limite_min.
Proof.
  intros h h' l Hl. unfold limite_min.
  destruct l as [|x r]; [reflexivity|].
  change (ren x :: map ren r) with (map ren (x :: r)).
  now rewrite (duracao_media_ren h h' _ Hl), (chegada_media_ren h h' _ Hl),
    (chegada_media_intervalo_ren h h' _ Hl), (mediana_chegada_ren h h' _ Hl).
Qed.

Lemma limite_max_ren : limite_ren limite_max.
Proof.
  intros h h' l Hl. unfold limite_max.
  destruct l as [|x r]; [reflexivity|].
  change (ren x :: map ren r) with (map ren (x :: r)).
  now rewrite (duracao_media_ren h h' _ Hl), (chegada_media_ren h h' _ Hl),
    (chegada_media_intervalo_ren h h' _ Hl), (mediana_chegada_ren h h' _ Hl).
Qed.

(** *** The selections *)

Lemma escolher_fv_ren limite h h' agora l :
  limite_ren limite ->
  (forall i, In i l -> h' (ren i) = h i) ->
  escolher_fv limite h' agora (map ren l)
  = renomear_resultado ren (escolher_fv limite h agora l).
Proof.
  intros Hlim Hl. unfold escolher_fv.
  rewrite (ordenar_ren (fun a => tempo_restante (h a)))
    by (intros i Hi; now rewrite Hl).
  assert (Ho : forall i, In i (ordenar (fun a => tempo_restante (h a)) l) ->
                         h' (ren i) = h i)
    by (intros i Hi; apply Hl; now apply ordenar_In in Hi).
  rewrite (Hlim h h' _ Ho).
  rewrite (find_ren
             (fun a => Qlt_bool
                         (limite h (ordenar (fun a => tempo_restante (h a)) l))
                         (tempo_aguardando h agora a))).
  - destruct (find _ _); [reflexivity|]. apply primeiro_ren.
  - intros i Hi. unfold tempo_aguardando. now rewrite Ho.
Qed.

Lemma escolher_de_ren alg h h' agora l :
  (forall i, In i l -> h' (ren i) = h i) ->
  escolher_de alg h' agora (map ren l)
  = renomear_resultado ren (escolher_de alg h agora l).
Proof.
  intro Hl.
  assert (Hprio : escolher_prioridade_p h' agora (map ren l)
                  = renomear_resultado ren (escolher_prioridade_p h agora l)).
  { unfold escolher_prioridade_p.
    rewrite (ordenar_ren (chave_prioridade h)); [apply ultimo_ren|].
    intros i Hi. unfold chave_prioridade. now rewrite Hl. }
  destruct alg; simpl; try apply primeiro_ren; try exact Hprio;
    try (apply escolher_fv_ren; [|exact Hl]).
  - unfold escolher_edf, ordenar_por_deadline.
    rewrite length_map.
    rewrite (existsb_ren (sem_deadline h))
      by (intros i Hi; unfold sem_deadline; now rewrite Hl).
    destruct (_ && _); [reflexivity|].
    rewrite (ordenar_ren (chave_deadline h)); [apply primeiro_ren|].
    intros i Hi. unfold chave_deadline. now rewrite Hl.
  - apply limite_mediana_ren.
  - apply limite_media_ren.
  - apply limite_media_intervalo_ren.
  - apply limite_min_ren.
  - apply limite_max_ren.
Qed.

(** *** The states of two runs *)

(** [s'] is [s] with every reference renamed: the same scalars, the same
    records behind corresponding references.  ([menor_tarefa] and the
    history are read by no [escalonar] and are left out.) *)
Record Rel (s s' : Estado) : Prop := {
  rel_tarefas : tarefas s' = map ren (tarefas s);
  rel_fila : fila s' = map ren (fila s);
  rel_tarefa : tarefa s' = option_map ren (tarefa s);
  rel_sobrecarga : sobrecarga_total s' = sobrecarga_total s;
  rel_tempo : tempo_atual s' = tempo_atual s;
  rel_quantum : quantum s' = quantum s;
  rel_quantum_atual : quantum_atual s' = quantum_atual s;
  rel_objetos : forall i, In i dom -> objetos s' (ren i) = objetos s i;
  rel_dom_tarefas : incl (tarefas s) dom;
  rel_dom_fila : incl (fila s) dom;
  rel_dom_tarefa : forall i, tarefa s = Some i -> In i dom
}.

Inductive RelPasso : Passo -> Passo -> Prop :=
| RP_continua s s' : Rel s s' -> RelPasso (Continua s) (Continua s')
| RP_levanta e s s' : Rel s s' -> RelPasso (Levanta e s) (Levanta e s').

Inductive RelSaida : Saida -> Saida -> Prop :=
| RS_retorna s s' : Rel s s' -> RelSaida (Retorna s) (Retorna s')
| RS_aborta e s s' : Rel s s' -> RelSaida (Aborta e s) (Aborta e s')
| RS_esgota s s' : Rel s s' -> RelSaida (Esgota s) (Esgota s').

Lemma gravar_obj_ren h h' a t i :
  (forall j, In j dom -> h' (ren j) = h j) ->
  In a dom -> In i dom ->
  gravar_obj h' (ren a) t (ren i) = gravar_obj h a t i.
Proof.
  intros Hh Ha Hi. unfold gravar_obj. rewrite ren_eqb by assumption.
  destruct (Nat.eqb i a); [reflexivity|now apply Hh].
Qed.

Lemma rel_chegaram s s' :
  Rel s s' -> tarefas_que_chegaram s' = map ren (tarefas_que_chegaram s).
Proof.
  intro H. unfold tarefas_que_chegaram.
  rewrite (rel_fila _ _ H), (rel_tempo _ _ H).
  apply filter_ren. intros i Hi.
  now rewrite (rel_objetos _ _ H) by (apply (rel_dom_fila _ _ H), Hi).
Qed.

Lemma rel_set_tempo_atual s s' v :
  Rel s s' -> Rel (set_tempo_atual v s) (set_tempo_atual v s').
Proof. intros [H1 H2 H3 H4 H5 H6 H7 H8 H9 H10 H11]. now split. Qed.

Lemma rel_set_quantum_atual s s' v :
  Rel s s' -> Rel (set_quantum_atual v s) (set_quantum_atual v s').
Proof. intros [H1 H2 H3 H4 H5 H6 H7 H8 H9 H10 H11]. now split. Qed.

Lemma rel_retirar s s' a :
  Rel s s' -> In a dom -> Rel (retirar a s) (retirar (ren a) s').
Proof.
  intros [H1 H2 H3 H4 H5 H6 H7 H8 H9 H10 H11] Ha.
  split; cbn; try assumption.
  - rewrite H2. now apply remover_ren.
  - reflexivity.
  - intros i Hi. apply H10. eapply remover_In, Hi.
  - now intros i [= <-].
Qed.

(** The same mutation of corresponding objects. *)
Lemma rel_gravar s s' a t :
  Rel s s' -> In a dom -> Rel (gravar a t s) (gravar (ren a) t s').
Proof.
  intros [H1 H2 H3 H4 H5 H6 H7 H8 H9 H10 H11] Ha.
  split; cbn; try assumption.
  intros i Hi. now apply gravar_obj_ren.
Qed.

(** States that differ from related ones only in the clock and in
    corresponding objects are related. *)
Lemma rel_objetos_ext s s' r r' :
  Rel s s' ->
  tarefas r = tarefas s -> tarefas r' = tarefas s' ->
  fila r = fila s -> fila r' = fila s' ->
  tarefa r = tarefa s -> tarefa r' = tarefa s' ->
  sobrecarga_total r = sobrecarga_total s ->
  sobrecarga_total r' = sobrecarga_total s' ->
  tempo_atual r' = tempo_atual r ->
  quantum r = quantum s -> quantum r' = quantum s' ->
  quantum_atual r = quantum_atual s -> quantum_atual r' = quantum_atual s' ->
  (forall i, In i dom -> objetos r' (ren i) = objetos r i) ->
  Rel r r'.
Proof.
  intros [H1 H2 H3 H4 H5 H6 H7 H8 H9 H10 H11].
  intros A1 A1' A2 A2' A3 A3' A4 A4' A5 A6 A6' A7 A7' A8.
  split.
  - congruence.
  - congruence.
  - congruence.
  - congruence.
  - congruence.
  - congruence.
  - congruence.
  - exact A8.
  - rewrite A1. exact H9.
  - rewrite A2. exact H10.
  - rewrite A3. exact H11.
Qed.

Lemma rel_executar_fatia s s' a x qa :
  Rel s s' -> In a dom ->
  Rel (executar_fatia s a x qa) (executar_fatia s' (ren a) x qa).
Proof.
  intros H Ha. unfold executar_fatia.
  rewrite (rel_objetos _ _ H a Ha), (rel_tempo _ _ H).
  apply rel_gravar; [|assumption].
  now apply rel_set_tempo_atual, rel_set_quantum_atual.
Qed.

Lemma rel_preemptar s s' a :
  Rel s s' -> In a dom -> Rel (preemptar s a) (preemptar s' (ren a)).
Proof.
  intros H Ha. pose proof H as [H1 H2 H3 H4 H5 H6 H7 H8 H9 H10 H11].
  unfold preemptar, registrar_sobrecarga. split; cbn; try assumption;
    try congruence.
  - rewrite H2, H5.
    apply reinserir_ren. intros i Hi. now rewrite H8 by (apply H10, Hi).
  - intros i Hi. apply reinserir_In in Hi. destruct Hi as [->|Hi]; auto.
Qed.

Lemma rel_atribuir_tempo_final s s' a v :
  Rel s s' -> In a dom ->
  Rel (atribuir_tempo_final a v s) (atribuir_tempo_final (ren a) v s').
Proof.
  intros H Ha. pose proof H as [H1 H2 H3 H4 H5 H6 H7 H8 H9 H10 H11].
  unfold atribuir_tempo_final. split; cbn; try assumption.
  intros i Hi. rewrite (H8 a Ha). now apply gravar_obj_ren.
Qed.

Lemma rel_finalizar u s s' a :
  Rel s s' -> In a dom -> Rel (finalizar u s a) (finalizar u s' (ren a)).
Proof.
  intros H Ha. unfold finalizar. rewrite (rel_tempo _ _ H).
  pose proof (rel_atribuir_tempo_final s s' a (tempo_atual s) H Ha) as Hf.
  destruct u; [|exact Hf].
  change (quantum (atribuir_tempo_final (ren a) (tempo_atual s) s'))
    with (quantum s').
  change (quantum (atribuir_tempo_final a (tempo_atual s) s))
    with (quantum s).
  rewrite (rel_quantum _ _ H). now apply rel_set_quantum_atual.
Qed.

(** The record that [executar_por_completo] leaves at the address of its
    task. *)
Definition tarefa_por_completo (agora : Q) (t0 : TarefaCAV) : TarefaCAV :=
  let inicio := max_py agora (tempo_chegada t0) in
  let t1 := set_tempo_inicio_execucao_atual (Some inicio)
              (set_tempo_inicio (Some inicio) t0) in
  let fim := inicio + duracao t1 in
  let t2 := anexar_execucao (inicio, fim)
              (set_tempo_final_execucao_atual (Some fim) t1) in
  let t3 := set_tempo_final (Some fim) t2 in
  let espera := inicio - tempo_chegada t3 in
  set_tempo_de_resposta (Some espera) (set_tempo_em_espera espera t3).

Lemma executar_por_completo_objetos s a b :
  objetos (executar_por_completo s a) b
  = gravar_obj (objetos s) a
      (tarefa_por_completo (tempo_atual s) (objetos s a)) b.
Proof.
  unfold executar_por_completo, tarefa_por_completo. cbn.
  unfold gravar_obj. rewrite !Nat.eqb_refl.
  destruct (Nat.eqb b a); reflexivity.
Qed.

(** The record that [executar_sem_preempcao] leaves at the address of its
    task. *)
Definition tarefa_sem_preempcao (agora : Q) (t0 : TarefaCAV) : TarefaCAV :=
  let t1 := set_tempo_inicio_execucao_atual (Some agora)
              (set_tempo_inicio (Some agora) t0) in
  let fim := agora + duracao t1 in
  let t2 := set_tempo_final (Some fim) t1 in
  let resposta := agora - tempo_chegada t2 in
  anexar_execucao (agora, fim)
    (set_tempo_final_execucao_atual (Some fim)
       (set_tempo_em_espera resposta
          (set_tempo_de_resposta (Some resposta) t2))).

Lemma executar_sem_preempcao_objetos s a b :
  objetos (executar_sem_preempcao s a) b
  = gravar_obj (objetos s) a
      (tarefa_sem_preempcao (tempo_atual s) (objetos s a)) b.
Proof.
  unfold executar_sem_preempcao, tarefa_sem_preempcao. cbn.
  unfold gravar_obj. rewrite !Nat.eqb_refl.
  destruct (Nat.eqb b a); reflexivity.
Qed.

Lemma rel_executar_por_completo s s' a :
  Rel s s' -> In a dom ->
  Rel (executar_por_completo s a) (executar_por_completo s' (ren a)).
Proof.
  intros H Ha.
  apply (rel_objetos_ext s s'); try reflexivity; try assumption.
  - rewrite !executar_por_completo_tempo_atual.
    now rewrite (rel_objetos _ _ H a Ha), (rel_tempo _ _ H).
  - intros i Hi. rewrite !executar_por_completo_objetos.
    rewrite (rel_objetos _ _ H a Ha), (rel_tempo _ _ H).
    apply gravar_obj_ren; try assumption. apply (rel_objetos _ _ H).
Qed.

Lemma rel_executar_sem_preempcao s s' a :
  Rel s s' -> In a dom ->
  Rel (executar_sem_preempcao s a) (executar_sem_preempcao s' (ren a)).
Proof.
  intros H Ha.
  apply (rel_objetos_ext s s'); try reflexivity; try assumption.
  - rewrite !executar_sem_preempcao_tempo_atual.
    now rewrite (rel_objetos _ _ H a Ha), (rel_tempo _ _ H).
  - intros i Hi. rewrite !executar_sem_preempcao_objetos.
    rewrite (rel_objetos _ _ H a Ha), (rel_tempo _ _ H).
    apply gravar_obj_ren; try assumption. apply (rel_objetos _ _ H).
Qed.

(** *** The iterations *)

Lemma despachar_ren conceder s s' a :
  Rel s s' -> In a dom ->
  RelPasso (despachar conceder s a) (despachar conceder s' (ren a)).
Proof.
  intros H Ha. unfold despachar.
  rewrite (rel_objetos _ _ H a Ha), (rel_tempo _ _ H), (rel_quantum _ _ H),
    (rel_quantum_atual _ _ H).
  destruct (Qlt_bool 0 (tempo_restante (objetos s a))); [|now constructor].
  destruct (conceder (quantum s) (quantum_atual s)
              (iniciar_execucao (tempo_atual s) (objetos s a)))
    as [[[x qa] u]|e].
  - rewrite !executar_fatia_restante. rewrite (rel_objetos _ _ H a Ha).
    destruct (Qlt_bool 0 (tempo_restante (objetos s a) - x)); constructor.
    + apply rel_preemptar; [now apply rel_executar_fatia|assumption].
    + apply rel_finalizar; [now apply rel_executar_fatia|assumption].
  - constructor. now apply rel_gravar.
Qed.

Lemma corpo_quantum_ren alg s s' :
  Rel s s' ->
  RelPasso (corpo_quantum (escolher_de alg) (conceder_de alg) s)
           (corpo_quantum (escolher_de alg) (conceder_de alg) s').
Proof.
  intro H. unfold corpo_quantum.
  rewrite (rel_chegaram _ _ H), (rel_tempo _ _ H).
  assert (Hobj : forall i, In i (tarefas_que_chegaram s) ->
                           objetos s' (ren i) = objetos s i).
  { intros i Hi. apply (rel_objetos _ _ H), (rel_dom_fila _ _ H).
    now apply chegaram_In in Hi. }
  rewrite (escolher_de_ren alg (objetos s) (objetos s') (tempo_atual s)
             (tarefas_que_chegaram s) Hobj).
  destruct (tarefas_que_chegaram s) as [|c cs] eqn:E; cbn [map].
  - constructor. now apply rel_set_tempo_atual.
  - destruct (escolher_de alg (objetos s) (tempo_atual s) (c :: cs))
      as [a|e] eqn:Esc; cbn [renomear_resultado].
    + assert (Ha : In a dom).
      { apply (rel_dom_fila _ _ H). apply escolher_de_In in Esc.
        rewrite <- E in Esc. now apply chegaram_In in Esc. }
      apply despachar_ren; [now apply rel_retirar|assumption].
    + now constructor.
Qed.

Lemma corpo_sjf_ren s s' : Rel s s' -> RelPasso (corpo_sjf s) (corpo_sjf s').
Proof.
  intro H. unfold corpo_sjf.
  rewrite (rel_chegaram _ _ H).
  rewrite (ordenar_ren (fun a => duracao (objetos s a))).
  2:{ intros i Hi. rewrite (rel_objetos _ _ H); [reflexivity|].
      apply (rel_dom_fila _ _ H). now apply chegaram_In in Hi. }
  destruct (ordenar (fun a => duracao (objetos s a)) (tarefas_que_chegaram s))
    as [|a r] eqn:E; cbn [map].
  - rewrite (rel_tarefa _ _ H).
    destruct (tarefa s) as [b|] eqn:Et; cbn [option_map]; constructor;
      [|assumption].
    apply rel_executar_por_completo; [assumption|].
    now apply (rel_dom_tarefa _ _ H).
  - cbn [tarefa retirar set_fila set_tarefa].
    assert (Ha : In a dom).
    { apply (rel_dom_fila _ _ H).
      assert (Hin : In a (ordenar (fun a => duracao (objetos s a))
                            (tarefas_que_chegaram s)))
        by (rewrite E; now left).
      apply ordenar_In in Hin. now apply chegaram_In in Hin. }
    constructor.
    apply (rel_executar_por_completo (retirar a s) (retirar (ren a) s'));
      [now apply rel_retirar|assumption].
Qed.

Lemma corpo_prioridade_np_ren s s' :
  Rel s s' -> RelPasso (corpo_prioridade_np s) (corpo_prioridade_np s').
Proof.
  intro H. unfold corpo_prioridade_np.
  rewrite (rel_chegaram _ _ H), (rel_tempo _ _ H).
  rewrite (ordenar_rev_ren (fun a => inject_Z (prioridade (objetos s a)))).
  2:{ intros i Hi. rewrite (rel_objetos _ _ H); [reflexivity|].
      apply (rel_dom_fila _ _ H). now apply chegaram_In in Hi. }
  rewrite primeiro_ren.
  destruct (tarefas_que_chegaram s) as [|c cs] eqn:E; cbn [map].
  - constructor. now apply rel_set_tempo_atual.
  - destruct (primeiro
                (ordenar_rev (fun a => inject_Z (prioridade (objetos s a)))
                   (c :: cs))) as [a|e] eqn:Ep; cbn [renomear_resultado].
    + assert (Ha : In a dom).
      { apply (rel_dom_fila _ _ H). apply primeiro_In in Ep.
        apply ordenar_rev_In in Ep. rewrite <- E in Ep.
        now apply chegaram_In in Ep. }
      constructor.
      apply (rel_executar_sem_preempcao (retirar a s) (retirar (ren a) s'));
        [now apply rel_retirar|assumption].
    + now constructor.
Qed.

Lemma laco_ren (corpo : Estado -> Passo) :
  (forall s s', Rel s s' -> RelPasso (corpo s) (corpo s')) ->
  forall n s s', Rel s s' -> RelSaida (laco corpo n s) (laco corpo n s').
Proof.
  intros Hc n. induction n as [|n IH]; intros s s' H; simpl;
    rewrite (rel_fila _ _ H).
  - destruct (fila s); cbn [map]; now constructor.
  - destruct (fila s); cbn [map]; [now constructor|].
    destruct (Hc s s' H) as [s1 s1' H1|e s1 s1' H1].
    + now apply IH.
    + now constructor.
Qed.

Lemma fifo_ren l : forall s s',
  Rel s s' -> incl l dom ->
  Rel (fold_left executar_por_completo l s)
      (fold_left executar_por_completo (map ren l) s').
Proof.
  induction l as [|a r IH]; intros s s' H Hl; simpl; [assumption|].
  apply IH.
  - apply rel_executar_por_completo; [assumption|]. apply Hl. now left.
  - intros i Hi. apply Hl. now right.
Qed.

(** *** The whole simulation *)

Lemma preparar_ren s s' : Rel s s' -> Rel (preparar s) (preparar s').
Proof.
  intro H. pose proof H as [H1 H2 H3 H4 H5 H6 H7 H8 H9 H10 H11].
  unfold preparar. rewrite H1.
  rewrite (ordenar_ren (fun a => tempo_chegada (objetos s a))).
  2:{ intros i Hi. now rewrite H8 by (apply H9, Hi). }
  assert (Hd : incl (ordenar (fun a => tempo_chegada (objetos s a)) (tarefas s))
                 dom).
  { intros i Hi. apply H9. now apply ordenar_In in Hi. }
  destruct (ordenar (fun a => tempo_chegada (objetos s a)) (tarefas s))
    as [|a r] eqn:E; cbn [map].
  - split; cbn; try assumption; try reflexivity.
  - split; cbn; try assumption; try reflexivity.
    rewrite H8; [reflexivity|]. apply Hd. now left.
Qed.

Lemma montado_ren alg q h h' refs :
  (forall i, In i dom -> h' (ren i) = h i) -> incl refs dom ->
  Rel (montado alg q h refs) (montado alg q h' (map ren refs)).
Proof.
  intros Hh Hr. unfold montado.
  destruct (adicionar_tarefas_campos refs (construir alg h q))
    as (A1 & A2 & A3 & A4 & A5 & A6 & A7 & A8 & _).
  destruct (adicionar_tarefas_campos (map ren refs) (construir alg h' q))
    as (B1 & B2 & B3 & B4 & B5 & B6 & B7 & B8 & _).
  assert (Hc : tarefas (construir alg h q) = []
               /\ tarefas (construir alg h' q) = []
               /\ fila (construir alg h q) = []
               /\ fila (construir alg h' q) = []
               /\ tarefa (construir alg h q) = None
               /\ tarefa (construir alg h' q) = None
               /\ objetos (construir alg h q) = h
               /\ objetos (construir alg h' q) = h'
               /\ sobrecarga_total (construir alg h' q)
                  = sobrecarga_total (construir alg h q)
               /\ tempo_atual (construir alg h' q)
                  = tempo_atual (construir alg h q)
               /\ quantum (construir alg h' q) = quantum (construir alg h q)
               /\ quantum_atual (construir alg h' q)
                  = quantum_atual (construir alg h q)).
  { unfold construir. destruct (tem_quantum alg); cbn; repeat split. }
  destruct Hc as (C1 & C1' & C2 & C2' & C3 & C3' & C4 & C4' & C5 & C6 & C7 & C8).
  split.
  - rewrite A2, B2, C1, C1'. reflexivity.
  - rewrite A7, B7, C2, C2'. reflexivity.
  - rewrite A8, B8, C3, C3'. reflexivity.
  - congruence.
  - congruence.
  - congruence.
  - congruence.
  - intros i Hi. rewrite A1, B1, C4, C4'. now apply Hh.
  - rewrite A2, C1. exact Hr.
  - rewrite A7, C2. intros i [].
  - rewrite A8, C3. discriminate.
Qed.

Lemma simular_ren alg q h h' refs n :
  (forall i, In i dom -> h' (ren i) = h i) -> incl refs dom ->
  RelSaida (simular alg q h refs n) (simular alg q h' (map ren refs) n).
Proof.
  intros Hh Hr.
  pose proof (preparar_ren _ _ (montado_ren alg q h h' refs Hh Hr)) as Hi.
  change (preparar (montado alg q h refs)) with (inicial alg q h refs) in Hi.
  change (preparar (montado alg q h' (map ren refs)))
    with (inicial alg q h' (map ren refs)) in Hi.
  destruct (tem_quantum alg) eqn:Etq.
  - rewrite !simular_com_quantum by assumption.
    apply laco_ren; [|assumption]. apply corpo_quantum_ren.
  - destruct alg; try discriminate Etq.
    + rewrite !simular_fifo. constructor.
      rewrite (rel_tarefas _ _ Hi).
      apply fifo_ren; [assumption|]. apply (rel_dom_tarefas _ _ Hi).
    + rewrite !simular_sjf. apply laco_ren; [|assumption].
      apply corpo_sjf_ren.
    + rewrite !simular_np. apply laco_ren; [|assumption].
      apply corpo_prioridade_np_ren.
Qed.

Lemma relatorio_ren r r' : RelSaida r r' -> relatorio r = relatorio r'.
Proof.
  intros [s s' H|e s s' H|s s' H]; unfold relatorio;
    cbn [estado_de desfecho];
    rewrite (rel_tarefas _ _ H), (rel_sobrecarga _ _ H), map_map;
    f_equal; f_equal; symmetry; apply map_ext_in; intros i Hi;
    now rewrite (rel_objetos _ _ H) by (apply (rel_dom_tarefas _ _ H), Hi).
Qed.

End Renomeacao.

(** *** The renaming between two copies *)

(** The reference of the second list at the position of [a] in the
    first. *)
Fixpoint renomear (l1 l2 : list nat) (a : nat) : nat :=
  match l1, l2 with
  | x :: r1, y :: r2 => if Nat.eqb a x then y else renomear r1 r2 a
  | _, _ => a
  end.

Lemma renomear_map l1 : forall l2,
  length l1 = length l2 -> NoDup l1 -> map (renomear l1 l2) l1 = l2.
Proof.
  induction l1 as [|x r1 IH]; intros [|y r2] Hlen Hnd; try discriminate Hlen;
    [reflexivity|].
  simpl. rewrite Nat.eqb_refl. f_equal.
  inversion Hnd as [|? ? Hx Hr]; subst.
  transitivity (map (renomear r1 r2) r1).
  - apply map_ext_in. intros a Ha.
    destruct (Nat.eqb a x) eqn:E; [|reflexivity].
    apply Nat.eqb_eq in E. subst. contradiction.
  - apply IH; [now injection Hlen|assumption].
Qed.

Lemma NoDup_map_injetiva (f : nat -> nat) l :
  NoDup (map f l) ->
  forall i j, In i l -> In j l -> f i = f j -> i = j.
Proof.
  induction l as [|x r IH]; intros Hnd i j Hi Hj Hf; [destruct Hi|].
  simpl in Hnd. inversion Hnd as [|? ? Hx Hr]; subst.
  destruct Hi as [->|Hi], Hj as [->|Hj].
  - reflexivity.
  - exfalso. apply Hx. rewrite Hf. now apply in_map.
  - exfalso. apply Hx. rewrite <- Hf. now apply in_map.
  - now apply IH.
Qed.

(** ** C9: two-run determinism *)

(** C9.  Running a strategy, with the same parameters and the same fuel,
    on two independently constructed copies of one task list (the same
    records, in the same order, at other addresses and possibly in another
    heap) ends the same way and reports the same finish times, the same
    burst lists and the same accumulated overhead. *)
Theorem C9_determinismo_entre_copias :
  forall alg q n h1 refs1 h2 refs2,
    NoDup refs1 -> NoDup refs2 ->
    map h1 refs1 = map h2 refs2 ->
    relatorio (simular alg q h1 refs1 n)
    = relatorio (simular alg q h2 refs2 n).
Proof.
  intros alg q n h1 refs1 h2 refs2 Hnd1 Hnd2 Hcopia.
  assert (Hlen : length refs1 = length refs2).
  { apply (f_equal (@length TarefaCAV)) in Hcopia.
    now rewrite !length_map in Hcopia. }
  pose proof (renomear_map refs1 refs2 Hlen Hnd1) as Hmap.
  set (ren := renomear refs1 refs2) in *.
  assert (Hinj : forall i j, In i refs1 -> In j refs1 -> ren i = ren j -> i = j).
  { apply NoDup_map_injetiva. now rewrite Hmap. }
  assert (Hh : forall i, In i refs1 -> h2 (ren i) = h1 i).
  { intros i Hi. symmetry.
    apply (ext_in_map (f := h1) (g := fun i => h2 (ren i)) (l := refs1));
      [|assumption].
    transitivity (map h2 (map ren refs1)); [|apply map_map].
    now rewrite Hmap. }
  rewrite <- Hmap.
  apply (relatorio_ren ren refs1).
  apply simular_ren; [assumption|assumption|apply incl_refl].
Qed.

Lemma C9_determinismo_witness :
  relatorio (simular RoundRobin 2 cenario_rr [0; 1]%nat 5)
  = relatorio
      (simular RoundRobin 2
         (fun a => match a with 7%nat => cenario_rr 0%nat | _ => cenario_rr 1%nat end)
         [7; 3]%nat 5).
Proof.
  apply C9_determinismo_entre_copias.
  - constructor; [simpl; intros [H|[]]; discriminate H|].
    constructor; [simpl; tauto|constructor].
  - constructor; [simpl; intros [H|[]]; discriminate H|].
    constructor; [simpl; tauto|constructor].
  - reflexivity.
Defined.

(** * Further properties of the code *)

(** ** The references and tasks of the instances *)

Lemma NoDup_0_1 : NoDup [0; 1]%nat.
Proof.
  constructor; [simpl; intros [H|[]]; discriminate H|].
  constructor; [simpl; tauto|constructor].
Qed.

Lemma cenario_rr_novas a : In a [0; 1]%nat -> tarefa_nova (cenario_rr a).
Proof. intros [<-|[<-|[]]]; reflexivity. Qed.

(** ** The shortest task kept by adicionar_tarefa *)

(** [m] is the first element of [l] whose duration is the least of [l]. *)
Definition primeira_minima (h : Heap) (m : nat) (l : list nat) : Prop :=
  exists l1 l2,
    l = l1 ++ m :: l2
    /\ (forall a, In a l1 -> duracao (h m) < duracao (h a))
    /\ (forall a, In a l2 -> duracao (h m) <= duracao (h a)).

Definition menor_correta (s : Estado) : Prop :=
  match menor_tarefa s with
  | None => tarefas s = []
  | Some m => primeira_minima (objetos s) m (tarefas s)
  end.

Lemma adicionar_tarefa_menor s a :
  menor_correta s -> menor_correta (adicionar_tarefa s a).
Proof.
  unfold menor_correta, adicionar_tarefa. cbn.
  destruct (menor_tarefa s) as [m|] eqn:Em; cbn.
  - intros (l1 & l2 & Hl & H1 & H2).
    destruct (Qlt_bool (duracao (objetos s a)) (duracao (objetos s m))) eqn:E;
      cbn; rewrite ?Em.
    + apply Qlt_bool_true in E.
      exists (tarefas s), []. split; [reflexivity|]. split; [|easy].
      intros b Hb. rewrite Hl in Hb. apply in_app_or in Hb.
      destruct Hb as [Hb|[<-|Hb]].
      * specialize (H1 b Hb). lra.
      * exact E.
      * specialize (H2 b Hb). lra.
    + apply Qlt_bool_false in E.
      exists l1, (l2 ++ [a]). split; [|split; [exact H1|]].
      * rewrite Hl, <- app_assoc. reflexivity.
      * intros b Hb. apply in_app_or in Hb. destruct Hb as [Hb|[<-|[]]].
        -- now apply H2.
        -- exact E.
  - intros ->. exists [], []. split; [reflexivity|]. split; easy.
Qed.

Lemma adicionar_tarefas_menor refs : forall s,
  menor_correta s -> menor_correta (adicionar_tarefas s refs).
Proof.
  unfold adicionar_tarefas.
  induction refs as [|a r IH]; intros s Hs; cbn; [exact Hs|].
  apply IH. now apply adicionar_tarefa_menor.
Qed.

(** X1.  After the tasks of a list have been added to a newly constructed
    scheduler, [menor_tarefa] is [None] exactly when the list is empty;
    otherwise it refers to the first task of the list, in the order of
    addition, whose duration is the least: every task added before it is
    strictly longer, every task added after it is at least as long. *)
Theorem X1_menor_tarefa_primeira_de_menor_duracao :
  forall alg q h refs,
    match menor_tarefa (montado alg q h refs) with
    | None => refs = []
    | Some m => primeira_minima h m refs
    end.
Proof.
  intros alg q h refs.
  assert (H : menor_correta (montado alg q h refs)).
  { apply adicionar_tarefas_menor. unfold menor_correta, construir.
    now destruct (tem_quantum alg). }
  unfold menor_correta in H.
  destruct (montado_campos alg q h refs) as (H1 & H2 & _).
  now rewrite H1, H2 in H.
Qed.

(** ** The averages *)

Definition concluida (s : Estado) (a : nat) : bool :=
  match tempo_final (objetos s a) with
  | Some _ => true
  | None => false
  end.

(** The tasks of the scheduler that have a finish time. *)
Definition concluidas (s : Estado) : list nat :=
  filter (concluida s) (tarefas s).

Definition turnaround_de (s : Estado) (a : nat) : Q :=
  match tempo_final (objetos s a) with
  | Some f => f - tempo_chegada (objetos s a)
  | None => 0
  end.

Definition espera_de (s : Estado) (a : nat) : Q :=
  match tempo_final (objetos s a) with
  | Some f => f - tempo_chegada (objetos s a) - duracao (objetos s a)
  | None => 0
  end.

Lemma tempos_de_turnaround_concluidas s :
  tempos_de_turnaround s = map (turnaround_de s) (concluidas s).
Proof.
  unfold tempos_de_turnaround, concluidas.
  enough (H : forall l acc,
            fold_left
              (fun acc a =>
                 match tempo_final (objetos s a) with
                 | Some f => acc ++ [f - tempo_chegada (objetos s a)]
                 | None => acc
                 end) l acc
            = acc ++ map (turnaround_de s) (filter (concluida s) l))
    by apply (H (tarefas s) []).
  induction l as [|a r IH]; intro acc; cbn [fold_left filter map].
  - now rewrite app_nil_r.
  - rewrite IH.
    destruct (concluida s a) eqn:Ec; unfold concluida in Ec;
      destruct (tempo_final (objetos s a)) eqn:E; try discriminate;
      [|reflexivity].
    cbn [map]. rewrite <- app_assoc. cbn [app]. unfold turnaround_de at 2.
    now rewrite E.
Qed.

Lemma tempos_de_espera_concluidas s :
  tempos_de_espera s = map (espera_de s) (concluidas s).
Proof.
  unfold tempos_de_espera, concluidas.
  enough (H : forall l acc,
            fold_left
              (fun acc a =>
                 match tempo_final (objetos s a) with
                 | Some f =>
                     acc ++ [f - tempo_chegada (objetos s a)
                             - duracao (objetos s a)]
                 | None => acc
                 end) l acc
            = acc ++ map (espera_de s) (filter (concluida s) l))
    by apply (H (tarefas s) []).
  induction l as [|a r IH]; intro acc; cbn [fold_left filter map].
  - now rewrite app_nil_r.
  - rewrite IH.
    destruct (concluida s a) eqn:Ec; unfold concluida in Ec;
      destruct (tempo_final (objetos s a)) eqn:E; try discriminate;
      [|reflexivity].
    cbn [map]. rewrite <- app_assoc. cbn [app]. unfold espera_de at 2.
    now rewrite E.
Qed.

Lemma media_None l : media l = None <-> l = [].
Proof. destruct l; cbn; split; congruence. Qed.

Lemma concluidas_vazia s :
  concluidas s = []
  <-> forall a, In a (tarefas s) -> tempo_final (objetos s a) = None.
Proof.
  unfold concluidas. split.
  - intros H a Ha.
    destruct (tempo_final (objetos s a)) as [f|] eqn:E; [|reflexivity].
    assert (Hin : In a (filter (concluida s) (tarefas s))).
    { apply filter_In. split; [assumption|]. unfold concluida. now rewrite E. }
    rewrite H in Hin. destruct Hin.
  - intro H. induction (tarefas s) as [|a r IH]; cbn; [reflexivity|].
    unfold concluida at 1. rewrite (H a) by now left.
    apply IH. intros b Hb. apply H. now right.
Qed.

(** X2.  [calcular_turnaround_medio] returns [None] exactly when no task
    of the scheduler has a finish time, and [calcular_tempo_em_espera_medio]
    returns [None] in exactly the same states. *)
Theorem X2_medias_ausentes_sem_tarefa_concluida :
  forall s,
    (calcular_turnaround_medio s = None
     <-> forall a, In a (tarefas s) -> tempo_final (objetos s a) = None)
    /\ (calcular_tempo_em_espera_medio s = None
        <-> calcular_turnaround_medio s = None).
Proof.
  intro s. unfold calcular_turnaround_medio, calcular_tempo_em_espera_medio.
  rewrite !media_None, tempos_de_turnaround_concluidas,
    tempos_de_espera_concluidas.
  split.
  - rewrite <- concluidas_vazia.
    destruct (concluidas s); cbn; split; congruence.
  - destruct (concluidas s); cbn; split; congruence.
Qed.

(** ** A scheduler without tasks *)

(** X4.  On a scheduler to which no task was added, [escalonar] of every
    strategy returns at once, without raising: the clock and the overhead
    are still 0, and both averages are [None]. *)
Theorem X4_escalonador_sem_tarefas :
  forall alg q h n,
    exists s,
      simular alg q h [] n = Retorna s
      /\ tarefas s = [] /\ tempo_atual s = 0 /\ sobrecarga_total s = 0
      /\ calcular_turnaround_medio s = None
      /\ calcular_tempo_em_espera_medio s = None.
Proof.
  intros alg q h n. destruct alg, n; eexists; repeat split.
Qed.

(** ** The waiting limits of the FutureVision family *)

(** X6.  For every list of arrived tasks, the limit of
    [EscalonadorFutureVisionMin] is at most each of the limits computed
    from the median, from the mean and from the middle of the interval of
    the arrivals, and the limit of [EscalonadorFutureVisionMax] is at
    least each of them. *)
Theorem X6_limites_entre_min_e_max :
  forall h l,
    (limite_min h l <= limite_mediana h l <= limite_max h l)
    /\ (limite_min h l <= limite_media h l <= limite_max h l)
    /\ (limite_min h l <= limite_media_intervalo h l <= limite_max h l).
Proof.
  intros h l.
  unfold limite_min, limite_max, limite_mediana, limite_media,
    limite_media_intervalo.
  destruct l as [|a r]; [repeat split; lra|].
  set (m := chegada_media h (a :: r)).
  set (i := chegada_media_intervalo h (a :: r)).
  set (d := mediana_chegada h (a :: r)).
  pose proof (min_py_le_l (min_py m i) d).
  pose proof (min_py_le_r (min_py m i) d).
  pose proof (min_py_le_l m i).
  pose proof (min_py_le_r m i).
  pose proof (max_py_ge_l (max_py m i) d).
  pose proof (max_py_ge_r (max_py m i) d).
  pose proof (max_py_ge_l m i).
  pose proof (max_py_ge_r m i).
  repeat split; lra.
Qed.

(** ** The selection that ends main *)

Definition antes (x y : option Q) : Prop :=
  exists v w, x = Some v /\ y = Some w /\ v < w.

Definition nao_depois (x y : option Q) : Prop :=
  exists v w, x = Some v /\ y = Some w /\ v <= w.

Definition passo_menor_avg (acc : Resultado (string * option Q))
    (avg : string * option Q) : Resultado (string * option Q) :=
  match acc with
  | Erro e => Erro e
  | Ok m =>
      match menor_que (snd avg) (snd m) with
      | Erro e => Erro e
      | Ok true => Ok avg
      | Ok false => Ok m
      end
  end.

Lemma passo_menor_avg_erro l : forall e,
  fold_left passo_menor_avg l (Erro e) = Erro e.
Proof. induction l as [|x r IH]; intro e; cbn; [reflexivity|apply IH]. Qed.

Lemma menor_avg_varre demais : forall l1 m l2,
  (forall e, In e l1 -> antes (snd m) (snd e)) ->
  (forall e, In e l2 -> nao_depois (snd m) (snd e)) ->
  match fold_left passo_menor_avg demais (Ok m) with
  | Ok m' =>
      exists k1 k2,
        l1 ++ m :: l2 ++ demais = k1 ++ m' :: k2
        /\ (forall e, In e k1 -> antes (snd m') (snd e))
        /\ (forall e, In e k2 -> nao_depois (snd m') (snd e))
  | Erro e =>
      e = TypeError
      /\ exists x, In x (l1 ++ m :: l2 ++ demais) /\ snd x = None
  end.
Proof.
  induction demais as [|avg r' IH]; intros l1 m l2 H1 H2.
  - cbn. exists l1, l2. rewrite app_nil_r. now split.
  - cbn [fold_left]. unfold passo_menor_avg at 2. unfold menor_que.
    destruct (snd avg) as [va|] eqn:Ea.
    2:{ rewrite passo_menor_avg_erro. split; [reflexivity|].
        exists avg. split; [|assumption].
        apply in_or_app. right. right. apply in_or_app. right. now left. }
    destruct (snd m) as [vm|] eqn:Em.
    2:{ rewrite passo_menor_avg_erro. split; [reflexivity|].
        exists m. split; [|assumption].
        apply in_or_app. right. now left. }
    destruct (Qlt_bool va vm) eqn:E.
    + apply Qlt_bool_true in E.
      specialize (IH (l1 ++ m :: l2) avg []).
      replace ((l1 ++ m :: l2) ++ avg :: [] ++ r')
        with (l1 ++ m :: l2 ++ avg :: r') in IH
        by (rewrite <- app_assoc; reflexivity).
      apply IH; [|easy].
      intros e He. exists va. apply in_app_or in He. rewrite Ea.
      destruct He as [He|[<-|He]].
      * destruct (H1 e He) as (v & w & Hv & Hw & Hvw).
        exists w. repeat split; try assumption. injection Hv as <-. lra.
      * exists vm. now repeat split.
      * destruct (H2 e He) as (v & w & Hv & Hw & Hvw).
        exists w. repeat split; try assumption. injection Hv as <-. lra.
    + apply Qlt_bool_false in E.
      specialize (IH l1 m (l2 ++ [avg])).
      replace (l1 ++ m :: (l2 ++ [avg]) ++ r')
        with (l1 ++ m :: l2 ++ avg :: r') in IH
        by (rewrite <- (app_assoc l2); reflexivity).
      apply IH; [now rewrite Em|].
      intros e He. apply in_app_or in He. rewrite Em.
      destruct He as [He|[<-|[]]].
      * now apply H2.
      * exists vm, va. now repeat split.
Qed.

(** X7.  The selection that ends [main] raises [IndexError] exactly when
    the list has fewer than two entries, and [TypeError] only when an
    entry other than the first has no average.  When it returns an entry,
    the entry is not the first of the list but the first of least average
    among all the others: the entries between the first and it have a
    strictly greater average, and those after it have an average that is
    not smaller. *)
Theorem X7_menor_avg_ignora_a_primeira_entrada :
  forall avgs,
    match menor_avg avgs with
    | Ok m =>
        exists x l1 l2,
          avgs = x :: l1 ++ m :: l2
          /\ (forall e, In e l1 -> antes (snd m) (snd e))
          /\ (forall e, In e l2 -> nao_depois (snd m) (snd e))
    | Erro IndexError => (length avgs < 2)%nat
    | Erro TypeError =>
        (2 <= length avgs)%nat /\ exists e, In e (tl avgs) /\ snd e = None
    | Erro UnboundLocalError => False
    end.
Proof.
  intro avgs. unfold menor_avg.
  destruct avgs as [|x [|y r]]; [cbn; lia|cbn; lia|].
  change (fold_left _ r (Ok y)) with (fold_left passo_menor_avg r (Ok y)).
  pose proof (menor_avg_varre r [] y []
                (fun e (H : In e []) => match H with end)
                (fun e (H : In e []) => match H with end)) as H.
  destruct (fold_left passo_menor_avg r (Ok y)) as [m|e].
  - destruct H as (k1 & k2 & Hk & H1 & H2).
    exists x, k1, k2. cbn in Hk. rewrite Hk. now split.
  - destruct H as (-> & z & Hz & Hn). split; [cbn; lia|].
    exists z. now split.
Qed.

(** ** Which task each strategy picks *)

Lemma ordenar_vazia chave l : ordenar chave l = [] -> l = [].
Proof.
  intro H. apply (f_equal (@length nat)) in H. rewrite ordenar_length in H.
  now destruct l.
Qed.

(** The head of a sorted list is the first element of least key. *)
Lemma ordenar_primeiro_minimo chave l a r :
  ordenar chave l = a :: r ->
  exists l1 l2,
    l = l1 ++ a :: l2
    /\ (forall b, In b l1 -> chave a < chave b)
    /\ (forall b, In b l2 -> chave a <= chave b).
Proof.
  revert a r. induction l as [|x l' IH]; intros a r H; [discriminate|].
  change (ordenar chave (x :: l')) with (inserir chave x (ordenar chave l')) in H.
  destruct (ordenar chave l') as [|y r'] eqn:E.
  - cbn in H. injection H as <- <-. apply ordenar_vazia in E. subst l'.
    exists [], []. split; [reflexivity|]. split; easy.
  - destruct (IH y r' eq_refl) as (m1 & m2 & Hl & H1 & H2).
    cbn in H. destruct (Qle_bool (chave x) (chave y)) eqn:Ex;
      injection H as <- <-.
    + apply Qle_bool_iff in Ex. exists [], l'.
      split; [reflexivity|]. split; [easy|].
      intros b Hb. rewrite Hl in Hb. apply in_app_or in Hb.
      destruct Hb as [Hb|[<-|Hb]].
      * specialize (H1 b Hb). lra.
      * exact Ex.
      * specialize (H2 b Hb). lra.
    + apply Qle_bool_false in Ex. exists (x :: m1), m2.
      split; [now rewrite Hl|]. split; [|assumption].
      intros b [<-|Hb]; [assumption|now apply H1].
Qed.

Lemma ultimo_cons y l : l <> [] -> ultimo (y :: l) = ultimo l.
Proof. destruct l; [congruence|reflexivity]. Qed.

Lemma ultimo_app l x : ultimo (l ++ [x]) = Ok x.
Proof.
  induction l as [|y r IH]; [reflexivity|].
  cbn [app]. rewrite ultimo_cons; [assumption|].
  now destruct r.
Qed.

Lemma inserir_nao_vazia chave x l : inserir chave x l <> [].
Proof. destruct l; cbn; [discriminate|]. destruct (Qle_bool _ _); discriminate. Qed.

Lemma inserir_ultimo chave x l :
  (inserir chave x l = l ++ [x] /\ forall y, In y l -> chave y < chave x)
  \/ (ultimo (inserir chave x l) = ultimo l
      /\ exists y, In y l /\ chave x <= chave y).
Proof.
  induction l as [|y r IH]; cbn [inserir].
  - left. split; easy.
  - destruct (Qle_bool (chave x) (chave y)) eqn:E.
    + right. split; [reflexivity|]. exists y.
      apply Qle_bool_iff in E. split; [now left|assumption].
    + apply Qle_bool_false in E.
      destruct IH as [[H1 H2]|(Hu & z & Hz & Hle)].
      * left. rewrite H1. split; [reflexivity|].
        intros z [<-|Hz]; [assumption|now apply H2].
      * right. split.
        -- rewrite ultimo_cons by apply inserir_nao_vazia.
           rewrite ultimo_cons; [assumption|].
           intros ->. destruct Hz.
        -- exists z. split; [now right|assumption].
Qed.

(** The last element of a sorted list is the last element of greatest
    key. *)
Lemma ordenar_ultimo_maximo chave l a :
  ultimo (ordenar chave l) = Ok a ->
  exists l1 l2,
    l = l1 ++ a :: l2
    /\ (forall b, In b l1 -> chave b <= chave a)
    /\ (forall b, In b l2 -> chave b < chave a).
Proof.
  revert a. induction l as [|x l' IH]; intros a H; [discriminate|].
  change (ordenar chave (x :: l')) with (inserir chave x (ordenar chave l')) in H.
  destruct (inserir_ultimo chave x (ordenar chave l'))
    as [[H1 H2]|(Hu & y & Hy & Hle)].
  - rewrite H1, ultimo_app in H. injection H as <-.
    exists [], l'. split; [reflexivity|]. split; [easy|].
    intros b Hb. apply H2. now apply ordenar_In.
  - rewrite Hu in H. destruct (IH a H) as (m1 & m2 & Hl & G1 & G2).
    exists (x :: m1), m2. split; [now rewrite Hl|]. split; [|assumption].
    intros b [<-|Hb]; [|now apply G1].
    apply ordenar_In in Hy. rewrite Hl in Hy. apply in_app_or in Hy.
    destruct Hy as [Hy|[<-|Hy]].
    + specialize (G1 y Hy). lra.
    + assumption.
    + specialize (G2 y Hy). lra.
Qed.

(** X8.  [EscalonadorEDF] raises [TypeError] exactly when two or more
    tasks have arrived and one of them has no deadline: when it raises
    that is the case, and when it picks a task it is not (either a single
    task has arrived, which is picked without any comparison, or every
    arrived task has a deadline).  The task picked is the first arrived
    one of earliest deadline: the tasks queued before it have a strictly
    later deadline, those queued after it a deadline that is not
    earlier. *)
Theorem X8_edf_escolhe_o_menor_deadline :
  forall h agora l,
    match escolher_edf h agora l with
    | Ok a =>
        ((2 <= length l)%nat -> forall b, In b l -> deadline (h b) <> None)
        /\ exists l1 l2,
             l = l1 ++ a :: l2
             /\ (forall b da db,
                   In b l1 -> deadline (h a) = Some da ->
                   deadline (h b) = Some db -> da < db)
             /\ (forall b da db,
                   In b l2 -> deadline (h a) = Some da ->
                   deadline (h b) = Some db -> da <= db)
    | Erro TypeError =>
        (2 <= length l)%nat /\ exists b, In b l /\ deadline (h b) = None
    | Erro IndexError => l = []
    | Erro UnboundLocalError => False
    end.
Proof.
  intros h agora l. unfold escolher_edf, ordenar_por_deadline.
  destruct ((2 <=? length l)%nat && existsb (sem_deadline h) l) eqn:E.
  - apply andb_true_iff in E. destruct E as [E1 E2].
    apply Nat.leb_le in E1. split; [assumption|].
    apply existsb_exists in E2. destruct E2 as (b & Hb & Hs).
    exists b. split; [assumption|]. unfold sem_deadline in Hs.
    now destruct (deadline (h b)).
  - destruct (ordenar (chave_deadline h) l) as [|a r] eqn:Eo; cbn.
    + now apply ordenar_vazia in Eo.
    + split.
      { intros Hl b Hb Hd. apply Nat.leb_le in Hl. rewrite Hl in E.
        assert (E2 : existsb (sem_deadline h) l = true).
        { apply existsb_exists. exists b. split; [assumption|].
          unfold sem_deadline. now rewrite Hd. }
        rewrite E2 in E. discriminate E. }
      destruct (ordenar_primeiro_minimo _ _ _ _ Eo) as (l1 & l2 & Hl & H1 & H2).
      exists l1, l2. split; [assumption|].
      unfold chave_deadline in H1, H2.
      split; intros b da db Hb Ha Hdb.
      * specialize (H1 b Hb). now rewrite Ha, Hdb in H1.
      * specialize (H2 b Hb). now rewrite Ha, Hdb in H2.
Qed.

(** X9.  [EscalonadorPrioridadeP] and [EscalonadorUG] pick, among the
    arrived tasks, the last one of greatest priority value: no arrived task
    has a greater value, and those queued after the pick have a strictly
    smaller one. *)
Theorem X9_prioridade_p_escolhe_o_maior_valor :
  forall h agora l,
    match escolher_prioridade_p h agora l with
    | Ok a =>
        exists l1 l2,
          l = l1 ++ a :: l2
          /\ (forall b, In b l1 -> (prioridade (h b) <= prioridade (h a))%Z)
          /\ (forall b, In b l2 -> (prioridade (h b) < prioridade (h a))%Z)
    | Erro e => e = IndexError /\ l = []
    end.
Proof.
  intros h agora l. unfold escolher_prioridade_p.
  destruct (ultimo (ordenar (chave_prioridade h) l)) as [a|e] eqn:E.
  - destruct (ordenar_ultimo_maximo _ _ _ E) as (l1 & l2 & Hl & H1 & H2).
    exists l1, l2. split; [assumption|]. unfold chave_prioridade in H1, H2.
    split; intros b Hb.
    + rewrite Zle_Qle. now apply H1.
    + rewrite Zlt_Qlt. now apply H2.
  - destruct l as [|x r].
    + cbn in E. now injection E as <-.
    + destruct (ultimo_ok (ordenar (chave_prioridade h) (x :: r))) as [a Ha].
      * now apply ordenar_nao_vazia.
      * congruence.
Qed.

(** X10.  One iteration of [EscalonadorSJF.escalonar].  When some queued
    task has arrived, the first arrived task of least duration leaves the
    queue and runs for its whole duration.  When none has arrived, nothing
    leaves the queue: the task of the previous iteration runs again, and
    without a previous iteration the read of [tarefa] raises. *)
Theorem X10_sjf_escolhe_a_menor_duracao :
  forall s,
    match tarefas_que_chegaram s with
    | [] =>
        corpo_sjf s
        = match tarefa s with
          | Some b => Continua (executar_por_completo s b)
          | None => Levanta UnboundLocalError s
          end
    | _ :: _ =>
        exists a l1 l2,
          corpo_sjf s = Continua (executar_por_completo (retirar a s) a)
          /\ tarefas_que_chegaram s = l1 ++ a :: l2
          /\ (forall b, In b l1 ->
                duracao (objetos s a) < duracao (objetos s b))
          /\ (forall b, In b l2 ->
                duracao (objetos s a) <= duracao (objetos s b))
    end.
Proof.
  intro s. unfold corpo_sjf.
  destruct (tarefas_que_chegaram s) as [|c cs] eqn:Ec.
  - reflexivity.
  - destruct (ordenar (fun a => duracao (objetos s a)) (c :: cs))
      as [|a r] eqn:Eo.
    + apply ordenar_vazia in Eo. discriminate.
    + destruct (ordenar_primeiro_minimo _ _ _ _ Eo) as (l1 & l2 & Hl & H1 & H2).
      exists a, l1, l2. cbn. now repeat split.
Qed.

(** *** Sorted lists *)

Definition crescente (chave : nat -> Q) (l : list nat) : Prop :=
  StronglySorted (fun a b => chave a <= chave b) l.

Lemma inserir_crescente chave x l :
  crescente chave l -> crescente chave (inserir chave x l).
Proof.
  unfold crescente. induction l as [|y r IH]; intro H; cbn.
  - repeat constructor.
  - apply StronglySorted_inv in H. destruct H as [Hr Hy].
    destruct (Qle_bool (chave x) (chave y)) eqn:E.
    + apply Qle_bool_iff in E. constructor.
      * now constructor.
      * constructor; [assumption|].
        rewrite Forall_forall in *. intros z Hz. specialize (Hy z Hz). lra.
    + apply Qle_bool_false in E. constructor; [now apply IH|].
      rewrite Forall_forall in *. intros z Hz. apply inserir_In in Hz.
      destruct Hz as [->|Hz]; [lra|now apply Hy].
Qed.

Lemma ordenar_crescente chave l : crescente chave (ordenar chave l).
Proof.
  induction l as [|x r IH].
  - constructor.
  - change (ordenar chave (x :: r)) with (inserir chave x (ordenar chave r)).
    now apply inserir_crescente.
Qed.

Lemma find_crescente chave (p : nat -> bool) l a :
  crescente chave l -> find p l = Some a ->
  forall b, In b l -> p b = true -> chave a <= chave b.
Proof.
  unfold crescente. induction l as [|x r IH]; intros Hs Hf b Hb Hp;
    [destruct Hb|].
  apply StronglySorted_inv in Hs. destruct Hs as [Hr Hx].
  cbn in Hf. destruct (p x) eqn:Ex.
  - injection Hf as <-. destruct Hb as [<-|Hb]; [lra|].
    rewrite Forall_forall in Hx. now apply Hx.
  - destruct Hb as [<-|Hb]; [congruence|]. now apply IH.
Qed.

(** X11.  The selection of the FutureVision family.  The limit is
    computed on the arrived tasks sorted by remaining time.  When some
    arrived task has waited longer than the limit, the pick is one of
    those, of least remaining time among them; otherwise it is an arrived
    task of least remaining time. *)
Theorem X11_future_vision_escolhe :
  forall limite h agora l,
    match escolher_fv limite h agora l with
    | Ok a =>
        In a l
        /\ let lim := limite h (ordenar (fun b => tempo_restante (h b)) l) in
           (lim < tempo_aguardando h agora a
            /\ forall b, In b l -> lim < tempo_aguardando h agora b ->
                 tempo_restante (h a) <= tempo_restante (h b))
           \/ ((forall b, In b l -> tempo_aguardando h agora b <= lim)
               /\ forall b, In b l ->
                    tempo_restante (h a) <= tempo_restante (h b))
    | Erro e => e = IndexError /\ l = []
    end.
Proof.
  intros limite h agora l. unfold escolher_fv.
  set (k := fun b => tempo_restante (h b)).
  set (lim := limite h (ordenar k l)).
  destruct (find (fun a => Qlt_bool lim (tempo_aguardando h agora a))
              (ordenar k l)) as [a|] eqn:Ef.
  - pose proof (find_some _ _ Ef) as [Hin Hp].
    apply ordenar_In in Hin. apply Qlt_bool_true in Hp.
    split; [assumption|]. left. split; [assumption|].
    intros b Hb Hlim.
    apply (find_crescente k _ _ _ (ordenar_crescente k l) Ef b).
    + now apply ordenar_In.
    + now apply Qlt_bool_true.
  - destruct (ordenar k l) as [|a r] eqn:Eo; cbn.
    + split; [reflexivity|]. now apply ordenar_vazia in Eo.
    + assert (Hin : In a l) by (apply (ordenar_In k); rewrite Eo; now left).
      split; [assumption|]. right. split.
      * intros b Hb. apply Qlt_bool_false.
        apply (find_none _ _ Ef). rewrite <- Eo. now apply ordenar_In.
      * destruct (ordenar_primeiro_minimo _ _ _ _ Eo) as (l1 & l2 & Hl & H1 & H2).
        intros b Hb. rewrite Hl in Hb. apply in_app_or in Hb.
        destruct Hb as [Hb|[<-|Hb]].
        -- specialize (H1 b Hb). unfold k in H1. lra.
        -- lra.
        -- now apply H2.
Qed.

(** ** The timeline of a run *)

(** Two bursts that do not overlap. *)
Definition disjuntas (b c : Q * Q) : Prop :=
  snd b <= fst c \/ snd c <= fst b.

(** A list of bursts in which each one ends before the next ones start. *)
Definition em_ordem (l : list (Q * Q)) : Prop :=
  StronglySorted (fun b c => snd b <= fst c) l.

(** What the bursts recorded for the tasks of the scheduler satisfy at
    every moment of a run. *)
Record Cronologia (s : Estado) : Prop := {
  cr_exec :
    forall a, In a (tarefas s) ->
    forall b, In b (tempos_execucao (objetos s a)) ->
      tempo_chegada (objetos s a) <= fst b
      /\ fst b <= snd b /\ snd b <= tempo_atual s;
  cr_ordem :
    forall a, In a (tarefas s) -> em_ordem (tempos_execucao (objetos s a));
  cr_disj :
    forall a a', In a (tarefas s) -> In a' (tarefas s) -> a <> a' ->
    forall b b',
      In b (tempos_execucao (objetos s a)) ->
      In b' (tempos_execucao (objetos s a')) -> disjuntas b b'
}.

(** A step in which the task at [a] receives the burst [b], which starts
    no earlier than the clock and than the arrival of the task. *)
Definition passo_com_execucao (s s' : Estado) (a : nat) (b : Q * Q) : Prop :=
  tarefas s' = tarefas s
  /\ (forall c, tempo_chegada (objetos s' c) = tempo_chegada (objetos s c))
  /\ (forall c, c <> a ->
        tempos_execucao (objetos s' c) = tempos_execucao (objetos s c))
  /\ tempos_execucao (objetos s' a) = tempos_execucao (objetos s a) ++ [b]
  /\ tempo_atual s <= fst b
  /\ tempo_chegada (objetos s a) <= fst b
  /\ fst b <= snd b
  /\ snd b <= tempo_atual s'.

(** A step in which no task runs. *)
Definition passo_sem_execucao (s s' : Estado) : Prop :=
  tarefas s' = tarefas s
  /\ (forall c, tempo_chegada (objetos s' c) = tempo_chegada (objetos s c)
                /\ tempos_execucao (objetos s' c)
                   = tempos_execucao (objetos s c))
  /\ tempo_atual s <= tempo_atual s'.

Lemma em_ordem_app l b :
  em_ordem l -> (forall x, In x l -> snd x <= fst b) -> em_ordem (l ++ [b]).
Proof.
  unfold em_ordem. induction l as [|y r IH]; intros Hs Hb; cbn.
  - repeat constructor.
  - apply StronglySorted_inv in Hs. destruct Hs as [Hr Hy].
    constructor.
    + apply IH; [assumption|]. intros x Hx. apply Hb. now right.
    + apply Forall_app. split; [assumption|].
      constructor; [|constructor]. apply Hb. now left.
Qed.

Lemma cronologia_sem_execucao s s' :
  Cronologia s -> passo_sem_execucao s s' -> Cronologia s'.
Proof.
  intros [He Ho Hd] (Ht & Hc & Hr). split.
  - intros a Ha b Hb. rewrite Ht in Ha. destruct (Hc a) as [-> Hx].
    rewrite Hx in Hb. destruct (He a Ha b Hb) as (H1 & H2 & H3).
    repeat split; try assumption. lra.
  - intros a Ha. rewrite Ht in Ha. destruct (Hc a) as [_ ->]. now apply Ho.
  - intros a a' Ha Ha' Hne b b' Hb Hb'. rewrite Ht in Ha, Ha'.
    destruct (Hc a) as [_ Hx]. destruct (Hc a') as [_ Hx'].
    rewrite Hx in Hb. rewrite Hx' in Hb'. now apply (Hd a a').
Qed.

Lemma cronologia_com_execucao s s' a b :
  Cronologia s -> passo_com_execucao s s' a b -> Cronologia s'.
Proof.
  intros [He Ho Hd] (Ht & Hc & Hout & Ha & H1 & H2 & H3 & H4).
  assert (Hold : forall c, In c (tarefas s) ->
            forall x, In x (tempos_execucao (objetos s c)) ->
                      snd x <= fst b).
  { intros c Hin x Hx. destruct (He c Hin x Hx) as (_ & _ & G). lra. }
  split.
  - intros c Hin x Hx. rewrite Ht in Hin. rewrite Hc.
    destruct (Nat.eq_dec c a) as [->|Hne].
    + rewrite Ha in Hx. apply in_app_or in Hx. destruct Hx as [Hx|[<-|[]]].
      * destruct (He a Hin x Hx) as (G1 & G2 & G3).
        repeat split; try assumption. lra.
      * repeat split; assumption.
    + rewrite (Hout c Hne) in Hx.
      destruct (He c Hin x Hx) as (G1 & G2 & G3).
      repeat split; try assumption. lra.
  - intros c Hin. rewrite Ht in Hin.
    destruct (Nat.eq_dec c a) as [->|Hne].
    + rewrite Ha. apply em_ordem_app; [now apply Ho|]. now apply Hold.
    + rewrite (Hout c Hne). now apply Ho.
  - intros c c' Hin Hin' Hne x x' Hx Hx'. rewrite Ht in Hin, Hin'.
    destruct (Nat.eq_dec c a) as [->|Hca];
      destruct (Nat.eq_dec c' a) as [->|Hca']; try congruence.
    + rewrite Ha in Hx. rewrite (Hout c' Hca') in Hx'.
      apply in_app_or in Hx. destruct Hx as [Hx|[<-|[]]].
      * now apply (Hd a c').
      * right. now apply (Hold c').
    + rewrite Ha in Hx'. rewrite (Hout c Hca) in Hx.
      apply in_app_or in Hx'. destruct Hx' as [Hx'|[<-|[]]].
      * now apply (Hd c a).
      * left. now apply (Hold c).
    + rewrite (Hout c Hca) in Hx. rewrite (Hout c' Hca') in Hx'.
      now apply (Hd c c').
Qed.

(** The queue holds tasks of the scheduler only. *)
Definition fila_contida (s : Estado) : Prop :=
  forall a, In a (fila s) -> In a (tarefas s).

(** *** The quantum-bounded loop *)

Definition quantum_valido (s : Estado) : Prop :=
  0 < quantum s /\ quantum s <= quantum_atual s.

Section LinhaDoTempoComQuantum.

Variable escolher : Heap -> Q -> list nat -> Resultado nat.
Variable conceder : Q -> Q -> TarefaCAV -> Resultado (Q * Q * bool).

Hypothesis escolher_In :
  forall h agora l a, escolher h agora l = Ok a -> In a l.
Hypothesis conceder_ge :
  forall q qa t x qa' u,
    q <= qa -> conceder q qa t = Ok (x, qa', u) ->
    (tempo_restante t <= x \/ q <= x) /\ q <= qa'.

Lemma concedido_positivo s a x qa u :
  quantum_valido s -> 0 < tempo_restante (objetos s a) ->
  concedido conceder s a (Ok (x, qa, u)) ->
  0 < x /\ quantum s <= qa.
Proof.
  intros [Hq Hqa] Hr Hc. unfold concedido in Hc.
  apply conceder_ge in Hc; [|assumption].
  autorewrite with tarefa in Hc. destruct Hc as [[Hc|Hc] Hc']; split;
    try assumption; lra.
Qed.

Lemma iteracao_quantum_valido s p :
  Iteracao escolher conceder s p -> quantum_valido s ->
  quantum_valido (estado_do_passo p).
Proof.
  intros Hit Hv. pose proof Hv as [Hq Hqa].
  destruct Hit as [He|e He Hesc|a Ha Hr|a e Ha Hr Hc|a x qa u Ha Hr Hc Hf
                  |a x qa u Ha Hr Hc Hf]; cbn [estado_do_passo];
    try exact Hv.
  - destruct (concedido_positivo s a x qa u Hv Hr Hc) as [_ Hge].
    split; autorewrite with tarefa; cbn; assumption.
  - destruct (concedido_positivo s a x qa u Hv Hr Hc) as [_ Hge].
    split; autorewrite with tarefa; cbn; [assumption|].
    destruct u; [apply Qle_refl|assumption].
Qed.

Lemma iteracao_fila_contida s p :
  Iteracao escolher conceder s p -> fila_contida s ->
  fila_contida (estado_do_passo p).
Proof.
  intros Hit Hf.
  destruct Hit as [He|e He Hesc|a Ha Hr|a e Ha Hr Hc|a x qa u Ha Hr Hc Hfim
                  |a x qa u Ha Hr Hc Hfim]; cbn [estado_do_passo];
    try exact Hf; intros b; autorewrite with tarefa; cbn; intro Hb.
  - apply Hf. eapply remover_In, Hb.
  - apply Hf. eapply remover_In, Hb.
  - apply reinserir_In in Hb. destruct Hb as [->|Hb].
    + apply Hf. now apply (escolhida_fila escolher escolher_In).
    + apply Hf. eapply remover_In, Hb.
  - apply Hf. eapply remover_In, Hb.
Qed.

(** Every iteration either lets no task run or gives one queued task a
    burst of positive length. *)
Lemma iteracao_passo s p :
  Iteracao escolher conceder s p -> quantum_valido s ->
  passo_sem_execucao s (estado_do_passo p)
  \/ exists a b,
       In a (fila s) /\ fst b < snd b
       /\ passo_com_execucao s (estado_do_passo p) a b.
Proof.
  intros Hit Hv.
  pose proof (iteracao_mesmos_dados escolher conceder s p Hit)
    as (Ht & _ & Hd).
  assert (Hch : forall c, tempo_chegada (objetos (estado_do_passo p) c)
                          = tempo_chegada (objetos s c))
    by (intro c; now destruct (Hd c) as (_ & -> & _)).
  destruct Hit as [He|e He Hesc|a Ha Hr|a e Ha Hr Hc|a x qa u Ha Hr Hc Hf
                  |a x qa u Ha Hr Hc Hf]; cbn [estado_do_passo] in *.
  - left. split; [reflexivity|]. split; [now split|]. cbn.
    pose proof (teto_ge (tempo_atual s + 1)). lra.
  - left. split; [reflexivity|]. split; [now split|]. apply Qle_refl.
  - left. split; [reflexivity|]. split; [now split|]. apply Qle_refl.
  - left. split; [reflexivity|]. split; [|apply Qle_refl].
    intro c. split; [apply Hch|]. cbn. unfold gravar_obj.
    destruct (Nat.eqb c a) eqn:E; [|reflexivity].
    apply Nat.eqb_eq in E. subst c. now autorewrite with tarefa.
  - right. destruct (concedido_positivo s a x qa u Hv Hr Hc) as [Hx _].
    exists a.
    exists (max_py (tempo_atual s) (tempo_chegada (objetos s a)),
            max_py (tempo_atual s) (tempo_chegada (objetos s a)) + x).
    split; [now apply (escolhida_fila escolher escolher_In)|].
    split; [cbn; lra|].
    split; [assumption|]. split; [assumption|].
    split; [intros c Hne; autorewrite with tarefa;
            now rewrite executar_fatia_outros|].
    split; [autorewrite with tarefa; rewrite executar_fatia_objetos;
            now autorewrite with tarefa|].
    cbn [fst snd]. autorewrite with tarefa. cbn.
    pose proof (max_py_ge_l (tempo_atual s) (tempo_chegada (objetos s a))).
    pose proof (max_py_ge_r (tempo_atual s) (tempo_chegada (objetos s a))).
    unfold sobrecarga_preempcao. repeat split; lra.
  - right. destruct (concedido_positivo s a x qa u Hv Hr Hc) as [Hx _].
    exists a.
    exists (max_py (tempo_atual s) (tempo_chegada (objetos s a)),
            max_py (tempo_atual s) (tempo_chegada (objetos s a)) + x).
    split; [now apply (escolhida_fila escolher escolher_In)|].
    split; [cbn; lra|].
    split; [assumption|]. split; [assumption|].
    split; [intros c Hne; autorewrite with tarefa;
            rewrite gravar_obj_neq by assumption;
            now rewrite executar_fatia_outros|].
    split; [autorewrite with tarefa; cbn;
            rewrite executar_fatia_objetos; now autorewrite with tarefa|].
    cbn [fst snd]. autorewrite with tarefa. cbn.
    pose proof (max_py_ge_l (tempo_atual s) (tempo_chegada (objetos s a))).
    pose proof (max_py_ge_r (tempo_atual s) (tempo_chegada (objetos s a))).
    repeat split; lra.
Qed.

Definition LinhaComQuantum (s : Estado) : Prop :=
  quantum_valido s /\ fila_contida s /\ Cronologia s.

Lemma iteracao_linha s p :
  Iteracao escolher conceder s p -> LinhaComQuantum s ->
  LinhaComQuantum (estado_do_passo p).
Proof.
  intros Hit (Hv & Hf & Hc).
  split; [now apply (iteracao_quantum_valido s p)|].
  split; [now apply (iteracao_fila_contida s p)|].
  destruct (iteracao_passo s p Hit Hv) as [H|(a & b & _ & _ & H)].
  - now apply (cronologia_sem_execucao s).
  - now apply (cronologia_com_execucao s _ a b).
Qed.

End LinhaDoTempoComQuantum.

(** *** The run-to-completion loops *)

Record LinhaCompleta (s : Estado) : Prop := {
  lc_fila : fila_contida s;
  lc_tarefa : forall b, tarefa s = Some b -> In b (tarefas s);
  lc_duracao : forall a, In a (tarefas s) -> 0 <= duracao (objetos s a);
  lc_cron : Cronologia s
}.

Lemma executar_por_completo_passo s a :
  0 <= duracao (objetos s a) ->
  passo_com_execucao s (executar_por_completo s a) a
    (max_py (tempo_atual s) (tempo_chegada (objetos s a)),
     max_py (tempo_atual s) (tempo_chegada (objetos s a))
     + duracao (objetos s a)).
Proof.
  intro Hd.
  pose proof (max_py_ge_l (tempo_atual s) (tempo_chegada (objetos s a))).
  pose proof (max_py_ge_r (tempo_atual s) (tempo_chegada (objetos s a))).
  split; [reflexivity|].
  split; [intro c; now autorewrite with tarefa|].
  split; [intros c Hne; now rewrite executar_por_completo_outros|].
  split; [now autorewrite with tarefa|].
  autorewrite with tarefa. cbn [fst snd]. repeat split; lra.
Qed.

Lemma executar_sem_preempcao_passo s a :
  0 <= duracao (objetos s a) ->
  tempo_chegada (objetos s a) <= tempo_atual s ->
  passo_com_execucao s (executar_sem_preempcao s a) a
    (tempo_atual s, tempo_atual s + duracao (objetos s a)).
Proof.
  intros Hd Hc.
  split; [reflexivity|].
  split; [intro c; now autorewrite with tarefa|].
  split; [intros c Hne; now rewrite executar_sem_preempcao_outros|].
  split; [now autorewrite with tarefa|].
  autorewrite with tarefa. cbn [fst snd]. repeat split; lra.
Qed.

Lemma linha_completa_por_completo s a :
  LinhaCompleta s -> In a (tarefas s) ->
  LinhaCompleta (executar_por_completo s a).
Proof.
  intros [Hf Ht Hd Hc] Ha. split.
  - exact Hf.
  - exact Ht.
  - intros b Hb. autorewrite with tarefa in *. now apply Hd.
  - eapply (cronologia_com_execucao s _ a); [exact Hc|].
    apply executar_por_completo_passo. now apply Hd.
Qed.

Lemma linha_completa_retirar s a :
  LinhaCompleta s -> In a (fila s) -> LinhaCompleta (retirar a s).
Proof.
  intros [Hf Ht Hd Hc] Ha. split.
  - intros b Hb. cbn in *. apply Hf. eapply remover_In, Hb.
  - intros b [= <-]. cbn. now apply Hf.
  - exact Hd.
  - destruct Hc as [H1 H2 H3]. now split.
Qed.

Lemma iteracaoSJF_linha s p :
  IteracaoSJF s p -> LinhaCompleta s -> LinhaCompleta (estado_do_passo p).
Proof.
  intros Hit Hl.
  destruct Hit as [a Ha|b He Hb|He Hn]; cbn [estado_do_passo].
  - apply chegaram_In in Ha. destruct Ha as [Ha _].
    apply linha_completa_por_completo.
    + now apply linha_completa_retirar.
    + cbn. now apply (lc_fila s Hl).
  - apply linha_completa_por_completo; [assumption|].
    now apply (lc_tarefa s Hl).
  - exact Hl.
Qed.

Lemma iteracaoNP_linha s p :
  IteracaoNP s p -> LinhaCompleta s -> LinhaCompleta (estado_do_passo p).
Proof.
  intros Hit Hl.
  destruct Hit as [He|a Ha]; cbn [estado_do_passo].
  - destruct Hl as [Hf Ht Hd Hc]. split; try assumption.
    apply (cronologia_sem_execucao s); [assumption|].
    split; [reflexivity|]. split; [now split|]. cbn. lra.
  - apply chegaram_In in Ha. destruct Ha as [Ha Hch].
    pose proof (linha_completa_retirar s a Hl Ha) as [Hf Ht Hd Hc].
    assert (Hin : In a (tarefas s)) by now apply (lc_fila s Hl).
    split.
    + exact Hf.
    + exact Ht.
    + intros b Hb. autorewrite with tarefa in *. now apply Hd.
    + eapply (cronologia_com_execucao (retirar a s) _ a); [exact Hc|].
      apply executar_sem_preempcao_passo; [now apply Hd|exact Hch].
Qed.

Lemma fifo_linha l : forall s,
  LinhaCompleta s -> (forall a, In a l -> In a (tarefas s)) ->
  LinhaCompleta (fold_left executar_por_completo l s).
Proof.
  induction l as [|a r IH]; intros s Hl Hin; cbn; [exact Hl|].
  apply IH.
  - apply linha_completa_por_completo; [assumption|]. apply Hin. now left.
  - intros b Hb. autorewrite with tarefa. apply Hin. now right.
Qed.

(** *** The whole run *)

Lemma tarefa_nova_execucoes t : tarefa_nova t -> tempos_execucao t = [].
Proof. intro H. apply (f_equal tempos_execucao) in H. exact H. Qed.

Lemma inicial_tarefas alg q h refs a :
  In a (tarefas (inicial alg q h refs)) <-> In a refs.
Proof.
  destruct (inicial_campos alg q h refs) as (_ & H2 & _).
  rewrite H2. apply ordenar_In.
Qed.

Lemma inicial_cronologia alg q h refs :
  (forall a, In a refs -> tarefa_nova (h a)) ->
  Cronologia (inicial alg q h refs).
Proof.
  intro Hn.
  destruct (inicial_campos alg q h refs) as (H1 & _).
  assert (Hv : forall a, In a (tarefas (inicial alg q h refs)) ->
            tempos_execucao (objetos (inicial alg q h refs) a) = []).
  { intros a Ha. apply inicial_tarefas in Ha. rewrite H1.
    now apply tarefa_nova_execucoes, Hn. }
  split.
  - intros a Ha b Hb. rewrite (Hv a Ha) in Hb. destruct Hb.
  - intros a Ha. rewrite (Hv a Ha). constructor.
  - intros a a' Ha _ _ b b' Hb _. rewrite (Hv a Ha) in Hb. destruct Hb.
Qed.

Lemma inicial_fila_contida alg q h refs : fila_contida (inicial alg q h refs).
Proof.
  destruct (inicial_campos alg q h refs) as (_ & _ & H3 & _).
  intros a Ha. now rewrite H3 in Ha.
Qed.

(** The bursts recorded at any moment of any run form a timeline. *)
Lemma simular_cronologia alg q h refs n :
  (forall a, In a refs -> tarefa_nova (h a)) ->
  (tem_quantum alg = true -> 0 < q) ->
  (tem_quantum alg = false -> forall a, In a refs -> 0 <= duracao (h a)) ->
  Cronologia (estado_de (simular alg q h refs n)).
Proof.
  intros Hn Hq Hd.
  destruct (inicial_campos alg q h refs) as (H1 & H2 & H3 & H4 & H5 & H6).
  destruct (tem_quantum alg) eqn:Etq.
  - rewrite simular_com_quantum by assumption.
    enough (H : LinhaComQuantum
                  (estado_de
                     (laco (corpo_quantum (escolher_de alg) (conceder_de alg))
                        n (inicial alg q h refs)))) by apply H.
    apply laco_preserva.
    + intros s Hs.
      apply (iteracao_linha _ _ (escolher_de_In alg) (conceder_de_ge alg) s);
        [apply corpo_quantum_iteracao|assumption].
    + destruct (H6 eq_refl) as [G1 G2]. split; [|split].
      * split; rewrite G1; [now apply Hq|rewrite G2; apply Qle_refl].
      * apply inicial_fila_contida.
      * now apply inicial_cronologia.
  - assert (Hini : LinhaCompleta (inicial alg q h refs)).
    { split.
      - apply inicial_fila_contida.
      - rewrite H4. discriminate.
      - intros a Ha. apply inicial_tarefas in Ha. rewrite H1.
        now apply Hd.
      - now apply inicial_cronologia. }
    destruct alg; try discriminate Etq.
    + rewrite simular_fifo. cbn [estado_de].
      now apply fifo_linha.
    + rewrite simular_sjf.
      apply (laco_preserva corpo_sjf LinhaCompleta); [|assumption].
      intros s Hs.
      apply (iteracaoSJF_linha s); [apply corpo_sjf_iteracao|assumption].
    + rewrite simular_np.
      apply (laco_preserva corpo_prioridade_np LinhaCompleta); [|assumption].
      intros s Hs.
      apply (iteracaoNP_linha s);
        [apply corpo_prioridade_np_iteracao|assumption].
Qed.

Lemma simular_tarefas alg q h refs n a :
  In a (tarefas (estado_de (simular alg q h refs n))) <-> In a refs.
Proof.
  pose proof (simular_mesmos_dados alg q h refs n) as (Ht & _).
  rewrite Ht. apply inicial_tarefas.
Qed.

Lemma simular_chegada alg q h refs n a :
  tempo_chegada (objetos (estado_de (simular alg q h refs n)) a)
  = tempo_chegada (h a).
Proof.
  pose proof (simular_mesmos_dados alg q h refs n) as (_ & _ & Hd).
  destruct (Hd a) as (_ & -> & _).
  destruct (inicial_campos alg q h refs) as (-> & _). reflexivity.
Qed.

(** X12.  At every moment of a run of any strategy (newly constructed
    tasks; a positive quantum for the strategies that take one,
    non-negative durations for the others), every burst recorded for a
    task starts no earlier than the arrival of the task, does not end
    before it starts, and ends no later than the clock. *)
Theorem X12_execucoes_depois_da_chegada :
  forall alg q h refs n,
    (forall a, In a refs -> tarefa_nova (h a)) ->
    (tem_quantum alg = true -> 0 < q) ->
    (tem_quantum alg = false -> forall a, In a refs -> 0 <= duracao (h a)) ->
    forall a b,
      In a refs ->
      In b (tempos_execucao (objetos (estado_de (simular alg q h refs n)) a)) ->
      tempo_chegada (h a) <= fst b
      /\ fst b <= snd b
      /\ snd b <= tempo_atual (estado_de (simular alg q h refs n)).
Proof.
  intros alg q h refs n Hn Hq Hd a b Ha Hb.
  pose proof (simular_cronologia alg q h refs n Hn Hq Hd) as Hc.
  rewrite <- (simular_chegada alg q h refs n a).
  apply (cr_exec _ Hc a); [|assumption]. now apply simular_tarefas.
Qed.

Lemma X12_execucoes_witness :
  tempo_chegada (cenario_rr 0%nat) <= fst (0, 2)
  /\ fst (0, 2) <= snd (0, 2)
  /\ snd (0, 2)
     <= tempo_atual (estado_de (simular RoundRobin 2 cenario_rr [0; 1]%nat 10)).
Proof.
  apply (X12_execucoes_depois_da_chegada RoundRobin 2 cenario_rr
           [0; 1]%nat 10%nat).
  - exact cenario_rr_novas.
  - intros _. reflexivity.
  - discriminate.
  - simpl. auto.
  - vm_compute. left. reflexivity.
Defined.

(** X13.  At every moment of a run of any strategy (same conditions), the
    processor runs one task at a time: the bursts of a task are recorded
    in chronological order, each one ending before the next one starts,
    and no burst of a task overlaps a burst of another task. *)
Theorem X13_uma_tarefa_de_cada_vez :
  forall alg q h refs n,
    (forall a, In a refs -> tarefa_nova (h a)) ->
    (tem_quantum alg = true -> 0 < q) ->
    (tem_quantum alg = false -> forall a, In a refs -> 0 <= duracao (h a)) ->
    let s := estado_de (simular alg q h refs n) in
    (forall a, In a refs -> em_ordem (tempos_execucao (objetos s a)))
    /\ (forall a a' b b',
          In a refs -> In a' refs -> a <> a' ->
          In b (tempos_execucao (objetos s a)) ->
          In b' (tempos_execucao (objetos s a')) ->
          disjuntas b b').
Proof.
  intros alg q h refs n Hn Hq Hd s.
  pose proof (simular_cronologia alg q h refs n Hn Hq Hd) as Hc.
  split.
  - intros a Ha. apply (cr_ordem _ Hc). now apply simular_tarefas.
  - intros a a' b b' Ha Ha' Hne Hb Hb'.
    apply (cr_disj _ Hc a a'); try assumption; now apply simular_tarefas.
Qed.

Lemma X13_uma_tarefa_witness :
  (forall a,
     In a [0; 1]%nat ->
     em_ordem
       (tempos_execucao
          (objetos (estado_de (simular RoundRobin 2 cenario_rr [0; 1]%nat 10))
             a)))
  /\ (forall a a' b b',
        In a [0; 1]%nat -> In a' [0; 1]%nat -> a <> a' ->
        In b
          (tempos_execucao
             (objetos
                (estado_de (simular RoundRobin 2 cenario_rr [0; 1]%nat 10)) a)) ->
        In b'
          (tempos_execucao
             (objetos
                (estado_de (simular RoundRobin 2 cenario_rr [0; 1]%nat 10)) a')) ->
        disjuntas b b').
Proof.
  apply (X13_uma_tarefa_de_cada_vez RoundRobin 2 cenario_rr [0; 1]%nat 10%nat).
  - exact cenario_rr_novas.
  - intros _. reflexivity.
  - discriminate.
Defined.

(** ** The assignment of the finish time *)

(** X28.  In every strategy with a quantum (Round-Robin, EDF, preemptive
    priority, adaptive quantum and the FutureVision family), run over
    distinct task objects: at every moment of the run the finish time of
    a task has been assigned at most once, and a task whose finish time
    has been assigned has nothing left to run; and when the run of newly
    constructed tasks returns, the finish time of every task of strictly
    positive duration has been assigned exactly once. *)
Theorem X28_tempo_final_atribuido_uma_vez :
  forall alg q h refs n,
    tem_quantum alg = true -> NoDup refs ->
    let s := estado_de (simular alg q h refs n) in
    (forall a, (atribuicoes_de_final s a <= 1)%nat)
    /\ finalizadas_sem_restante s
    /\ ((forall b, In b refs -> tarefa_nova (h b)) ->
        simular alg q h refs n = Retorna s ->
        forall a, In a refs -> 0 < duracao (h a) ->
                  atribuicoes_de_final s a = 1%nat).
Proof.
  intros alg q h refs n Hq Hnd s.
  unfold atribuicoes_de_final, finalizadas_sem_restante.
  pose proof (quantum_Inv alg q h refs n Hq Hnd) as Hi. fold s in Hi.
  split; [|split].
  - apply NoDup_count_occ. exact (inv_fin _ Hi).
  - intros a Ha. now apply (inv_zero _ Hi).
  - intros Hnova Hret a Ha Hdur.
    apply NoDup_count_occ'; [exact (inv_fin _ Hi)|].
    now apply (quantum_finaliza alg q h refs n s).
Qed.

Lemma X28_tempo_final_witness :
  (forall a,
     (atribuicoes_de_final
        (estado_de (simular RoundRobin 2 cenario_rr [0; 1]%nat 5)) a
      <= 1)%nat)
  /\ finalizadas_sem_restante
       (estado_de (simular RoundRobin 2 cenario_rr [0; 1]%nat 5))
  /\ atribuicoes_de_final
       (estado_de (simular RoundRobin 2 cenario_rr [0; 1]%nat 5)) 0%nat
     = 1%nat.
Proof.
  destruct (X28_tempo_final_atribuido_uma_vez RoundRobin 2 cenario_rr
              [0; 1]%nat 5%nat eq_refl NoDup_0_1) as (H1 & H2 & H3).
  split; [exact H1|]. split; [exact H2|].
  apply H3.
  - exact cenario_rr_novas.
  - vm_compute. reflexivity.
  - simpl. auto.
  - vm_compute. reflexivity.
Defined.

(** ** The attributes of a task and its bursts *)

(** A property kept by the iterations that do not raise holds as long as
    the run has not raised. *)
Lemma laco_preserva_sem_erro (corpo : Estado -> Passo) (P : Estado -> Prop) :
  (forall s s', P s -> corpo s = Continua s' -> P s') ->
  forall n s, P s ->
  match laco corpo n s with
  | Aborta _ _ => True
  | Retorna s' | Esgota s' => P s'
  end.
Proof.
  intros Hp n. induction n as [|n IH]; intros s Hs; simpl.
  - destruct (fila s); exact Hs.
  - destruct (fila s); [exact Hs|].
    destruct (corpo s) as [s1|e s1] eqn:E; [|exact I].
    apply IH. eapply Hp; eauto.
Qed.

(** The last burst of a list. *)
Definition ultima (l : list (Q * Q)) : option (Q * Q) := hd_error (rev l).

Lemma ultima_app l b : ultima (l ++ [b]) = Some b.
Proof. unfold ultima. now rewrite rev_unit. Qed.

Lemma hd_error_app (l : list (Q * Q)) b :
  hd_error (l ++ [b]) = match l with [] => Some b | x :: _ => Some x end.
Proof. now destruct l. Qed.

(** How the attributes of a task follow from its list of bursts in the
    quantum-bounded strategies. *)
Record Registro (t : TarefaCAV) : Prop := {
  rg_inicio :
    tempo_inicio t = option_map fst (hd_error (tempos_execucao t));
  rg_resposta :
    tempo_de_resposta t
    = option_map (fun i => i - tempo_chegada t) (tempo_inicio t);
  rg_inicio_atual :
    tempo_inicio_execucao_atual t
    = option_map fst (ultima (tempos_execucao t));
  rg_final_atual :
    tempo_final_execucao_atual t
    = option_map snd (ultima (tempos_execucao t));
  rg_final :
    forall z, tempo_final t = Some z ->
              tempo_final_execucao_atual t = Some z
              /\ tempo_restante t <= 0
}.

Lemma registro_nova t : tarefa_nova t -> Registro t.
Proof.
  intro H. rewrite H. split; try reflexivity. cbn. discriminate.
Qed.

Lemma registro_fatia agora x t :
  Registro t -> 0 < tempo_restante t ->
  Registro
    (contabilizar_execucao (max_py agora (tempo_chegada t)) x
       (iniciar_execucao agora t)).
Proof.
  intros [H1 H2 H3 H4 H5] Hr.
  assert (Hi : tempo_inicio
                 (contabilizar_execucao (max_py agora (tempo_chegada t)) x
                    (iniciar_execucao agora t))
               = match tempo_inicio t with
                 | None => Some (max_py agora (tempo_chegada t))
                 | Some i => Some i
                 end) by reflexivity.
  split.
  - rewrite Hi. autorewrite with tarefa. rewrite hd_error_app.
    rewrite H1. now destruct (tempos_execucao t).
  - autorewrite with tarefa. reflexivity.
  - autorewrite with tarefa. now rewrite ultima_app.
  - autorewrite with tarefa. now rewrite ultima_app.
  - autorewrite with tarefa. intros z Hz.
    destruct (H5 z Hz) as [_ Hle]. lra.
Qed.

Lemma registro_finalizada t z :
  Registro t -> tempo_final_execucao_atual t = Some z ->
  tempo_restante t <= 0 ->
  Registro (set_tempo_final (Some z) t).
Proof.
  intros [H1 H2 H3 H4 H5] Hz Hr. split; try assumption.
  cbn. intros z' [= <-]. now split.
Qed.

Lemma iteracao_registro escolher conceder s s' b :
  Iteracao escolher conceder s (Continua s') ->
  Registro (objetos s b) -> Registro (objetos s' b).
Proof.
  intros Hit Hb. remember (Continua s') as p eqn:Ep.
  destruct Hit as [He|e He Hesc|a Ha Hr|a e Ha Hr Hc|a x qa u Ha Hr Hc Hf
                  |a x qa u Ha Hr Hc Hf]; inversion Ep; subst s'; clear Ep.
  - exact Hb.
  - exact Hb.
  - autorewrite with tarefa. rewrite executar_fatia_objetos.
    cbn [objetos tempo_atual retirar set_fila set_tarefa].
    unfold gravar_obj. destruct (Nat.eqb b a) eqn:E; [|exact Hb].
    apply Nat.eqb_eq in E. subst b. now apply registro_fatia.
  - autorewrite with tarefa. rewrite executar_fatia_objetos.
    cbn [objetos tempo_atual retirar set_fila set_tarefa].
    unfold gravar_obj at 1. destruct (Nat.eqb b a) eqn:E.
    + apply Nat.eqb_eq in E. subst b. rewrite gravar_obj_eq.
      apply registro_finalizada.
      * now apply registro_fatia.
      * now autorewrite with tarefa.
      * autorewrite with tarefa. exact Hf.
    + unfold gravar_obj. now rewrite E.
Qed.

(** X16.  In a run of a quantum-bounded strategy that has not raised, the
    attributes of every task agree with its list of bursts:
    [tempo_inicio] is the start of the first burst (and [None] before
    it), [tempo_de_resposta] is [tempo_inicio] minus the arrival,
    [tempo_inicio_execucao_atual] and [tempo_final_execucao_atual] are
    the start and the end of the last burst, and [tempo_final], once set,
    is the end of the last burst of a task that has nothing left to
    run. *)
Theorem X16_atributos_conforme_as_execucoes :
  forall alg q h refs n,
    tem_quantum alg = true ->
    (forall a, In a refs -> tarefa_nova (h a)) ->
    match simular alg q h refs n with
    | Aborta _ _ => True
    | Retorna s | Esgota s => forall a, In a refs -> Registro (objetos s a)
    end.
Proof.
  intros alg q h refs n Hq Hn.
  rewrite simular_com_quantum by assumption.
  apply (laco_preserva_sem_erro
           (corpo_quantum (escolher_de alg) (conceder_de alg))
           (fun s => forall a, In a refs -> Registro (objetos s a))).
  - intros s s' Hs Hc a Ha.
    apply (iteracao_registro (escolher_de alg) (conceder_de alg) s s' a);
      [|now apply Hs].
    rewrite <- Hc. apply corpo_quantum_iteracao.
  - intros a Ha. destruct (inicial_campos alg q h refs) as (-> & _).
    now apply registro_nova, Hn.
Qed.

Lemma X16_atributos_witness :
  Registro
    (objetos (estado_de (simular RoundRobin 2 cenario_rr [0; 1]%nat 10))
       0%nat).
Proof.
  pose proof (X16_atributos_conforme_as_execucoes RoundRobin 2 cenario_rr
                [0; 1]%nat 10%nat eq_refl cenario_rr_novas) as H.
  assert (E : simular RoundRobin 2 cenario_rr [0; 1]%nat 10
              = Retorna
                  (estado_de (simular RoundRobin 2 cenario_rr [0; 1]%nat 10)))
    by (vm_compute; reflexivity).
  destruct (simular RoundRobin 2 cenario_rr [0; 1]%nat 10) as [s|e s|s];
    try discriminate E.
  apply H. simpl. auto.
Defined.

(** ** The accumulated overhead *)

(** The number of bursts recorded for the tasks of the scheduler. *)
Definition total_de_execucoes (s : Estado) : nat :=
  list_sum
    (map (fun a => length (tempos_execucao (objetos s a))) (tarefas s)).

Lemma list_sum_um x l : list_sum (x :: l) = (x + list_sum l)%nat.
Proof. reflexivity. Qed.

Lemma list_sum_igual (f g : nat -> nat) l :
  (forall c, In c l -> g c = f c) ->
  list_sum (map g l) = list_sum (map f l).
Proof.
  induction l as [|x r IH]; intro H; cbn [map]; [reflexivity|].
  rewrite !list_sum_um, (H x) by now left. f_equal. apply IH.
  intros c Hc. apply H. now right.
Qed.

Lemma list_sum_mais_um (f g : nat -> nat) l a :
  NoDup l -> In a l ->
  (forall c, c <> a -> g c = f c) -> g a = S (f a) ->
  list_sum (map g l) = S (list_sum (map f l)).
Proof.
  intros Hnd Ha Hout Hg. induction l as [|x r IH]; [destruct Ha|].
  apply NoDup_cons_iff in Hnd. destruct Hnd as [Hx Hr]. cbn [map].
  rewrite !list_sum_um.
  destruct Ha as [->|Ha].
  - rewrite Hg. cbn. f_equal. f_equal. apply list_sum_igual.
    intros c Hc. apply Hout. intros ->. contradiction.
  - rewrite (Hout x) by (intros ->; contradiction).
    rewrite IH by assumption. lia.
Qed.

Section ContabilidadeDaSobrecarga.

Variable escolher : Heap -> Q -> list nat -> Resultado nat.
Variable conceder : Q -> Q -> TarefaCAV -> Resultado (Q * Q * bool).

Hypothesis escolher_In :
  forall h agora l a, escolher h agora l = Ok a -> In a l.
Hypothesis conceder_le :
  forall q qa t x qa' u,
    conceder q qa t = Ok (x, qa', u) -> x <= tempo_restante t.

Record Contabilidade (s : Estado) : Prop := {
  ct_inv : Inv s;
  ct_tarefas : NoDup (tarefas s);
  ct_fila : fila_contida s;
  ct_fin : forall a, In a (finalizacoes s) -> In a (tarefas s);
  ct_final :
    forall a, In a (tarefas s) -> tempo_final (objetos s a) <> None ->
              In a (finalizacoes s);
  ct_soma :
    sobrecarga_total s
    + sobrecarga_preempcao * inject_Z (Z.of_nat (length (finalizacoes s)))
    == sobrecarga_preempcao * inject_Z (Z.of_nat (total_de_execucoes s))
}.

Lemma iteracao_contabilidade s p :
  Iteracao escolher conceder s p -> Contabilidade s ->
  Contabilidade (estado_do_passo p).
Proof.
  intros Hit [Hi Ht Hf Hfin Hfinal Hs].
  pose proof (iteracao_Inv escolher conceder escolher_In conceder_le s p Hit Hi)
    as Hi'.
  pose proof (iteracao_fila_contida escolher conceder escolher_In s p Hit Hf)
    as Hf'.
  destruct Hit as [He|e He Hesc|a Ha Hr|a e Ha Hr Hc|a x qa u Ha Hr Hc Hfim
                  |a x qa u Ha Hr Hc Hfim]; cbn [estado_do_passo] in *.
  - now split.
  - now split.
  - now split.
  - assert (Hex : forall c,
              tempos_execucao
                (gravar_obj (objetos s) a
                   (iniciar_execucao (tempo_atual s) (objetos s a)) c)
              = tempos_execucao (objetos s c)).
    { intro c. unfold gravar_obj. destruct (Nat.eqb c a) eqn:E; [|reflexivity].
      apply Nat.eqb_eq in E. subst c. now autorewrite with tarefa. }
    split; try assumption.
    + intros b Hb. cbn. unfold gravar_obj.
      destruct (Nat.eqb b a) eqn:E; [|now apply Hfinal].
      apply Nat.eqb_eq in E. subst b. autorewrite with tarefa.
      now apply Hfinal.
    + unfold total_de_execucoes in *. cbn.
      rewrite (list_sum_igual
                 (fun c => length (tempos_execucao (objetos s c))));
        [exact Hs|].
      intros c _. now rewrite Hex.
  - pose proof (escolhida_fila escolher escolher_In s a Ha) as Hin.
    split; try assumption; autorewrite with tarefa;
      cbn [tarefas finalizacoes sobrecarga_total retirar set_fila set_tarefa].
    + intros b Hb.
      destruct (Nat.eq_dec b a) as [->|Hne].
      * rewrite executar_fatia_objetos, gravar_obj_eq.
        autorewrite with tarefa. now apply Hfinal.
      * rewrite executar_fatia_outros by assumption. now apply Hfinal.
    + unfold total_de_execucoes in *. autorewrite with tarefa.
      cbn [tarefas retirar set_fila set_tarefa].
      rewrite (list_sum_mais_um
                 (fun c => length (tempos_execucao (objetos s c))) _ _ a);
        try assumption.
      * rewrite <- Nat.add_1_r, inject_Z_succ. lra.
      * now apply Hf.
      * intros c Hne. now rewrite executar_fatia_outros.
      * rewrite executar_fatia_objetos, gravar_obj_eq.
        autorewrite with tarefa. rewrite length_app. cbn. lia.
  - pose proof (escolhida_fila escolher escolher_In s a Ha) as Hin.
    split; try assumption; autorewrite with tarefa;
      cbn [tarefas finalizacoes sobrecarga_total retirar set_fila set_tarefa].
    + assumption.
    + intros b Hb. apply in_app_or in Hb. destruct Hb as [Hb|[<-|[]]].
      * now apply Hfin.
      * now apply Hf.
    + intros b Hb Hz. apply in_or_app.
      destruct (Nat.eq_dec b a) as [->|Hne]; [right; now left|].
      rewrite gravar_obj_neq in Hz by assumption.
      rewrite executar_fatia_outros in Hz by assumption.
      left. now apply Hfinal.
    + unfold total_de_execucoes in *. autorewrite with tarefa.
      cbn [tarefas retirar set_fila set_tarefa].
      rewrite (list_sum_mais_um
                 (fun c => length (tempos_execucao (objetos s c))) _ _ a);
        try assumption.
      * rewrite length_app. cbn [length].
        rewrite <- (Nat.add_1_r (list_sum _)), !inject_Z_succ. lra.
      * now apply Hf.
      * intros c Hne. rewrite gravar_obj_neq by assumption.
        now rewrite executar_fatia_outros.
      * rewrite gravar_obj_eq. cbn.
        rewrite executar_fatia_objetos, gravar_obj_eq.
        autorewrite with tarefa. rewrite length_app. cbn. lia.
Qed.

End ContabilidadeDaSobrecarga.

Lemma inicial_sobrecarga alg q h refs :
  sobrecarga_total (inicial alg q h refs) = 0.
Proof.
  unfold inicial.
  destruct (preparar_campos (montado alg q h refs))
    as (_ & _ & _ & _ & _ & _ & _ & ->).
  unfold montado.
  destruct (adicionar_tarefas_campos refs (construir alg h q))
    as (_ & _ & -> & _).
  unfold construir. now destruct (tem_quantum alg).
Qed.

Lemma concluidas_finalizacoes s :
  NoDup (tarefas s) -> NoDup (finalizacoes s) ->
  (forall a, In a (finalizacoes s) ->
             In a (tarefas s) /\ tempo_final (objetos s a) <> None) ->
  (forall a, In a (tarefas s) -> tempo_final (objetos s a) <> None ->
             In a (finalizacoes s)) ->
  length (concluidas s) = length (finalizacoes s).
Proof.
  intros Ht Hf H1 H2. apply Nat.le_antisymm.
  - apply NoDup_incl_length; [now apply NoDup_filter|].
    intros a Ha. unfold concluidas in Ha. apply filter_In in Ha.
    destruct Ha as [Ha Hc]. apply H2; [assumption|].
    unfold concluida in Hc. now destruct (tempo_final (objetos s a)).
  - apply NoDup_incl_length; [assumption|].
    intros a Ha. destruct (H1 a Ha) as [Hin Hz].
    unfold concluidas. apply filter_In. split; [assumption|].
    unfold concluida. now destruct (tempo_final (objetos s a)).
Qed.

(** What [k] calls of [registrar_sobrecarga(0.3)] leave in the accumulator
    of a new scheduler: the overhead added [k] times to 0. *)
Definition sobrecarga_de (k : nat) : Q :=
  Nat.iter k (fun x => x + sobrecarga_preempcao) 0.

Lemma sobrecarga_de_vezes k :
  sobrecarga_de k == sobrecarga_preempcao * inject_Z (Z.of_nat k).
Proof.
  induction k as [|k IH].
  - cbn. change (inject_Z 0) with 0. lra.
  - change (sobrecarga_de (S k)) with (sobrecarga_de k + sobrecarga_preempcao).
    rewrite IH, <- Nat.add_1_r, inject_Z_succ. lra.
Qed.

Lemma sobrecarga_nao_negativa alg q h refs n :
  tem_quantum alg = true ->
  0 <= sobrecarga_total (estado_de (simular alg q h refs n)).
Proof.
  intro Hq. rewrite simular_com_quantum by assumption.
  apply (laco_preserva
           (corpo_quantum (escolher_de alg) (conceder_de alg))
           (fun s => 0 <= sobrecarga_total s)).
  - intros s Hs.
    destruct (corpo_quantum_iteracao (escolher_de alg) (conceder_de alg) s)
      as [He|e He Hesc|a Ha Hr|a e Ha Hr Hc|a x qa u Ha Hr Hc Hfim
         |a x qa u Ha Hr Hc Hfim]; cbn [estado_do_passo];
      autorewrite with tarefa;
      cbn [sobrecarga_total retirar set_fila set_tarefa set_tempo_atual gravar];
      try exact Hs.
    unfold sobrecarga_preempcao. lra.
  - rewrite inicial_sobrecarga. apply Qle_refl.
Qed.

(** X17.  At every moment of a run of a quantum-bounded strategy over
    distinct, newly constructed tasks, the accumulated overhead is what
    [k] calls of [registrar_sobrecarga(0.3)] leave in it, 0.3 added [k]
    times to 0, where [k] is the number of bursts that did not finish
    their task: the number of bursts recorded minus the number of tasks
    that have a finish time. *)
Theorem X17_sobrecarga_por_execucao_interrompida :
  forall alg q h refs n,
    tem_quantum alg = true -> NoDup refs ->
    (forall a, In a refs -> tarefa_nova (h a)) ->
    let s := estado_de (simular alg q h refs n) in
    (length (concluidas s) <= total_de_execucoes s)%nat
    /\ sobrecarga_total s
       == sobrecarga_de (total_de_execucoes s - length (concluidas s)).
Proof.
  intros alg q h refs n Hq Hnd Hn s.
  assert (H : Contabilidade s).
  { unfold s. rewrite simular_com_quantum by assumption.
    apply laco_preserva.
    - intros s1 H1.
      exact (iteracao_contabilidade (escolher_de alg) (conceder_de alg)
               (escolher_de_In alg) (conceder_de_le alg) s1 _
               (corpo_quantum_iteracao _ _ s1) H1).
    - destruct (inicial_campos alg q h refs) as (H1 & H2 & H3 & H4 & H5 & H6).
      split.
      + now apply inicial_Inv.
      + rewrite H2. now apply ordenar_NoDup.
      + apply inicial_fila_contida.
      + rewrite H5. intros a [].
      + intros a Ha. apply inicial_tarefas in Ha. rewrite H1.
        rewrite (tarefa_nova_final _ (Hn a Ha)). congruence.
      + rewrite H5. unfold total_de_execucoes.
        rewrite (list_sum_igual (fun _ => 0%nat)).
        * assert (E : forall l : list nat,
                    list_sum (map (fun _ => 0%nat) l) = 0%nat)
            by (induction l; cbn; auto).
          rewrite E, inicial_sobrecarga. cbn. lra.
        * intros a Ha. apply inicial_tarefas in Ha. rewrite H1.
          now rewrite (tarefa_nova_execucoes _ (Hn a Ha)). }
  destruct H as [Hi Ht Hf Hfin Hfinal Hs].
  pose proof (sobrecarga_nao_negativa alg q h refs n Hq) as H0.
  fold s in H0.
  assert (Hc : length (concluidas s) = length (finalizacoes s)).
  { apply (concluidas_finalizacoes s Ht (inv_fin s Hi)); [|assumption].
    intros a Ha. split; [now apply Hfin|]. now apply (inv_zero s Hi a Ha). }
  rewrite Hc.
  assert (Hle : (length (finalizacoes s) <= total_de_execucoes s)%nat).
  { apply Nat2Z.inj_le. rewrite Zle_Qle.
    unfold sobrecarga_preempcao in Hs. lra. }
  split; [exact Hle|].
  rewrite sobrecarga_de_vezes, Nat2Z.inj_sub by exact Hle.
  unfold Z.sub. rewrite inject_Z_plus, inject_Z_opp. lra.
Qed.

Lemma X17_sobrecarga_witness :
  (length
     (concluidas (estado_de (simular RoundRobin 2 cenario_rr [0; 1]%nat 10)))
   <= total_de_execucoes
        (estado_de (simular RoundRobin 2 cenario_rr [0; 1]%nat 10)))%nat
  /\ sobrecarga_total
       (estado_de (simular RoundRobin 2 cenario_rr [0; 1]%nat 10))
     == sobrecarga_de
          (total_de_execucoes
             (estado_de (simular RoundRobin 2 cenario_rr [0; 1]%nat 10))
           - length
               (concluidas
                  (estado_de
                     (simular RoundRobin 2 cenario_rr [0; 1]%nat 10)))).
Proof.
  apply (X17_sobrecarga_por_execucao_interrompida RoundRobin 2 cenario_rr
           [0; 1]%nat 10%nat).
  - reflexivity.
  - exact NoDup_0_1.
  - exact cenario_rr_novas.
Defined.

(** X18.  The strategies without a quantum never charge overhead:
    whatever the tasks, [sobrecarga_total] is still 0 at every moment of
    their runs. *)
Theorem X18_sem_quantum_sem_sobrecarga :
  forall alg q h refs n,
    tem_quantum alg = false ->
    sobrecarga_total (estado_de (simular alg q h refs n)) = 0.
Proof.
  intros alg q h refs n Hq.
  pose proof (inicial_sobrecarga alg q h refs) as E0.
  destruct alg; try discriminate Hq.
  - rewrite simular_fifo. cbn [estado_de].
    generalize (tarefas (inicial FIFO q h refs)) as l.
    revert E0. generalize (inicial FIFO q h refs) as s.
    intros s Hs l. revert s Hs.
    induction l as [|x r IH]; intros s Hs; cbn; [exact Hs|].
    now apply IH.
  - rewrite simular_sjf.
    apply (laco_preserva corpo_sjf (fun s => sobrecarga_total s = 0));
      [|assumption].
    intros s Hs.
    now destruct (corpo_sjf_iteracao s) as [c Hc|c He Hc|He Hnn].
  - rewrite simular_np.
    apply (laco_preserva corpo_prioridade_np (fun s => sobrecarga_total s = 0));
      [|assumption].
    intros s Hs.
    now destruct (corpo_prioridade_np_iteracao s) as [He|c Hc].
Qed.

Lemma X18_sem_sobrecarga_witness :
  sobrecarga_total (estado_de (simular FIFO 0 cenario_rr [0; 1]%nat 0)) = 0.
Proof.
  apply (X18_sem_quantum_sem_sobrecarga FIFO 0 cenario_rr [0; 1]%nat 0%nat).
  reflexivity.
Defined.

(** ** A quantum that covers every task *)

Section QuantumQueCobre.

Variable escolher : Heap -> Q -> list nat -> Resultado nat.
Variable conceder : Q -> Q -> TarefaCAV -> Resultado (Q * Q * bool).

Hypothesis escolher_In :
  forall h agora l a, escolher h agora l = Ok a -> In a l.
Hypothesis conceder_ge :
  forall q qa t x qa' u,
    q <= qa -> conceder q qa t = Ok (x, qa', u) ->
    (tempo_restante t <= x \/ q <= x) /\ q <= qa'.

(** No queued task needs more than the quantum, and nothing was charged
    so far. *)
Record Cobre (s : Estado) : Prop := {
  cb_qa : quantum s <= quantum_atual s;
  cb_fila :
    forall a, In a (fila s) -> tempo_restante (objetos s a) <= quantum s;
  cb_zero : sobrecarga_total s = 0
}.

(** The task at [b] has run at most once, and has nothing left if it
    has. *)
Definition de_uma_vez (b : nat) (s : Estado) : Prop :=
  tempos_execucao (objetos s b) = []
  \/ ((length (tempos_execucao (objetos s b)) = 1)%nat
      /\ tempo_restante (objetos s b) <= 0).

Lemma concedido_cobre s a x qa u :
  Cobre s -> In a (fila s) ->
  concedido conceder s a (Ok (x, qa, u)) ->
  tempo_restante (objetos s a) <= x /\ quantum s <= qa.
Proof.
  intros [Hqa Hf _] Ha Hc. unfold concedido in Hc.
  apply conceder_ge in Hc; [|assumption].
  autorewrite with tarefa in Hc. specialize (Hf a Ha).
  destruct Hc as [[Hc|Hc] Hc']; split; try assumption; lra.
Qed.

Lemma iteracao_cobre s p :
  Iteracao escolher conceder s p -> Cobre s -> Cobre (estado_do_passo p).
Proof.
  intros Hit Hc. pose proof Hc as [Hqa Hf Hz].
  destruct Hit as [He|e He Hesc|a Ha Hr|a e Ha Hr Hcon|a x qa u Ha Hr Hcon Hfim
                  |a x qa u Ha Hr Hcon Hfim]; cbn [estado_do_passo].
  - now split.
  - exact Hc.
  - split; try assumption.
    intros c Hin. cbn in *. apply Hf. eapply remover_In, Hin.
  - split; try assumption. cbn. intros c Hin. unfold gravar_obj.
    destruct (Nat.eqb c a) eqn:E.
    + apply Nat.eqb_eq in E. subst c. autorewrite with tarefa.
      apply Hf. now apply (escolhida_fila escolher escolher_In).
    + apply Hf. eapply remover_In, Hin.
  - pose proof (escolhida_fila escolher escolher_In s a Ha) as Hin.
    destruct (concedido_cobre s a x qa u Hc Hin Hcon) as [Hx _]. lra.
  - pose proof (escolhida_fila escolher escolher_In s a Ha) as Hin.
    destruct (concedido_cobre s a x qa u Hc Hin Hcon) as [Hx Hge].
    pose proof (Hf a Hin) as Hfa.
    split; autorewrite with tarefa;
      cbn [quantum fila sobrecarga_total retirar set_fila set_tarefa].
    + destruct u; [apply Qle_refl|assumption].
    + intros c Hc'. destruct (Nat.eq_dec c a) as [->|Hne].
      * rewrite gravar_obj_eq. cbn.
        rewrite executar_fatia_objetos, gravar_obj_eq.
        autorewrite with tarefa.
        cbn [objetos retirar set_fila set_tarefa]. lra.
      * rewrite gravar_obj_neq by assumption.
        rewrite executar_fatia_outros by assumption.
        apply Hf. eapply remover_In, Hc'.
    + assumption.
Qed.

Lemma iteracao_de_uma_vez b s p :
  Iteracao escolher conceder s p -> Cobre s -> de_uma_vez b s ->
  de_uma_vez b (estado_do_passo p).
Proof.
  intros Hit Hc Hb.
  destruct Hit as [He|e He Hesc|a Ha Hr|a e Ha Hr Hcon|a x qa u Ha Hr Hcon Hfim
                  |a x qa u Ha Hr Hcon Hfim]; cbn [estado_do_passo];
    try exact Hb.
  - unfold de_uma_vez in *. cbn. unfold gravar_obj.
    destruct (Nat.eqb b a) eqn:E; [|exact Hb].
    apply Nat.eqb_eq in E. subst b. now autorewrite with tarefa.
  - pose proof (escolhida_fila escolher escolher_In s a Ha) as Hin.
    destruct (concedido_cobre s a x qa u Hc Hin Hcon) as [Hx _]. lra.
  - unfold de_uma_vez in *. autorewrite with tarefa.
    cbn [objetos retirar set_fila set_tarefa].
    destruct (Nat.eq_dec b a) as [->|Hne].
    + right. rewrite gravar_obj_eq. cbn.
      rewrite executar_fatia_objetos, gravar_obj_eq.
      autorewrite with tarefa.
      cbn [objetos retirar set_fila set_tarefa].
      destruct Hb as [Hb|[_ Hb]]; [|lra].
      rewrite Hb. split; [reflexivity|exact Hfim].
    + rewrite gravar_obj_neq by assumption.
      now rewrite executar_fatia_outros.
Qed.

End QuantumQueCobre.

(** X19.  When no task is longer than the quantum, a quantum-bounded
    strategy never preempts: at every moment of the run the accumulated
    overhead is 0 and no task has more than one burst. *)
Theorem X19_quantum_que_cobre_nao_interrompe :
  forall alg q h refs n,
    tem_quantum alg = true ->
    (forall a, In a refs -> tarefa_nova (h a) /\ duracao (h a) <= q) ->
    let s := estado_de (simular alg q h refs n) in
    sobrecarga_total s = 0
    /\ forall a, In a refs ->
         (length (tempos_execucao (objetos s a)) <= 1)%nat.
Proof.
  intros alg q h refs n Hq Hts s.
  destruct (inicial_campos alg q h refs) as (H1 & H2 & H3 & H4 & H5 & H6).
  destruct (H6 Hq) as [G1 G2].
  assert (H : Cobre s /\ forall b, In b refs -> de_uma_vez b s).
  { unfold s. rewrite simular_com_quantum by assumption.
    apply (laco_preserva
             (corpo_quantum (escolher_de alg) (conceder_de alg))
             (fun s => Cobre s /\ forall b, In b refs -> de_uma_vez b s)).
    - intros s1 [Hc1 Hb1].
      pose proof (corpo_quantum_iteracao (escolher_de alg) (conceder_de alg) s1)
        as Hit.
      split.
      + exact (iteracao_cobre (escolher_de alg) (conceder_de alg)
                 (escolher_de_In alg) (conceder_de_ge alg) s1 _ Hit Hc1).
      + intros b Hb.
        exact (iteracao_de_uma_vez (escolher_de alg) (conceder_de alg)
                 (escolher_de_In alg) (conceder_de_ge alg) b s1 _ Hit Hc1
                 (Hb1 b Hb)).
    - split.
      + split.
        * rewrite G1, G2. apply Qle_refl.
        * intros a Ha. apply inicial_In in Ha. rewrite H1, G1.
          destruct (Hts a Ha) as [Hn Hd]. now rewrite tarefa_nova_restante.
        * apply inicial_sobrecarga.
      + intros b Hb. left. rewrite H1.
        now apply tarefa_nova_execucoes, Hts. }
  destruct H as [Hc Hb]. split; [apply (cb_zero s Hc)|].
  intros a Ha. destruct (Hb a Ha) as [Hv|[Hl _]].
  - rewrite Hv. cbn. lia.
  - rewrite Hl. lia.
Qed.

Lemma X19_quantum_que_cobre_witness :
  sobrecarga_total (estado_de (simular RoundRobin 5 cenario_rr [0; 1]%nat 10))
  = 0
  /\ forall a,
       In a [0; 1]%nat ->
       (length
          (tempos_execucao
             (objetos
                (estado_de (simular RoundRobin 5 cenario_rr [0; 1]%nat 10)) a))
        <= 1)%nat.
Proof.
  apply (X19_quantum_que_cobre_nao_interrompe RoundRobin 5 cenario_rr
           [0; 1]%nat 10%nat).
  - reflexivity.
  - intros a [<-|[<-|[]]]; split; try reflexivity; vm_compute; discriminate.
Defined.

(** ** The effective quantum *)

Section QuantumAtual.

Variable escolher : Heap -> Q -> list nat -> Resultado nat.
Variable conceder : Q -> Q -> TarefaCAV -> Resultado (Q * Q * bool).
Variable P : Q -> Q -> Prop.

Hypothesis P_inicial : forall q, P q q.
Hypothesis conceder_P :
  forall q qa t x qa' u,
    P q qa -> conceder q qa t = Ok (x, qa', u) -> P q qa'.

Lemma iteracao_quantum_atual s p :
  Iteracao escolher conceder s p ->
  P (quantum s) (quantum_atual s) ->
  P (quantum (estado_do_passo p)) (quantum_atual (estado_do_passo p)).
Proof.
  intros Hit Hp.
  destruct Hit as [He|e He Hesc|a Ha Hr|a e Ha Hr Hc|a x qa u Ha Hr Hc Hf
                  |a x qa u Ha Hr Hc Hf]; cbn [estado_do_passo];
    try exact Hp.
  - autorewrite with tarefa. cbn [quantum retirar set_fila set_tarefa].
    exact (conceder_P _ _ _ _ _ _ Hp Hc).
  - autorewrite with tarefa. cbn [quantum retirar set_fila set_tarefa].
    destruct u; [apply P_inicial|].
    exact (conceder_P _ _ _ _ _ _ Hp Hc).
Qed.

End QuantumAtual.

(** The quantum after a whole number of [quantum_atual += 1]: 1 added [k]
    times to [q], one addition after the other. *)
Definition incrementado (q qa : Q) : Prop :=
  exists k : nat, qa = Nat.iter k (fun x => x + 1) q.

(** X20.  At every moment of a run of [EscalonadorUG] constructed with
    the quantum [q], [quantum] is still [q], and the effective quantum
    [quantum_atual] is what a whole number of [quantum_atual += 1] makes
    of [q]: the finish of an urgent task sets it back to [q], the dispatch
    of an urgent task adds 1 to it, and nothing else writes it.  So it
    never falls below [q]. *)
Theorem X20_quantum_atual_nunca_abaixo_do_quantum :
  forall urg_max q h refs n,
    let s := estado_de (simular (UG urg_max) q h refs n) in
    quantum s = q
    /\ incrementado q (quantum_atual s)
    /\ q <= quantum_atual s.
Proof.
  intros urg_max q h refs n s.
  enough (H : quantum s = q /\ incrementado q (quantum_atual s)).
  { destruct H as [H1 [k Hk]]. split; [exact H1|].
    split; [now exists k|]. rewrite Hk. clear.
    induction k as [|k IH]; [apply Qle_refl|].
    change (Nat.iter (S k) (fun x => x + 1) q)
      with (Nat.iter k (fun x => x + 1) q + 1).
    lra. }
  destruct (inicial_campos (UG urg_max) q h refs) as (_ & _ & _ & _ & _ & H6).
  destruct (H6 eq_refl) as [G1 G2].
  assert (Hs : quantum s = q).
  { pose proof (simular_mesmos_dados (UG urg_max) q h refs n) as (_ & Hqq & _).
    unfold s. now rewrite Hqq. }
  split; [exact Hs|]. rewrite <- Hs.
  unfold s. rewrite simular_com_quantum by reflexivity.
  apply (laco_preserva
           (corpo_quantum (escolher_de (UG urg_max)) (conceder_de (UG urg_max)))
           (fun s => incrementado (quantum s) (quantum_atual s))).
  - intros s1 Hs1.
    assert (Hini : forall q0, incrementado q0 q0)
      by (intro q0; now exists 0%nat).
    assert (Hpasso : forall q0 qa t x qa' u,
              incrementado q0 qa ->
              conceder_de (UG urg_max) q0 qa t = Ok (x, qa', u) ->
              incrementado q0 qa').
    { intros q0 qa t x qa' u [k Hk]. cbn. unfold conceder_ug.
      destruct (urgencia _ _ _ _) as [v|e]; [|discriminate].
      destruct (Qlt_bool urg_max v); intros [= _ <- _].
      - exists (S k). now rewrite Hk.
      - now exists k. }
    exact (iteracao_quantum_atual (escolher_de (UG urg_max))
             (conceder_de (UG urg_max)) incrementado Hini Hpasso
             s1 _ (corpo_quantum_iteracao _ _ s1) Hs1).
  - rewrite G1, G2. now exists 0%nat.
Qed.

(** ** The structure of the queue *)

Lemma remover_fora a l : ~ In a l -> remover a l = l.
Proof.
  induction l as [|b r IH]; intro H; cbn; [reflexivity|].
  destruct (Nat.eqb b a) eqn:E.
  - apply Nat.eqb_eq in E. subst b. exfalso. apply H. now left.
  - rewrite IH; [reflexivity|]. intro Hin. apply H. now right.
Qed.

Lemma remover_app_fora a l1 l2 :
  ~ In a l2 -> remover a (l1 ++ l2) = remover a l1 ++ l2.
Proof.
  intro H. induction l1 as [|b r IH]; cbn.
  - now apply remover_fora.
  - destruct (Nat.eqb b a); [reflexivity|]. now rewrite IH.
Qed.

Section FilaEmDuasPartes.

(** The arrival time of each task. *)
Variable ch : nat -> Q.

(** A queue made of tasks that have arrived, followed by the tasks that
    have not, these in order of arrival. *)
Definition em_duas_partes (agora : Q) (l : list nat) : Prop :=
  exists l1 l2,
    l = l1 ++ l2
    /\ (forall a, In a l1 -> ch a <= agora)
    /\ (forall a, In a l2 -> agora < ch a)
    /\ crescente ch l2.

Lemma crescente_em_duas_partes agora l :
  crescente ch l -> em_duas_partes agora l.
Proof.
  unfold crescente. induction l as [|x r IH]; intro Hs.
  - exists [], []. repeat split; try easy; constructor.
  - pose proof Hs as Hs'.
    apply StronglySorted_inv in Hs. destruct Hs as [Hr Hx].
    destruct (Qle_bool (ch x) agora) eqn:E.
    + apply Qle_bool_iff in E.
      destruct (IH Hr) as (l1 & l2 & Hl & H1 & H2 & H3).
      exists (x :: l1), l2. split; [now rewrite Hl|].
      split; [|now split]. intros a [<-|Ha]; [assumption|now apply H1].
    + apply Qle_bool_false in E. exists [], (x :: r).
      split; [reflexivity|]. split; [easy|]. split; [|exact Hs'].
      intros a [<-|Ha]; [assumption|].
      rewrite Forall_forall in Hx. specialize (Hx a Ha). lra.
Qed.

Lemma em_duas_partes_avanca agora agora' l :
  em_duas_partes agora l -> agora <= agora' -> em_duas_partes agora' l.
Proof.
  intros (l1 & l2 & Hl & H1 & H2 & H3) Hle.
  destruct (crescente_em_duas_partes agora' l2 H3)
    as (m1 & m2 & Hm & G1 & G2 & G3).
  exists (l1 ++ m1), m2. split; [now rewrite Hl, Hm, app_assoc|].
  split; [|now split].
  intros a Ha. apply in_app_or in Ha. destruct Ha as [Ha|Ha].
  - specialize (H1 a Ha). lra.
  - now apply G1.
Qed.

Lemma em_duas_partes_remover agora l a :
  em_duas_partes agora l -> ch a <= agora ->
  em_duas_partes agora (remover a l).
Proof.
  intros (l1 & l2 & Hl & H1 & H2 & H3) Ha.
  exists (remover a l1), l2. split; [|split; [|now split]].
  - rewrite Hl. apply remover_app_fora.
    intro Hin. specialize (H2 a Hin). lra.
  - intros b Hb. apply H1. eapply remover_In, Hb.
Qed.

Lemma em_duas_partes_reinserir (h : Heap) agora l a :
  (forall b, tempo_chegada (h b) = ch b) ->
  em_duas_partes agora l -> ch a <= agora ->
  em_duas_partes agora (reinserir h agora a l).
Proof.
  intros Hh (l1 & l2 & Hl & H1 & H2 & H3) Ha.
  assert (E : reinserir h agora a l = l1 ++ a :: l2).
  { rewrite Hl. clear Hl. induction l1 as [|b r IH]; cbn.
    - destruct l2 as [|b r]; [reflexivity|]. cbn.
      assert (Hb : Qlt_bool agora (tempo_chegada (h b)) = true).
      { apply Qlt_bool_true. rewrite Hh. apply H2. now left. }
      now rewrite Hb.
    - assert (Hb : Qlt_bool agora (tempo_chegada (h b)) = false).
      { apply Qlt_bool_false. rewrite Hh. apply H1. now left. }
      rewrite Hb, IH; [reflexivity|].
      intros c Hc. apply H1. now right. }
  rewrite E. exists (l1 ++ [a]), l2.
  split; [now rewrite <- app_assoc|]. split; [|now split].
  intros b Hb. apply in_app_or in Hb. destruct Hb as [Hb|[<-|[]]];
    [now apply H1|assumption].
Qed.

Lemma em_duas_partes_chegaram s :
  (forall b, tempo_chegada (objetos s b) = ch b) ->
  em_duas_partes (tempo_atual s) (fila s) ->
  exists futuras,
    fila s = tarefas_que_chegaram s ++ futuras
    /\ (forall a, In a futuras -> tempo_atual s < ch a)
    /\ crescente ch futuras.
Proof.
  intros Hh (l1 & l2 & Hl & H1 & H2 & H3).
  exists l2. split; [|now split].
  unfold tarefas_que_chegaram. rewrite Hl, filter_app.
  assert (E1 : filter
                 (fun a => Qle_bool (tempo_chegada (objetos s a)) (tempo_atual s))
                 l1 = l1).
  { clear Hl. induction l1 as [|b r IH]; cbn; [reflexivity|].
    assert (Hb : Qle_bool (tempo_chegada (objetos s b)) (tempo_atual s) = true).
    { apply Qle_bool_iff. rewrite Hh. apply H1. now left. }
    rewrite Hb, IH; [reflexivity|]. intros c Hc. apply H1. now right. }
  assert (E2 : filter
                 (fun a => Qle_bool (tempo_chegada (objetos s a)) (tempo_atual s))
                 l2 = []).
  { clear Hl H3. induction l2 as [|b r IH]; cbn; [reflexivity|].
    assert (Hb : Qle_bool (tempo_chegada (objetos s b)) (tempo_atual s) = false).
    { apply Qle_bool_false. rewrite Hh. apply H2. now left. }
    rewrite Hb. apply IH. intros c Hc. apply H2. now right. }
  now rewrite E1, E2, app_nil_r.
Qed.

Variable escolher : Heap -> Q -> list nat -> Resultado nat.
Variable conceder : Q -> Q -> TarefaCAV -> Resultado (Q * Q * bool).

Hypothesis escolher_In :
  forall h agora l a, escolher h agora l = Ok a -> In a l.
Hypothesis conceder_ge :
  forall q qa t x qa' u,
    q <= qa -> conceder q qa t = Ok (x, qa', u) ->
    (tempo_restante t <= x \/ q <= x) /\ q <= qa'.

Definition FilaPartida (s : Estado) : Prop :=
  quantum_valido s
  /\ (forall b, tempo_chegada (objetos s b) = ch b)
  /\ em_duas_partes (tempo_atual s) (fila s).

Lemma iteracao_fila_partida s p :
  Iteracao escolher conceder s p -> FilaPartida s ->
  FilaPartida (estado_do_passo p).
Proof.
  intros Hit (Hv & Hh & Hf).
  split; [now apply (iteracao_quantum_valido escolher conceder conceder_ge s p)|].
  assert (Hh' : forall b, tempo_chegada (objetos (estado_do_passo p) b) = ch b).
  { intro b.
    pose proof (iteracao_mesmos_dados escolher conceder s p Hit)
      as (_ & _ & Hd).
    destruct (Hd b) as (_ & -> & _). apply Hh. }
  split; [exact Hh'|].
  destruct Hit as [He|e He Hesc|a Ha Hr|a e Ha Hr Hc|a x qa u Ha Hr Hc Hfim
                  |a x qa u Ha Hr Hc Hfim]; cbn [estado_do_passo] in *.
  - cbn. apply (em_duas_partes_avanca (tempo_atual s)); [assumption|].
    pose proof (teto_ge (tempo_atual s + 1)). lra.
  - exact Hf.
  - pose proof (escolhida_chegou escolher escolher_In s a Ha) as Hch.
    rewrite Hh in Hch. cbn. now apply em_duas_partes_remover.
  - pose proof (escolhida_chegou escolher escolher_In s a Ha) as Hch.
    rewrite Hh in Hch. cbn. now apply em_duas_partes_remover.
  - pose proof (escolhida_chegou escolher escolher_In s a Ha) as Hch.
    rewrite Hh in Hch.
    destruct (concedido_positivo conceder conceder_ge s a x qa u Hv Hr Hc)
      as [Hx _].
    pose proof (max_py_ge_l (tempo_atual s) (tempo_chegada (objetos s a))).
    autorewrite with tarefa.
    cbn [fila tempo_atual objetos retirar set_fila set_tarefa].
    assert (Hle : tempo_atual s
                  <= max_py (tempo_atual s) (tempo_chegada (objetos s a)) + x
                     + sobrecarga_preempcao)
      by (unfold sobrecarga_preempcao; lra).
    apply em_duas_partes_reinserir.
    + intro b. rewrite <- (Hh' b). now autorewrite with tarefa.
    + apply (em_duas_partes_avanca (tempo_atual s)); [|assumption].
      now apply em_duas_partes_remover.
    + lra.
  - pose proof (escolhida_chegou escolher escolher_In s a Ha) as Hch.
    rewrite Hh in Hch.
    destruct (concedido_positivo conceder conceder_ge s a x qa u Hv Hr Hc)
      as [Hx _].
    pose proof (max_py_ge_l (tempo_atual s) (tempo_chegada (objetos s a))).
    autorewrite with tarefa.
    cbn [fila tempo_atual objetos retirar set_fila set_tarefa].
    apply (em_duas_partes_avanca (tempo_atual s)); [|lra].
    now apply em_duas_partes_remover.
Qed.

End FilaEmDuasPartes.

(** X21.  At every moment of a run of a quantum-bounded strategy with a
    positive quantum, the queue consists of the tasks that have arrived,
    followed by the tasks that have not, these in order of arrival. *)
Theorem X21_fila_prontas_antes_das_futuras :
  forall alg q h refs n,
    tem_quantum alg = true -> 0 < q ->
    let s := estado_de (simular alg q h refs n) in
    exists futuras,
      fila s = tarefas_que_chegaram s ++ futuras
      /\ (forall a, In a futuras -> tempo_atual s < tempo_chegada (h a))
      /\ crescente (fun a => tempo_chegada (h a)) futuras.
Proof.
  intros alg q h refs n Hq Hpos s.
  destruct (inicial_campos alg q h refs) as (H1 & H2 & H3 & H4 & H5 & H6).
  destruct (H6 Hq) as [G1 G2].
  assert (H : FilaPartida (fun a => tempo_chegada (h a)) s).
  { unfold s. rewrite simular_com_quantum by assumption.
    apply laco_preserva.
    - intros s1 Hs1.
      exact (iteracao_fila_partida (fun a => tempo_chegada (h a))
               (escolher_de alg) (conceder_de alg)
               (escolher_de_In alg) (conceder_de_ge alg) s1 _
               (corpo_quantum_iteracao _ _ s1) Hs1).
    - split; [split; rewrite G1; [assumption|rewrite G2; apply Qle_refl]|].
      split; [intro b; now rewrite H1|].
      apply crescente_em_duas_partes. rewrite H3, H2.
      apply ordenar_crescente. }
  destruct H as (_ & Hh & Hf).
  now apply em_duas_partes_chegaram.
Qed.

Lemma X21_fila_witness :
  exists futuras,
    fila (estado_de (simular RoundRobin 2 cenario_rr [0; 1]%nat 1))
    = tarefas_que_chegaram
        (estado_de (simular RoundRobin 2 cenario_rr [0; 1]%nat 1))
      ++ futuras
    /\ (forall a,
          In a futuras ->
          tempo_atual (estado_de (simular RoundRobin 2 cenario_rr [0; 1]%nat 1))
          < tempo_chegada (cenario_rr a))
    /\ crescente (fun a => tempo_chegada (cenario_rr a)) futuras.
Proof.
  apply (X21_fila_prontas_antes_das_futuras RoundRobin 2 cenario_rr
           [0; 1]%nat 1%nat); reflexivity.
Defined.

(** ** The schedule of EscalonadorFIFO *)

(** What a run to completion from the clock [agora] leaves in the task
    that was [t0]: one more burst, from the later of the clock and the
    arrival, as long as the duration. *)
Definition atendida (agora : Q) (t0 t : TarefaCAV) : Prop :=
  let inicio := max_py agora (tempo_chegada t0) in
  tempos_execucao t = tempos_execucao t0 ++ [(inicio, inicio + duracao t0)]
  /\ tempo_inicio t = Some inicio
  /\ tempo_final t = Some (inicio + duracao t0)
  /\ tempo_em_espera t = inicio - tempo_chegada t0
  /\ tempo_de_resposta t = Some (inicio - tempo_chegada t0).

Lemma atendida_por_completo agora t0 :
  atendida agora t0 (tarefa_por_completo agora t0).
Proof. repeat split. Qed.

Lemma fifo_outros l : forall s a,
  ~ In a l -> objetos (fold_left executar_por_completo l s) a = objetos s a.
Proof.
  induction l as [|x r IH]; intros s a Ha; cbn; [reflexivity|].
  rewrite IH by (intro H; apply Ha; now right).
  apply executar_por_completo_outros. intros ->. apply Ha. now left.
Qed.

Lemma fifo_prefixo l1 a l2 s :
  NoDup (l1 ++ a :: l2) ->
  objetos (fold_left executar_por_completo (l1 ++ a :: l2) s) a
  = tarefa_por_completo
      (tempo_atual (fold_left executar_por_completo l1 s)) (objetos s a).
Proof.
  intro Hnd. apply NoDup_remove in Hnd. destruct Hnd as [_ Hnd].
  rewrite fold_left_app. cbn [fold_left].
  rewrite fifo_outros by (intro H; apply Hnd, in_or_app; now right).
  rewrite executar_por_completo_objetos, gravar_obj_eq.
  rewrite fifo_outros by (intro H; apply Hnd, in_or_app; now left).
  reflexivity.
Qed.

(** X22.  [EscalonadorFIFO] over distinct tasks serves them in order of
    arrival, those that arrive together in the order in which they were
    added.  The first one starts at its arrival; every other one starts
    when the one before it finishes, or at its own arrival if that is
    later; each runs once, for its whole duration, and its start, finish,
    waiting and response times are set accordingly. *)
Theorem X22_fifo_atende_por_ordem_de_chegada :
  forall q h refs n,
    NoDup refs ->
    exists s,
      simular FIFO q h refs n = Retorna s
      /\ (forall a r,
            ordenar (fun b => tempo_chegada (h b)) refs = a :: r ->
            atendida (tempo_chegada (h a)) (h a) (objetos s a))
      /\ (forall l0 p a l2 fp,
            ordenar (fun b => tempo_chegada (h b)) refs = l0 ++ p :: a :: l2 ->
            tempo_final (objetos s p) = Some fp ->
            atendida fp (h a) (objetos s a)).
Proof.
  intros q h refs n Hnd. eexists. split; [apply simular_fifo|].
  destruct (inicial_campos FIFO q h refs) as (H1 & H2 & H3 & _).
  assert (Hnd' : NoDup (tarefas (inicial FIFO q h refs)))
    by (rewrite H2; now apply ordenar_NoDup).
  rewrite H2 in *. split.
  - intros a r Ho. rewrite Ho in *.
    rewrite (fifo_prefixo [] a r _ Hnd'). cbn [fold_left]. rewrite H1.
    assert (Hc : tempo_atual (inicial FIFO q h refs) = tempo_chegada (h a)).
    { unfold inicial.
      rewrite (preparar_relogio (montado FIFO q h refs) a r).
      - now destruct (montado_campos FIFO q h refs) as (-> & _).
      - fold (inicial FIFO q h refs). exact H3. }
    rewrite Hc. apply atendida_por_completo.
  - intros l0 p a l2 fp Ho Hfp. rewrite Ho in *.
    assert (Hp : objetos
                   (fold_left executar_por_completo (l0 ++ p :: a :: l2)
                      (inicial FIFO q h refs)) p
                 = tarefa_por_completo
                     (tempo_atual
                        (fold_left executar_por_completo l0
                           (inicial FIFO q h refs))) (h p)).
    { rewrite (fifo_prefixo l0 p (a :: l2) _ Hnd'). now rewrite H1. }
    rewrite Hp in Hfp. cbn in Hfp. injection Hfp as <-.
    replace (l0 ++ p :: a :: l2) with ((l0 ++ [p]) ++ a :: l2) in *
      by (rewrite <- app_assoc; reflexivity).
    rewrite (fifo_prefixo (l0 ++ [p]) a l2 _ Hnd'). rewrite H1.
    rewrite fold_left_app. cbn [fold_left].
    autorewrite with tarefa.
    assert (Hnp : ~ In p l0).
    { rewrite <- app_assoc in Hnd'. apply NoDup_remove in Hnd'.
      destruct Hnd' as [_ Hn]. intro H. apply Hn, in_or_app. now left. }
    rewrite (fifo_outros l0 _ p Hnp), H1.
    apply atendida_por_completo.
Qed.

Lemma X22_fifo_witness :
  exists s,
    simular FIFO 0 cenario_rr [0; 1]%nat 0 = Retorna s
    /\ (forall a r,
          ordenar (fun b => tempo_chegada (cenario_rr b)) [0; 1]%nat = a :: r ->
          atendida (tempo_chegada (cenario_rr a)) (cenario_rr a) (objetos s a))
    /\ (forall l0 p a l2 fp,
          ordenar (fun b => tempo_chegada (cenario_rr b)) [0; 1]%nat
          = l0 ++ p :: a :: l2 ->
          tempo_final (objetos s p) = Some fp ->
          atendida fp (cenario_rr a) (objetos s a)).
Proof.
  apply (X22_fifo_atende_por_ordem_de_chegada 0 cenario_rr [0; 1]%nat 0%nat).
  exact NoDup_0_1.
Defined.

(** ** Runs that never raise *)

(** [EscalonadorSJF] reads [tarefa] before assigning it only when no task
    has arrived in the first iteration, and the first iteration starts at
    the arrival of the first task. *)
Lemma sjf_nao_levanta q h refs n e s :
  simular SJF q h refs n <> Aborta e s.
Proof.
  rewrite simular_sjf.
  apply (laco_nao_aborta corpo_sjf
           (fun s => tarefa s = None -> fila s <> [] ->
                     tarefas_que_chegaram s <> [])).
  - intros s1 H1 Hne.
    destruct (corpo_sjf_iteracao s1) as [a Ha|b He Hb|He Hn].
    + eexists. split; [reflexivity|]. autorewrite with tarefa. cbn.
      discriminate.
    + eexists. split; [reflexivity|]. autorewrite with tarefa. congruence.
    + now destruct (H1 Hn Hne).
  - intros _. apply inicial_chegou.
Qed.

Lemma np_nao_levanta q h refs n e s :
  simular PrioridadeNP q h refs n <> Aborta e s.
Proof.
  rewrite simular_np.
  apply (laco_nao_aborta corpo_prioridade_np (fun _ => True)); [|exact I].
  intros s1 _ _.
  destruct (corpo_prioridade_np_iteracao s1) as [He|a Ha];
    eexists; split; reflexivity || exact I.
Qed.

Lemma simular_nao_levanta alg q h refs :
  (exige_deadline alg = true ->
   forall a, In a refs -> deadline (h a) <> None) ->
  forall n e s, simular alg q h refs n <> Aborta e s.
Proof.
  intros Hdl n e s.
  destruct (tem_quantum alg) eqn:Etq.
  - now apply quantum_nao_levanta.
  - destruct alg; try discriminate Etq.
    + rewrite simular_fifo. discriminate.
    + apply sjf_nao_levanta.
    + apply np_nao_levanta.
Qed.

(** X29.  No run of any strategy is aborted by [TypeError], [IndexError]
    or [UnboundLocalError], the exceptions that the statements of the
    loops can raise, whatever the tasks, the quantum and the number of
    iterations, as long as every task has a deadline when the strategy is
    EDF or the adaptive-quantum one.  In particular [EscalonadorSJF] never
    reads [tarefa] before assigning it: the clock starts at the arrival of
    the first task, so a task has arrived in the first iteration. *)
Theorem X29_nenhuma_estrategia_levanta :
  forall alg q h refs,
    (exige_deadline alg = true ->
     forall a, In a refs -> deadline (h a) <> None) ->
    forall n e s, simular alg q h refs n <> Aborta e s.
Proof. exact simular_nao_levanta. Qed.

Lemma X29_nenhuma_estrategia_witness :
  (forall n e s, simular SJF 0 cenario_sjf [0; 1]%nat n <> Aborta e s)
  /\ (forall n e s,
        simular EDF 2 cenario_deadlines [0; 1]%nat n <> Aborta e s).
Proof.
  split.
  - apply (X29_nenhuma_estrategia_levanta SJF 0 cenario_sjf [0; 1]%nat).
    discriminate.
  - apply (X29_nenhuma_estrategia_levanta EDF 2 cenario_deadlines
             [0; 1]%nat).
    intros _ a [<-|[<-|[]]]; discriminate.
Defined.

(** ** A run over generated tasks *)

Lemma criar_tarefas_length quantidade sorteios :
  length (criar_tarefas quantidade sorteios) = quantidade.
Proof. unfold criar_tarefas. now rewrite length_map, length_seq. Qed.

Lemma criar_tarefas_nth quantidade sorteios i :
  (i < quantidade)%nat ->
  heap_de (criar_tarefas quantidade sorteios) i
  = TarefaCAV_init (nome_da_tarefa i)
      (max_py (sorteio_duracao (sorteios i)) 1)
      (inject_Z (sorteio_chegada (sorteios i)))
      (sorteio_catastrofico (sorteios i))
      (sorteio_prioridade (sorteios i))
      (Some (inject_Z (sorteio_deadline (sorteios i)))).
Proof.
  intro Hi. unfold heap_de, criar_tarefas.
  set (f := fun i0 => TarefaCAV_init _ _ _ _ _ _).
  rewrite (nth_indep _ _ (f 0%nat))
    by (now rewrite length_map, length_seq).
  rewrite map_nth, seq_nth by assumption. reflexivity.
Qed.

(** Whenever a run over distinct, newly constructed tasks of positive
    duration returns, every task has its finish time. *)
Lemma simular_finaliza alg q h refs n s :
  NoDup refs ->
  (forall a, In a refs -> tarefa_nova (h a) /\ 0 < duracao (h a)) ->
  simular alg q h refs n = Retorna s ->
  forall a, In a refs -> tempo_final (objetos s a) <> None.
Proof.
  intros Hnd Hts Hret a Ha.
  destruct (tem_quantum alg) eqn:Etq.
  - apply (quantum_finaliza alg q h refs n s Etq Hnd); try assumption.
    + intros b Hb. now apply Hts.
    + now apply Hts.
  - destruct alg; try discriminate Etq.
    + rewrite simular_fifo in Hret. injection Hret as <-.
      change (fold_left executar_por_completo (tarefas (inicial FIFO q h refs))
                (inicial FIFO q h refs))
        with (EscalonadorFIFO_escalonar (montado FIFO q h refs)).
      now apply fifo_finaliza.
    + now apply (sjf_finaliza q h refs n s).
    + now apply (np_finaliza q h refs n s).
Qed.

(** X23.  One experiment of [main] over the tasks that [criar_tarefas]
    generates, whatever the values drawn, the strategy and the quantum
    (at least one task is drawn).  The run is never aborted by
    [TypeError], [IndexError] or [UnboundLocalError]: every generated
    task has a deadline.  And whenever it returns, every task has its
    finish time, since no generated task is shorter than 1, and both
    averages are numbers. *)
Theorem X23_experimento_com_tarefas_criadas :
  forall alg q quantidade sorteios,
    (1 <= quantidade)%nat ->
    let l := criar_tarefas quantidade sorteios in
    (forall n e s, experimento alg q l n <> Aborta e s)
    /\ (forall n s,
          experimento alg q l n = Retorna s ->
          todas_finalizadas s (referencias l)
          /\ exists t w,
               calcular_turnaround_medio s = Some t
               /\ calcular_tempo_em_espera_medio s = Some w).
Proof.
  intros alg q quantidade sorteios Hquant l.
  assert (Hrefs : referencias l = seq 0 quantidade)
    by (unfold referencias, l; now rewrite criar_tarefas_length).
  assert (Hts : forall a, In a (referencias l) ->
            tarefa_nova (heap_de l a)
            /\ 1 <= duracao (heap_de l a)
            /\ deadline (heap_de l a) <> None).
  { intros a Ha. rewrite Hrefs in Ha. apply in_seq in Ha.
    unfold l. rewrite criar_tarefas_nth by lia.
    split; [reflexivity|]. split; [apply max_py_ge_r|discriminate]. }
  split.
  - apply (simular_nao_levanta alg q (heap_de l) (referencias l)).
    intros _ a Ha. now apply Hts.
  - intros n s Hret.
    assert (Hfin : todas_finalizadas s (referencias l)).
    { unfold todas_finalizadas.
      apply (simular_finaliza alg q (heap_de l) (referencias l) n s).
      - rewrite Hrefs. apply seq_NoDup.
      - intros a Ha. destruct (Hts a Ha) as (H1 & H2 & _).
        split; [assumption|lra].
      - exact Hret. }
    split; [exact Hfin|].
    assert (Hs : s = estado_de (simular alg q (heap_de l) (referencias l) n))
      by (change (simular alg q (heap_de l) (referencias l) n)
            with (experimento alg q l n); now rewrite Hret).
    assert (Hin : forall a, In a (tarefas s) <-> In a (referencias l))
      by (intro a; rewrite Hs; apply simular_tarefas).
    assert (Hne : concluidas s <> []).
    { intro Et.
      pose proof (proj1 (concluidas_vazia s) Et 0%nat) as H.
      apply (Hfin 0%nat).
      - rewrite Hrefs. apply in_seq. lia.
      - apply H, Hin. rewrite Hrefs. apply in_seq. lia. }
    unfold calcular_turnaround_medio, calcular_tempo_em_espera_medio.
    rewrite tempos_de_turnaround_concluidas, tempos_de_espera_concluidas.
    destruct (concluidas s) as [|c r]; [congruence|].
    cbn [map media]. eauto.
Qed.

Lemma X23_experimento_witness :
  (forall n e s,
     experimento RoundRobin 2 (criar_tarefas 2 sorteios_exemplo) n
     <> Aborta e s)
  /\ (forall n s,
        experimento RoundRobin 2 (criar_tarefas 2 sorteios_exemplo) n
        = Retorna s ->
        todas_finalizadas s (referencias (criar_tarefas 2 sorteios_exemplo))
        /\ exists t w,
             calcular_turnaround_medio s = Some t
             /\ calcular_tempo_em_espera_medio s = Some w).
Proof.
  apply (X23_experimento_com_tarefas_criadas RoundRobin 2 2%nat
           sorteios_exemplo).
  lia.
Defined.

(** ** EscalonadorUG without urgent tasks *)

(** Two loop bodies that agree on the states of an invariant give the same
    run. *)
Lemma laco_coincide (corpo1 corpo2 : Estado -> Passo) (P : Estado -> Prop) :
  (forall s, P s -> corpo1 s = corpo2 s) ->
  (forall s, P s -> P (estado_do_passo (corpo1 s))) ->
  forall n s, P s -> laco corpo1 n s = laco corpo2 n s.
Proof.
  intros Heq Hp n. induction n as [|n IH]; intros s Hs; cbn; [reflexivity|].
  destruct (fila s); [reflexivity|].
  rewrite <- (Heq s Hs). specialize (Hp s Hs).
  destruct (corpo1 s) as [s1|e s1]; [|reflexivity].
  now apply IH.
Qed.

(** A task that [EscalonadorUG] does not find urgent when nothing of it
    has run: [urgencia], called with the whole duration as the remaining
    time, returns a value that is not above [urg_max] (so the deadline is
    later than the duration: the other branch returns [urg_max + 1]). *)
Definition sem_urgencia (urg_max : Q) (t : TarefaCAV) : Prop :=
  exists u,
    urgencia (prioridade t) (deadline t) (duracao t) urg_max = Ok u
    /\ u <= urg_max.

Lemma sem_urgencia_folga urg_max t :
  sem_urgencia urg_max t ->
  exists d,
    deadline t = Some d
    /\ duracao t < d
    /\ inject_Z (prioridade t) <= urg_max * (d - duracao t).
Proof.
  intros (u & Hu & Hle). unfold urgencia in Hu.
  destruct (deadline t) as [d|]; [|discriminate Hu].
  exists d. split; [reflexivity|].
  destruct (Qlt_bool (duracao t) d) eqn:E; injection Hu as <-; [|lra].
  apply Qlt_bool_true in E. split; [exact E|].
  assert (H : inject_Z (prioridade t)
              == inject_Z (prioridade t) / (d - duracao t) * (d - duracao t))
    by (field; lra).
  rewrite H. apply Qmult_le_compat_r; lra.
Qed.

Lemma conceder_ug_sem_urgencia urg_max q qa t :
  0 <= urg_max -> sem_urgencia urg_max t ->
  tempo_restante t <= duracao t ->
  conceder_ug urg_max q qa t = conceder_fixo q qa t.
Proof.
  intros Hu Hs Hr. destruct (sem_urgencia_folga _ _ Hs) as (d & Hd & Hlt & Hp).
  unfold conceder_ug, conceder_fixo, urgencia. rewrite Hd.
  assert (E : Qlt_bool (tempo_restante t) d = true)
    by (apply Qlt_bool_true; lra).
  rewrite E.
  assert (E' : Qlt_bool urg_max
                 (inject_Z (prioridade t) / (d - tempo_restante t)) = false).
  { apply Qlt_bool_false. apply Qle_shift_div_r; [lra|].
    assert (urg_max * (d - duracao t) <= urg_max * (d - tempo_restante t))
      by nra.
    lra. }
  now rewrite E'.
Qed.

Definition SemUrgencia (urg_max : Q) (s : Estado) : Prop :=
  quantum_valido s
  /\ forall a, In a (fila s) ->
       sem_urgencia urg_max (objetos s a)
       /\ tempo_restante (objetos s a) <= duracao (objetos s a).

Lemma corpo_ug_sem_urgencia urg_max s :
  0 <= urg_max -> SemUrgencia urg_max s ->
  corpo_quantum escolher_prioridade_p (conceder_ug urg_max) s
  = corpo_quantum escolher_prioridade_p conceder_fixo s.
Proof.
  intros Hu [Hv Hf]. unfold corpo_quantum.
  destruct (tarefas_que_chegaram s) as [|c cs] eqn:Ec; [reflexivity|].
  destruct (escolher_prioridade_p (objetos s) (tempo_atual s) (c :: cs))
    as [a|e] eqn:Ea; [|reflexivity].
  assert (Hin : In a (fila s)).
  { rewrite <- Ec in Ea.
    apply (escolher_de_In PrioridadeP) in Ea. now apply chegaram_In in Ea. }
  destruct (Hf a Hin) as [Hs Hr].
  unfold despachar. cbn [objetos tempo_atual quantum quantum_atual retirar
                           set_fila set_tarefa].
  destruct (Qlt_bool 0 (tempo_restante (objetos s a))); [|reflexivity].
  rewrite conceder_ug_sem_urgencia; try assumption.
  reflexivity.
Qed.

Lemma iteracao_sem_urgencia urg_max s p :
  Iteracao escolher_prioridade_p (conceder_ug urg_max) s p ->
  SemUrgencia urg_max s -> SemUrgencia urg_max (estado_do_passo p).
Proof.
  intros Hit [Hv Hf].
  split; [now apply (iteracao_quantum_valido escolher_prioridade_p
                       (conceder_ug urg_max)
                       (conceder_de_ge (UG urg_max)) s p)|].
  pose proof (iteracao_mesmos_dados _ _ s p Hit) as (_ & _ & Hd).
  assert (Hest : forall b,
            sem_urgencia urg_max (objetos s b) ->
            sem_urgencia urg_max (objetos (estado_do_passo p) b)).
  { intros b (u & H1 & H2). destruct (Hd b) as (E1 & _ & E3 & E4).
    exists u. now rewrite E1, E3, E4. }
  assert (Hdur : forall b, duracao (objetos (estado_do_passo p) b)
                           = duracao (objetos s b))
    by (intro b; now destruct (Hd b) as (-> & _)).
  intros b Hb. split.
  - apply Hest.
    destruct Hit as [He|e He Hesc|a Ha Hr|a e Ha Hr Hc|a x qa u Ha Hr Hc Hfim
                    |a x qa u Ha Hr Hc Hfim]; cbn [estado_do_passo] in Hb;
      autorewrite with tarefa in Hb; cbn in Hb;
      try (apply reinserir_In in Hb; destruct Hb as [->|Hb];
           [apply Hf;
            now apply (escolhida_fila escolher_prioridade_p
                         (escolher_de_In PrioridadeP))|]);
      try (apply remover_In in Hb); now apply Hf.
  - rewrite Hdur.
    destruct Hit as [He|e He Hesc|a Ha Hr|a e Ha Hr Hc|a x qa u Ha Hr Hc Hfim
                    |a x qa u Ha Hr Hc Hfim]; cbn [estado_do_passo] in *.
    + now apply Hf.
    + now apply Hf.
    + cbn in *. apply Hf. eapply remover_In, Hb.
    + cbn in *. unfold gravar_obj. destruct (Nat.eqb b a) eqn:E.
      * apply Nat.eqb_eq in E. subst b. autorewrite with tarefa.
        apply Hf.
        now apply (escolhida_fila escolher_prioridade_p
                     (escolher_de_In PrioridadeP)).
      * apply Hf. eapply remover_In, Hb.
    + destruct (concedido_positivo (conceder_ug urg_max)
                  (conceder_de_ge (UG urg_max)) s a x qa u Hv Hr Hc)
        as [Hx _].
      pose proof (escolhida_fila escolher_prioridade_p
                    (escolher_de_In PrioridadeP) s a Ha) as Hin.
      autorewrite with tarefa in *.
      cbn [objetos fila retirar set_fila set_tarefa] in *.
      destruct (Nat.eq_dec b a) as [->|Hne].
      * autorewrite with tarefa.
        cbn [objetos retirar set_fila set_tarefa].
        destruct (Hf a Hin) as [_ Hle]. lra.
      * rewrite executar_fatia_outros by assumption.
        cbn [objetos retirar set_fila set_tarefa].
        apply reinserir_In in Hb. destruct Hb as [->|Hb]; [congruence|].
        apply Hf. eapply remover_In, Hb.
    + destruct (concedido_positivo (conceder_ug urg_max)
                  (conceder_de_ge (UG urg_max)) s a x qa u Hv Hr Hc)
        as [Hx _].
      pose proof (escolhida_fila escolher_prioridade_p
                    (escolher_de_In PrioridadeP) s a Ha) as Hin.
      autorewrite with tarefa in *.
      cbn [objetos fila retirar set_fila set_tarefa] in *.
      destruct (Nat.eq_dec b a) as [->|Hne].
      * rewrite gravar_obj_eq. cbn.
        rewrite executar_fatia_objetos, gravar_obj_eq.
        autorewrite with tarefa.
        cbn [objetos retirar set_fila set_tarefa].
        destruct (Hf a Hin) as [_ Hle]. lra.
      * rewrite gravar_obj_neq by assumption.
        rewrite executar_fatia_outros by assumption.
        cbn [objetos retirar set_fila set_tarefa].
        apply Hf. eapply remover_In, Hb.
Qed.



(** ** Start and response times *)

(** The first start of the task at [b] is not before its arrival, and its
    response time is not negative. *)
Definition resposta_valida (t : TarefaCAV) : Prop :=
  (forall i, tempo_inicio t = Some i -> tempo_chegada t <= i)
  /\ (forall r, tempo_de_resposta t = Some r -> 0 <= r).

Lemma resposta_valida_iniciar agora t :
  resposta_valida t -> resposta_valida (iniciar_execucao agora t).
Proof.
  intros [H1 H2]. split; [|exact H2].
  intros i. unfold iniciar_execucao. cbn.
  destruct (tempo_inicio t) as [j|] eqn:E.
  - intros [= <-]. now apply H1.
  - intros [= <-]. apply max_py_ge_r.
Qed.

Lemma resposta_valida_contabilizar inicio x t :
  resposta_valida t -> resposta_valida (contabilizar_execucao inicio x t).
Proof.
  intros [H1 H2]. split; [exact H1|].
  intros r. unfold contabilizar_execucao. cbn.
  destruct (tempo_inicio t) as [j|] eqn:E; cbn; [|discriminate].
  intros [= <-]. specialize (H1 j eq_refl). lra.
Qed.

Lemma resposta_valida_final v t :
  resposta_valida t -> resposta_valida (set_tempo_final v t).
Proof. intros [H1 H2]. now split. Qed.

Lemma iteracao_resposta escolher conceder s p b :
  Iteracao escolher conceder s p ->
  resposta_valida (objetos s b) ->
  resposta_valida (objetos (estado_do_passo p) b).
Proof.
  intros Hit Hb.
  destruct Hit as [He|e He Hesc|a Ha Hr|a e Ha Hr Hc|a x qa u Ha Hr Hc Hf
                  |a x qa u Ha Hr Hc Hf]; cbn [estado_do_passo];
    try exact Hb.
  - cbn. unfold gravar_obj. destruct (Nat.eqb b a) eqn:E; [|exact Hb].
    apply Nat.eqb_eq in E. subst b. now apply resposta_valida_iniciar.
  - autorewrite with tarefa. rewrite executar_fatia_objetos.
    cbn [objetos tempo_atual retirar set_fila set_tarefa].
    unfold gravar_obj. destruct (Nat.eqb b a) eqn:E; [|exact Hb].
    apply Nat.eqb_eq in E. subst b.
    now apply resposta_valida_contabilizar, resposta_valida_iniciar.
  - autorewrite with tarefa. rewrite executar_fatia_objetos.
    cbn [objetos tempo_atual retirar set_fila set_tarefa].
    unfold gravar_obj at 1. destruct (Nat.eqb b a) eqn:E.
    + apply Nat.eqb_eq in E. subst b. rewrite gravar_obj_eq.
      apply resposta_valida_final.
      now apply resposta_valida_contabilizar, resposta_valida_iniciar.
    + unfold gravar_obj. now rewrite E.
Qed.

Lemma resposta_valida_por_completo b s a :
  resposta_valida (objetos s b) ->
  resposta_valida (objetos (executar_por_completo s a) b).
Proof.
  intro Hb. rewrite executar_por_completo_objetos. unfold gravar_obj.
  destruct (Nat.eqb b a) eqn:E; [|exact Hb].
  pose proof (max_py_ge_r (tempo_atual s) (tempo_chegada (objetos s a))).
  split; cbn; intros i [= <-]; lra.
Qed.

Lemma resposta_valida_sem_preempcao b s a :
  tempo_chegada (objetos s a) <= tempo_atual s ->
  resposta_valida (objetos s b) ->
  resposta_valida (objetos (executar_sem_preempcao s a) b).
Proof.
  intros Hc Hb. rewrite executar_sem_preempcao_objetos. unfold gravar_obj.
  destruct (Nat.eqb b a) eqn:E; [|exact Hb].
  split; cbn; intros i [= <-]; lra.
Qed.

(** X25.  At every moment of a run of any strategy, however it ends, a
    newly constructed task has no start time earlier than its arrival and
    no negative response time. *)
Theorem X25_resposta_nao_negativa :
  forall alg q h refs n a,
    tarefa_nova (h a) ->
    let t := objetos (estado_de (simular alg q h refs n)) a in
    (forall i, tempo_inicio t = Some i -> tempo_chegada (h a) <= i)
    /\ (forall r, tempo_de_resposta t = Some r -> 0 <= r).
Proof.
  intros alg q h refs n a Hn t.
  enough (H : resposta_valida t).
  { destruct H as [H1 H2]. split; [|exact H2].
    intros i Hi. specialize (H1 i Hi). unfold t in H1.
    now rewrite simular_chegada in H1. }
  destruct (inicial_campos alg q h refs) as (H1 & _).
  assert (Hini : resposta_valida (objetos (inicial alg q h refs) a)).
  { rewrite H1, Hn. split; cbn; discriminate. }
  unfold t. destruct (tem_quantum alg) eqn:Etq.
  - rewrite simular_com_quantum by assumption.
    apply (laco_preserva
             (corpo_quantum (escolher_de alg) (conceder_de alg))
             (fun s => resposta_valida (objetos s a))); [|assumption].
    intros s Hs.
    apply (iteracao_resposta (escolher_de alg) (conceder_de alg) s);
      [apply corpo_quantum_iteracao|assumption].
  - destruct alg; try discriminate Etq.
    + rewrite simular_fifo. cbn [estado_de].
      generalize (tarefas (inicial FIFO q h refs)) as l.
      revert Hini. generalize (inicial FIFO q h refs) as s.
      intros s Hs l. revert s Hs.
      induction l as [|x r IH]; intros s Hs; cbn; [exact Hs|].
      apply IH. now apply resposta_valida_por_completo.
    + rewrite simular_sjf.
      apply (laco_preserva corpo_sjf
               (fun s => resposta_valida (objetos s a))); [|assumption].
      intros s Hs.
      destruct (corpo_sjf_iteracao s) as [c Hc|c He Hc|He Hnn];
        cbn [estado_do_passo]; try assumption;
        now apply resposta_valida_por_completo.
    + rewrite simular_np.
      apply (laco_preserva corpo_prioridade_np
               (fun s => resposta_valida (objetos s a))); [|assumption].
      intros s Hs.
      destruct (corpo_prioridade_np_iteracao s) as [He|c Hc];
        cbn [estado_do_passo]; [exact Hs|].
      apply chegaram_In in Hc. destruct Hc as [_ Hc].
      now apply resposta_valida_sem_preempcao.
Qed.

Lemma X25_resposta_witness :
  (forall i,
     tempo_inicio
       (objetos (estado_de (simular RoundRobin 2 cenario_rr [0; 1]%nat 10))
          1%nat) = Some i ->
     tempo_chegada (cenario_rr 1%nat) <= i)
  /\ (forall r,
        tempo_de_resposta
          (objetos (estado_de (simular RoundRobin 2 cenario_rr [0; 1]%nat 10))
             1%nat) = Some r ->
        0 <= r).
Proof.
  apply (X25_resposta_nao_negativa RoundRobin 2 cenario_rr [0; 1]%nat 10%nat
           1%nat).
  reflexivity.
Defined.

(** ** What the waiting accumulator holds *)

(** The end of the last burst, 0 before the first one: what a dispatch
    subtracts from the start of the new burst. *)
Definition fim_anterior (t : TarefaCAV) : Q :=
  match tempo_final_execucao_atual t with
  | Some f => f
  | None => 0
  end.

(** The statement [tempo_em_espera += inicio - anterior] replayed over a
    list of bursts, from the accumulator 0 of a new task: every burst adds
    its start minus the end of the burst before it, the first one its
    start minus 0.  The second component is the end of the last burst. *)
Definition acumular_espera (l : list (Q * Q)) : Q * Q :=
  fold_left
    (fun (acc : Q * Q) (b : Q * Q) => (fst acc + (fst b - snd acc), snd b))
    l (0, 0).

Definition espera_das_execucoes (l : list (Q * Q)) : Q :=
  fst (acumular_espera l).

Definition espera_conforme (t : TarefaCAV) : Prop :=
  acumular_espera (tempos_execucao t) = (tempo_em_espera t, fim_anterior t).

Lemma espera_conforme_fatia agora x t :
  espera_conforme t ->
  espera_conforme
    (contabilizar_execucao (max_py agora (tempo_chegada t)) x
       (iniciar_execucao agora t)).
Proof.
  unfold espera_conforme, acumular_espera, fim_anterior. intro H.
  autorewrite with tarefa. rewrite fold_left_app, H. reflexivity.
Qed.

Lemma iteracao_espera_conforme escolher conceder s p b :
  Iteracao escolher conceder s p ->
  espera_conforme (objetos s b) ->
  espera_conforme (objetos (estado_do_passo p) b).
Proof.
  intros Hit Hb.
  destruct Hit as [He|e He Hesc|a Ha Hr|a e Ha Hr Hc|a x qa u Ha Hr Hc Hf
                  |a x qa u Ha Hr Hc Hf]; cbn [estado_do_passo];
    try exact Hb.
  - cbn. unfold gravar_obj. destruct (Nat.eqb b a) eqn:E; [|exact Hb].
    apply Nat.eqb_eq in E. subst b.
    unfold espera_conforme, fim_anterior in *.
    now autorewrite with tarefa.
  - autorewrite with tarefa. rewrite executar_fatia_objetos.
    cbn [objetos tempo_atual retirar set_fila set_tarefa].
    unfold gravar_obj. destruct (Nat.eqb b a) eqn:E; [|exact Hb].
    apply Nat.eqb_eq in E. subst b. now apply espera_conforme_fatia.
  - autorewrite with tarefa. rewrite executar_fatia_objetos.
    cbn [objetos tempo_atual retirar set_fila set_tarefa].
    unfold gravar_obj at 1. destruct (Nat.eqb b a) eqn:E.
    + apply Nat.eqb_eq in E. subst b. rewrite gravar_obj_eq.
      apply (espera_conforme_fatia (tempo_atual s) x) in Hb.
      exact Hb.
    + unfold gravar_obj. now rewrite E.
Qed.

(** X26.  In the quantum-bounded strategies, at every moment of a run,
    [tempo_em_espera] of a newly constructed task is determined by its
    bursts: from 0, every burst has added its start minus the end of the
    burst before it, and the first burst its start minus 0, not minus the
    arrival of the task. *)
Theorem X26_espera_acumulada_desde_o_instante_zero :
  forall alg q h refs n a,
    tem_quantum alg = true ->
    tarefa_nova (h a) ->
    let t := objetos (estado_de (simular alg q h refs n)) a in
    tempo_em_espera t = espera_das_execucoes (tempos_execucao t).
Proof.
  intros alg q h refs n a Hq Hn t.
  enough (H : espera_conforme t)
    by (unfold espera_das_execucoes; now rewrite H).
  unfold t. rewrite simular_com_quantum by assumption.
  apply (laco_preserva
           (corpo_quantum (escolher_de alg) (conceder_de alg))
           (fun s => espera_conforme (objetos s a))).
  - intros s Hs.
    apply (iteracao_espera_conforme (escolher_de alg) (conceder_de alg) s);
      [apply corpo_quantum_iteracao|assumption].
  - destruct (inicial_campos alg q h refs) as (-> & _).
    rewrite Hn. reflexivity.
Qed.

Lemma X26_espera_acumulada_witness :
  tempo_em_espera
    (objetos (estado_de (simular RoundRobin 2 cenario_rr [0; 1]%nat 10)) 1%nat)
  = espera_das_execucoes
      (tempos_execucao
         (objetos (estado_de (simular RoundRobin 2 cenario_rr [0; 1]%nat 10))
            1%nat)).
Proof.
  apply (X26_espera_acumulada_desde_o_instante_zero RoundRobin 2 cenario_rr
           [0; 1]%nat 10%nat 1%nat).
  - reflexivity.
  - reflexivity.
Defined.
